(** * CFD-system: velocity field, particle passes, particle system, OBJ loader

    A shallow embedding of the repository's own logic:
    - [VelocityField.generate]            (src/main.js, class VelocityField)
    - the two GPU compute passes          (src/shaders.js, both variants)
    - [ParticleSystem.update/updateParams] (src/ParticleSystem.js and its
                                            plane-emitter variant)
    - [OBJLoader.loadFromFile] and helpers (src/OBJLoader.js)

    Numbers.  JavaScript numbers and GLSL floats are embedded as exact
    rationals [Q]: rounding is not modelled.  The places where the source
    can produce a non-finite number (a division by zero) are modelled
    explicitly, see [gridStep], [gridPoint], [texCoord] and
    [normalizeGeometry].
    Library primitives that have no rational counterpart (square root,
    sine, texture sampling, the raycaster, the OBJ parser) are section
    variables. *)

From Stdlib Require Import QArith Qminmax Qround Qpower Lqa.
From stdpp Require Import gmap strings list.

Local Open Scope Q_scope.
Local Set Warnings "-register-all".

(** ** Numbers *)

Definition Qltb (a b : Q) : bool := negb (Qle_bool b a).
Definition Qgeb (a b : Q) : bool := Qle_bool b a.
Definition Qgtb (a b : Q) : bool := Qltb b a.

(** ** THREE.Vector3 and THREE.Box3 *)

Record Vector3 : Type := V3 { vx : Q; vy : Q; vz : Q }.

Definition veq (a b : Vector3) : Prop :=
  vx a == vx b /\ vy a == vy b /\ vz a == vz b.

Definition vzero : Vector3 := V3 0 0 0.

Definition subVectors (a b : Vector3) : Vector3 :=
  V3 (vx a - vx b) (vy a - vy b) (vz a - vz b).

Definition addVectors (a b : Vector3) : Vector3 :=
  V3 (vx a + vx b) (vy a + vy b) (vz a + vz b).

Definition multiplyScalar (v : Vector3) (s : Q) : Vector3 :=
  V3 (vx v * s) (vy v * s) (vz v * s).

(** [Vector3.divideScalar(s)] is [multiplyScalar(1 / s)]. *)
Definition divideScalar (v : Vector3) (s : Q) : Vector3 :=
  multiplyScalar v (1 / s).

(** A box is empty (min = +Infinity, max = -Infinity, the state after
    [makeEmpty]) or spans [bmin .. bmax]. *)
Inductive Box3 : Type :=
| EmptyBox
| Box (bmin bmax : Vector3).

(** [Box3.containsPoint]: closed on every face. *)
Definition containsPoint (b : Box3) (p : Vector3) : bool :=
  match b with
  | EmptyBox => false
  | Box lo hi =>
      Qgeb (vx p) (vx lo) && Qle_bool (vx p) (vx hi) &&
      Qgeb (vy p) (vy lo) && Qle_bool (vy p) (vy hi) &&
      Qgeb (vz p) (vz lo) && Qle_bool (vz p) (vz hi)
  end.

Definition expandByPoint (b : Box3) (p : Vector3) : Box3 :=
  match b with
  | EmptyBox => Box p p
  | Box lo hi =>
      Box (V3 (Qmin (vx lo) (vx p)) (Qmin (vy lo) (vy p)) (Qmin (vz lo) (vz p)))
          (V3 (Qmax (vx hi) (vx p)) (Qmax (vy hi) (vy p)) (Qmax (vz hi) (vz p)))
  end.

(** [Box3.setFromBufferAttribute]: start empty, expand by every vertex. *)
Definition setFromPoints (ps : list Vector3) : Box3 :=
  fold_left expandByPoint ps EmptyBox.

(** [Box3.getCenter] and [Box3.getSize]; both answer (0,0,0) on an empty box. *)
Definition getCenter (b : Box3) : Vector3 :=
  match b with
  | EmptyBox => vzero
  | Box lo hi => multiplyScalar (addVectors lo hi) (1#2)
  end.

Definition getSize (b : Box3) : Vector3 :=
  match b with
  | EmptyBox => vzero
  | Box lo hi => subVectors hi lo
  end.

(** ** THREE.BufferGeometry and THREE.Mesh

    Only the position attribute and the cached bounding box matter here. *)

Record BufferGeometry : Type := Geometry {
  position : list Vector3;
  boundingBox : option Box3
}.

Definition computeBoundingBox (g : BufferGeometry) : BufferGeometry :=
  Geometry (position g) (Some (setFromPoints (position g))).

(** [applyMatrix4] moves the vertices and refreshes a cached box. *)
Definition mapPosition (f : Vector3 -> Vector3) (g : BufferGeometry)
  : BufferGeometry :=
  let ps := map f (position g) in
  Geometry ps (match boundingBox g with
               | None => None
               | Some _ => Some (setFromPoints ps)
               end).

Definition translate (g : BufferGeometry) (tx ty tz : Q) : BufferGeometry :=
  mapPosition (fun p => V3 (vx p + tx) (vy p + ty) (vz p + tz)) g.

Definition scale (g : BufferGeometry) (sx sy sz : Q) : BufferGeometry :=
  mapPosition (fun p => V3 (vx p * sx) (vy p * sy) (vz p * sz)) g.

(** A mesh object.  [mesh_id] stands for the identity of the JavaScript
    object; [mesh_children] are the names of the objects added to it. *)
Record Mesh : Type := MkMesh {
  mesh_id : nat;
  geometry : option BufferGeometry;
  mesh_visible : bool;
  mesh_children : list string
}.

(** ** Loops and typed arrays *)

(** [for (let i = 0; i < n; i++) body] threading the state [s]. *)
Definition for_upto {S : Type} (n : nat) (body : nat -> S -> S) (s : S) : S :=
  fold_left (fun acc i => body i acc) (seq 0 n) s.

(** [new Float32Array(n)]: [n] zeros.  A store outside the array is dropped,
    which is what the list update of stdpp does.  The rounding of a store
    to single precision is not modelled. *)
Definition Float32Array (n : nat) : list Q := replicate n 0.

(** ** VelocityField.generate (src/main.js) *)

Module VelocityField.
Section Generate.

(** [raycaster.intersectObject(mesh, true)] for a ray with the given
    origin and direction: the list of hit distances. *)
Variable intersectObject : Mesh -> Vector3 -> Vector3 -> list Q.
(** [Math.sqrt]. *)
Variable sqrt : Q -> Q.

Definition boxMin : Vector3 := V3 (-1) (-1) (-1).
Definition boxMax : Vector3 := V3 1 1 1.
Definition boxSize : Vector3 := subVectors boxMax boxMin.
Definition rayDir : Vector3 := V3 0 1 0.

(** [step = boxSize / (resolution - 1)].  With [resolution = 1] the
    divisor is zero and every component of [step] is +Infinity: [None]. *)
Definition gridStep (resolution : nat) : option Vector3 :=
  if (resolution =? 1)%nat then None
  else Some (divideScalar boxSize (inject_Z (Z.of_nat resolution) - 1)).

(** [pos.set(boxMin.x + x * step.x, ...)].  With an infinite step the only
    cell is (0,0,0) and [0 * Infinity] is NaN in each component: [None]. *)
Definition gridPoint (resolution x y z : nat) : option Vector3 :=
  match gridStep resolution with
  | None => None
  | Some st =>
      Some (V3 (vx boxMin + inject_Z (Z.of_nat x) * vx st)
               (vy boxMin + inject_Z (Z.of_nat y) * vy st)
               (vz boxMin + inject_Z (Z.of_nat z) * vz st))
  end.

(** [Vector3.length] and [Vector3.normalize]
    ([divideScalar(this.length() || 1)]). *)
Definition vlength (v : Vector3) : Q :=
  sqrt (vx v * vx v + vy v * vy v + vz v * vz v).

Definition normalize (v : Vector3) : Vector3 :=
  let l := vlength v in
  divideScalar v (if Qeq_bool l 0 then 1 else l).

(** The analytic flow of one cell, before the obstacle test.  A NaN
    position has NaN length, and [NaN > 0.1] is false. *)
Definition flowVelocity (method : string) (pos : option Vector3) : Vector3 :=
  if String.eqb method "potential" then V3 (0 + 1) 0 0
  else if String.eqb method "radial" then
    match pos with
    | None => vzero
    | Some r =>
        if Qgtb (vlength r) (1#10) then normalize r else vzero
    end
  else vzero.

(** The bounding box computed once before the loop:
    [mesh && mesh.geometry] guards the computation. *)
Definition meshBbox (mesh : option Mesh) : option Box3 :=
  match mesh with
  | None => None
  | Some m =>
      match geometry m with
      | None => None
      | Some g => boundingBox (computeBoundingBox g)
      end
  end.

(** The obstacle test of one cell.  A NaN position is in no box. *)
Definition cellInside (mesh : option Mesh) (pos : option Vector3) : bool :=
  match mesh, meshBbox mesh with
  | Some m, Some bb =>
      match pos with
      | None => false
      | Some p =>
          if containsPoint bb p
          then (length (intersectObject m p rayDir) mod 2 =? 1)%nat
          else false
      end
  | _, _ => false
  end.

Definition cellVelocity (method : string) (mesh : option Mesh)
           (pos : option Vector3) : Vector3 :=
  if cellInside mesh pos then vzero else flowVelocity method pos.

Definition cellIndex (resolution x y z : nat) : nat :=
  (z * resolution * resolution + y * resolution + x)%nat.

(** The body of the innermost loop. *)
Definition writeCell (resolution : nat) (method : string)
           (mesh : option Mesh) (z y x : nat) (data : list Q) : list Q :=
  let i := cellIndex resolution x y z in
  let stride := (i * 4)%nat in
  let v := cellVelocity method mesh (gridPoint resolution x y z) in
  <[(stride + 3)%nat := 0]>
    (<[(stride + 2)%nat := vz v]>
      (<[(stride + 1)%nat := vy v]>
        (<[stride := vx v]> data))).

Definition generateData (resolution : nat) (method : string)
           (mesh : option Mesh) : list Q :=
  let size := (resolution * resolution * resolution)%nat in
  for_upto resolution (fun z =>
    for_upto resolution (fun y =>
      for_upto resolution (fun x =>
        writeCell resolution method mesh z y x)))
    (Float32Array (size * 4)).

(** The field object: [resolution], [data] and the 3D texture. *)
Record Data3DTexture : Type := Texture3D {
  image : list Q;
  width : nat; height : nat; depth : nat
}.

Record t : Type := Field {
  resolution : nat;
  data : option (list Q);
  texture : option Data3DTexture
}.

(** The constructor: resolution 64, no data, no texture. *)
Definition new : t := Field 64 None None.

(** [generate(mesh, params)]; [res] is [parseInt(params.resolution)] and
    [method] is [params.method].  The previous texture is disposed and
    replaced. *)
Definition generate (_ : t) (mesh : option Mesh) (res : nat)
           (method : string) : t :=
  let d := generateData res method mesh in
  Field res (Some d) (Some (Texture3D d res res res)).

End Generate.
End VelocityField.

(** ** The GPU compute passes (src/shaders.js)

    One call of a shader's [main] computes one texel, that is one particle,
    of one frame.  GLSL built-ins without a rational counterpart are
    section variables. *)

Record Vector2 : Type := V2 { ux : Q; uy : Q }.
Record Vector4 : Type := V4 { px : Q; py : Q; pz : Q; pw : Q }.

Definition xyz (v : Vector4) : Vector3 := V3 (px v) (py v) (pz v).
Definition vec4 (v : Vector3) (w : Q) : Vector4 := V4 (vx v) (vy v) (vz v) w.

(** GLSL [fract], [dot] on vec2, and [mix]. *)
Definition fract (x : Q) : Q := x - inject_Z (Qfloor x).
Definition dot2 (a b : Vector2) : Q := ux a * ux b + uy a * uy b.
Definition mix (a b : Vector3) (t : Q) : Vector3 :=
  V3 (vx a * (1 - t) + vx b * t)
     (vy a * (1 - t) + vy b * t)
     (vz a * (1 - t) + vz b * t).

(** [pos] outside the closed box [lo .. hi], as the shaders spell it. *)
Definition outOfBounds (pos lo hi : Vector3) : bool :=
  Qltb (vx pos) (vx lo) || Qgtb (vx pos) (vx hi) ||
  Qltb (vy pos) (vy lo) || Qgtb (vy pos) (vy hi) ||
  Qltb (vz pos) (vz lo) || Qgtb (vz pos) (vz hi).

(** [texCoord = (pos - gridMin) / (gridMax - gridMin)], componentwise.  A
    zero divisor gives a non-finite coordinate: [None]. *)
Definition texCoord (pos gridMin gridMax : Vector3) : option Vector3 :=
  let d := subVectors gridMax gridMin in
  if Qeq_bool (vx d) 0 || Qeq_bool (vy d) 0 || Qeq_bool (vz d) 0 then None
  else Some (V3 ((vx pos - vx gridMin) / vx d)
                ((vy pos - vy gridMin) / vy d)
                ((vz pos - vz gridMin) / vz d)).

(** The grid test of the velocity pass; a non-finite coordinate fails it. *)
Definition insideGrid (tc : option Vector3) : bool :=
  match tc with
  | None => false
  | Some c =>
      Qgeb (vx c) 0 && Qle_bool (vx c) 1 &&
      Qgeb (vy c) 0 && Qle_bool (vy c) 1 &&
      Qgeb (vz c) 0 && Qle_bool (vz c) 1
  end.

Section GLSL.

Variable sin : Q -> Q.

(** [rand] is the same function in both position shaders. *)
Definition rand (co : Vector2) : Q :=
  fract (sin (dot2 co (V2 12.9898 78.233)) * 43758.5453).

Definition addScalar2 (v : Vector2) (s : Q) : Vector2 :=
  V2 (ux v + s) (uy v + s).

(** The advection step shared by both position shaders:
    [pos += vel * delta * speedMultiplier; age += delta * 60.0]. *)
Definition advance (pos vel : Vector3) (delta speedMultiplier : Q) : Vector3 :=
  V3 (vx pos + vx vel * delta * speedMultiplier)
     (vy pos + vy vel * delta * speedMultiplier)
     (vz pos + vz vel * delta * speedMultiplier).

Definition advanceAge (age delta : Q) : Q := age + delta * 60.

End GLSL.

(** *** The plane-emitter shaders (first half of src/shaders.js) *)

Module PlaneShaders.

Record PositionUniforms : Type := {
  time : Q; delta : Q; maxAge : Q;
  emitterPos : Vector3; emitterWidth : Q; emitterHeight : Q;
  boundsMin : Vector3; boundsMax : Vector3;
  speedMultiplier : Q
}.

Record VelocityUniforms : Type := {
  vtime : Q; vdelta : Q;
  gridMin : Vector3; gridMax : Vector3;
  initialDirection : Vector3; initialSpeed : Q;
  dragCoefficient : Q
}.

Section Passes.

Variable sin : Q -> Q.
Variable normalize3 : Vector3 -> Vector3.
Variable texture3D : Vector3 -> Vector4.

Definition myMaxAge (U : PositionUniforms) (uv : Vector2) : Q :=
  maxAge U * (0.9 + 0.1 * rand sin uv).

Definition respawns (U : PositionUniforms) (uv : Vector2)
           (pos : Vector3) (age : Q) : bool :=
  Qgeb age (myMaxAge U uv) || outOfBounds pos (boundsMin U) (boundsMax U).

(** The spawn point on the YZ plane patch at the emitter. *)
Definition spawnPoint (U : PositionUniforms) (uv : Vector2) : Vector3 :=
  let u := ux uv in
  let v := uy uv in
  let r1 := rand sin (addScalar2 uv (time U)) in
  let r2 := rand sin (addScalar2 uv (time U * 1.1)) in
  let r3 := rand sin (addScalar2 uv (time U * 1.2)) in
  let y := vy (emitterPos U) + (v - 0.5) * emitterHeight U in
  let z := vz (emitterPos U) + (u - 0.5) * emitterWidth U in
  V3 (vx (emitterPos U) + r1 * 0.05) (y + r2 * 0.01) (z + r3 * 0.01).

Definition particleComputeShaderPosition (U : PositionUniforms)
           (uv : Vector2) (posData velData : Vector4) : Vector4 :=
  let pos := xyz posData in
  let age := pw posData in
  let vel := xyz velData in
  let pos := advance pos vel (delta U) (speedMultiplier U) in
  let age := advanceAge age (delta U) in
  if respawns U uv pos age
  then vec4 (spawnPoint U uv) 0
  else vec4 pos age.

(** [age <= delta * 60.0 * 2.0] *)
Definition newlySpawned (U : VelocityUniforms) (age : Q) : bool :=
  Qle_bool age (vdelta U * 60 * 2).

Definition initialVelocity (U : VelocityUniforms) : Vector3 :=
  multiplyScalar (normalize3 (initialDirection U)) (initialSpeed U).

Definition blend : Q := 0.3.

Definition particleComputeShaderVelocity (U : VelocityUniforms)
           (uv : Vector2) (posData velData : Vector4) : Vector4 :=
  let pos := xyz posData in
  let age := pw posData in
  let vel := xyz velData in
  let vel := if newlySpawned U age then initialVelocity U else vel in
  let tc := texCoord pos (gridMin U) (gridMax U) in
  let vel :=
    match tc with
    | Some c =>
        if insideGrid tc then mix vel (xyz (texture3D c)) blend else vel
    | None => vel
    end in
  vec4 vel 0.

End Passes.
End PlaneShaders.

(** *** The emission-shape shaders (second half of src/shaders.js) *)

Module ShapeShaders.

Record PositionUniforms : Type := {
  time : Q; delta : Q; maxAge : Q;
  emitterPos : Vector3; emissionRate : Q;
  boundsMin : Vector3; boundsMax : Vector3;
  speedMultiplier : Q;
  emissionShape : Z; emissionRadius : Q
}.

Record VelocityUniforms : Type := {
  vtime : Q; vdelta : Q;
  gridMin : Vector3; gridMax : Vector3;
  initialDirection : Vector3; initialSpeed : Q
}.

Section Passes.

Variable sin : Q -> Q.
Variable cos : Q -> Q.
Variable sqrt : Q -> Q.
Variable pow : Q -> Q -> Q.
Variable length3 : Vector3 -> Q.
Variable normalize3 : Vector3 -> Vector3.
Variable texture3D : Vector3 -> Vector4.

Definition myMaxAge (U : PositionUniforms) (uv : Vector2) : Q :=
  maxAge U * (0.8 + 0.4 * rand sin uv).

Definition respawns (U : PositionUniforms) (uv : Vector2)
           (pos : Vector3) (age : Q) : bool :=
  Qgeb age (myMaxAge U uv) || outOfBounds pos (boundsMin U) (boundsMax U).

(** The offset from the emitter: a small cube (shape 0), a disc in the YZ
    plane (shape 1) or a ball (any other shape). *)
Definition spawnOffset (U : PositionUniforms) (uv : Vector2) : Vector3 :=
  let r1 := rand sin (addScalar2 uv (time U)) in
  let r2 := rand sin (addScalar2 uv (time U * 1.1)) in
  let r3 := rand sin (addScalar2 uv (time U * 1.2)) in
  if (emissionShape U =? 0)%Z then
    multiplyScalar (V3 (r1 - 0.5) (r2 - 0.5) (r3 - 0.5)) 0.01
  else if (emissionShape U =? 1)%Z then
    let angle := r1 * 6.28318 in
    let r := sqrt r2 * emissionRadius U in
    V3 0 (r * cos angle) (r * sin angle)
  else
    let dir := V3 (r1 - 0.5) (r2 - 0.5) (r3 - 0.5) in
    let dir := if Qgtb (length3 dir) 0.001 then normalize3 dir else dir in
    let r := pow r1 0.333333 * emissionRadius U in
    multiplyScalar dir r.

Definition spawnPoint (U : PositionUniforms) (uv : Vector2) : Vector3 :=
  addVectors (emitterPos U) (spawnOffset U uv).

Definition particleComputeShaderPosition (U : PositionUniforms)
           (uv : Vector2) (posData velData : Vector4) : Vector4 :=
  let pos := xyz posData in
  let age := pw posData in
  let vel := xyz velData in
  let pos := advance pos vel (delta U) (speedMultiplier U) in
  let age := advanceAge age (delta U) in
  if respawns U uv pos age
  then vec4 (spawnPoint U uv) 0
  else vec4 pos age.

(** [age <= 0.0 || age < delta * 60.0 * 1.5] *)
Definition newlySpawned (U : VelocityUniforms) (age : Q) : bool :=
  Qle_bool age 0 || Qltb age (vdelta U * 60 * 1.5).

Definition initialVelocity (U : VelocityUniforms) : Vector3 :=
  multiplyScalar (normalize3 (initialDirection U)) (initialSpeed U).

Definition blend : Q := 0.2.

Definition particleComputeShaderVelocity (U : VelocityUniforms)
           (uv : Vector2) (posData velData : Vector4) : Vector4 :=
  let pos := xyz posData in
  let age := pw posData in
  let vel := xyz velData in
  let vel := if newlySpawned U age then initialVelocity U else vel in
  let tc := texCoord pos (gridMin U) (gridMax U) in
  let vel :=
    match tc with
    | Some c =>
        if insideGrid tc then mix vel (xyz (texture3D c)) blend else vel
    | None => vel
    end in
  vec4 vel 0.

End Passes.
End ShapeShaders.

(** ** Uniform values and parameter objects *)

(** A JavaScript number: a rational or NaN. *)
Inductive JSNumber : Type :=
| Num (q : Q)
| NaN.

(** Truthiness of a number: neither zero nor NaN. *)
Definition truthyNumber (n : JSNumber) : bool :=
  match n with
  | Num q => negb (Qeq_bool q 0)
  | NaN => false
  end.

(** Truthiness of a property that is a number when present. *)
Definition truthy (p : option JSNumber) : bool :=
  match p with
  | None => false
  | Some n => truthyNumber n
  end.

(** The [value] slot of a uniform.  [UTarget name i] is the texture of
    render target [i] of the compute variable [name]. *)
Inductive UniformValue : Type :=
| UNull
| UNumber (n : JSNumber)
| UVector3 (v : Vector3)
| UField (t : VelocityField.Data3DTexture)
| UTarget (name : string) (index : nat).

(** The object handed to [updateParams].  [None] is an absent key (or
    [undefined]).  Every key either variant of [updateParams] reads is here. *)
Record Params : Type := {
  p_emitterPos : option Vector3;
  p_lifespan : option JSNumber;
  p_speedMultiplier : option JSNumber;
  p_emissionRate : option JSNumber;
  p_emissionShape : option JSNumber;
  p_emissionRadius : option JSNumber;
  p_emitterWidth : option JSNumber;
  p_emitterHeight : option JSNumber
}.

Definition noParams : Params :=
  {| p_emitterPos := None; p_lifespan := None; p_speedMultiplier := None;
     p_emissionRate := None; p_emissionShape := None;
     p_emissionRadius := None; p_emitterWidth := None;
     p_emitterHeight := None |}.

(** ** GPUComputationRenderer

    The helper owns two render targets per variable.  [init] gives every
    variable a null uniform per dependency.  [compute] points those
    uniforms at the current targets, renders every variable into the
    target that is not current and then flips [currentTextureIndex]; what
    the passes draw is the section variable [renderPasses] of the
    particle-system sections below. *)
Record GPUComputationRenderer (T : Type) : Type := GPU {
  sizeX : nat;
  sizeY : nat;
  currentTextureIndex : nat;
  renderTargets : T
}.
Arguments GPU {T}.
Arguments sizeX {T}.
Arguments sizeY {T}.
Arguments currentTextureIndex {T}.
Arguments renderTargets {T}.

(** Both variables depend on both variables. *)
Definition initDependencies (u : gmap string UniformValue)
  : gmap string UniformValue :=
  <["textureVelocity" := UNull]> (<["texturePosition" := UNull]> u).

Definition bindDependencies (current : nat) (u : gmap string UniformValue)
  : gmap string UniformValue :=
  <["textureVelocity" := UTarget "textureVelocity" current]>
    (<["texturePosition" := UTarget "texturePosition" current]> u).

(** ** ParticleSystem (src/ParticleSystem.js) *)

Module ParticleSystem.
Section WithGPU.

Variable T : Type.
(** The two shader passes of one [compute] call, given the size, the
    uniforms of both variables and the index being read. *)
Variable renderPasses :
  nat -> nat -> gmap string UniformValue -> gmap string UniformValue ->
  nat -> T -> T.

Record t : Type := System {
  WIDTH : nat;
  COUNT : nat;
  gpuCompute : GPUComputationRenderer T;
  positionUniforms : gmap string UniformValue;
  velocityUniforms : gmap string UniformValue;
  materialUniforms : gmap string UniformValue
}.

Definition initPositionUniforms : gmap string UniformValue :=
  <["emissionRadius" := UNumber (Num 0.2)]>
  (<["emissionShape" := UNumber (Num 0)]>
  (<["speedMultiplier" := UNumber (Num 1)]>
  (<["boundsMax" := UVector3 (V3 2 2 2)]>
  (<["boundsMin" := UVector3 (V3 (-2) (-2) (-2))]>
  (<["emitterPos" := UVector3 (V3 (-1) 0 0)]>
  (<["maxAge" := UNumber (Num 300)]>
  (<["delta" := UNumber (Num 0)]>
  (<["time" := UNumber (Num 0)]> ∅)))))))).

Definition initVelocityUniforms : gmap string UniformValue :=
  <["velocityField" := UNull]>
  (<["initialSpeed" := UNumber (Num 1)]>
  (<["initialDirection" := UVector3 (V3 1 0 0)]>
  (<["gridMax" := UVector3 (V3 1 1 1)]>
  (<["gridMin" := UVector3 (V3 (-1) (-1) (-1))]>
  (<["delta" := UNumber (Num 0)]>
  (<["time" := UNumber (Num 0)]> ∅)))))).

Definition initMaterialUniforms : gmap string UniformValue :=
  <["pointSize" := UNumber (Num 2)]>
  (<["textureVelocity" := UNull]>
  (<["texturePosition" := UNull]> ∅)).

(** The constructor with [initGPU] and [initParticles]; [filled] is the
    content of the render targets after [fillTextures] (random). *)
Definition constructor (filled : T) : t :=
  let width := 256%nat in
  {| WIDTH := width;
     COUNT := (width * width)%nat;
     gpuCompute := GPU width width 0 filled;
     positionUniforms := initDependencies initPositionUniforms;
     velocityUniforms := initDependencies initVelocityUniforms;
     materialUniforms := initMaterialUniforms |}.

Definition compute (g : GPUComputationRenderer T)
           (pu vu : gmap string UniformValue)
  : GPUComputationRenderer T * gmap string UniformValue
    * gmap string UniformValue :=
  let current := currentTextureIndex g in
  let next := if (current =? 0)%nat then 1%nat else 0%nat in
  let pu := bindDependencies current pu in
  let vu := bindDependencies current vu in
  (GPU (sizeX g) (sizeY g) next
       (renderPasses (sizeX g) (sizeY g) pu vu current (renderTargets g)),
   pu, vu).

(** [update(time, deltaTime)].  [this.velocityField] refers to the field
    object shared with the application: its current state is [vf]. *)
Definition update (vf : VelocityField.t) (ps : t) (time deltaTime : Q) : t :=
  match VelocityField.texture vf with
  | None => ps
  | Some tex =>
      let pu := <["delta" := UNumber (Num deltaTime)]>
                (<["time" := UNumber (Num time)]> (positionUniforms ps)) in
      let vu := <["velocityField" := UField tex]>
                (<["delta" := UNumber (Num deltaTime)]>
                (<["time" := UNumber (Num time)]> (velocityUniforms ps))) in
      let '(g, pu, vu) := compute (gpuCompute ps) pu vu in
      let mu := <["textureVelocity" :=
                    UTarget "textureVelocity" (currentTextureIndex g)]>
                (<["texturePosition" :=
                    UTarget "texturePosition" (currentTextureIndex g)]>
                (materialUniforms ps)) in
      {| WIDTH := WIDTH ps; COUNT := COUNT ps; gpuCompute := g;
         positionUniforms := pu; velocityUniforms := vu;
         materialUniforms := mu |}
  end.

Definition setPositionUniform (k : string) (v : UniformValue) (ps : t) : t :=
  {| WIDTH := WIDTH ps; COUNT := COUNT ps; gpuCompute := gpuCompute ps;
     positionUniforms := <[k := v]> (positionUniforms ps);
     velocityUniforms := velocityUniforms ps;
     materialUniforms := materialUniforms ps |}.

(** [updateParams(params)], statement by statement. *)
Definition updateParams (ps : t) (params : Params) : t :=
  let ps := match p_emitterPos params with
            | Some v => setPositionUniform "emitterPos" (UVector3 v) ps
            | None => ps
            end in
  let ps := match p_lifespan params with
            | Some n => if truthyNumber n
                        then setPositionUniform "maxAge" (UNumber n) ps
                        else ps
            | None => ps
            end in
  let ps := match p_speedMultiplier params with
            | Some n => if truthyNumber n
                        then setPositionUniform "speedMultiplier" (UNumber n) ps
                        else ps
            | None => ps
            end in
  let ps := if truthy (p_emissionRate params) then ps else ps in
  let ps := match p_emissionShape params with
            | Some n => setPositionUniform "emissionShape" (UNumber n) ps
            | None => ps
            end in
  let ps := match p_emissionRadius params with
            | Some n => setPositionUniform "emissionRadius" (UNumber n) ps
            | None => ps
            end in
  ps.

(** The operations a running application performs on the system. *)
Inductive Op : Type :=
| OpUpdate (vf : VelocityField.t) (time deltaTime : Q)
| OpUpdateParams (params : Params).

Definition step (ps : t) (o : Op) : t :=
  match o with
  | OpUpdate vf time dt => update vf ps time dt
  | OpUpdateParams params => updateParams ps params
  end.

Definition run (ps : t) (ops : list Op) : t := fold_left step ops ps.

End WithGPU.
End ParticleSystem.

(** ** ParticleSystem, plane-emitter variant (src/unnamed/part_000) *)

Module PlaneParticleSystem.
Section WithGPU.

Variable T : Type.
Variable renderPasses :
  nat -> nat -> gmap string UniformValue -> gmap string UniformValue ->
  nat -> T -> T.

Record t : Type := System {
  WIDTH : nat;
  COUNT : nat;
  gpuCompute : GPUComputationRenderer T;
  positionUniforms : gmap string UniformValue;
  velocityUniforms : gmap string UniformValue;
  materialUniforms : gmap string UniformValue;
  emitterWidth : Q;
  emitterHeight : Q;
  emitterPosX : Q;
  emitterPosY : Q;
  emitterPosZ : Q
}.

Definition initPositionUniforms (ex ey ez w h : Q)
  : gmap string UniformValue :=
  <["speedMultiplier" := UNumber (Num 2)]>
  (<["boundsMax" := UVector3 (V3 5 5 5)]>
  (<["boundsMin" := UVector3 (V3 (-5) (-5) (-5))]>
  (<["emitterHeight" := UNumber (Num h)]>
  (<["emitterWidth" := UNumber (Num w)]>
  (<["emitterPos" := UVector3 (V3 ex ey ez)]>
  (<["maxAge" := UNumber (Num 500)]>
  (<["delta" := UNumber (Num 0)]>
  (<["time" := UNumber (Num 0)]> ∅)))))))).

Definition initVelocityUniforms : gmap string UniformValue :=
  <["dragCoefficient" := UNumber (Num 0.85)]>
  (<["velocityField" := UNull]>
  (<["initialSpeed" := UNumber (Num 0.5)]>
  (<["initialDirection" := UVector3 (V3 1 0 0)]>
  (<["gridMax" := UVector3 (V3 1 1 1)]>
  (<["gridMin" := UVector3 (V3 (-1) (-1) (-1))]>
  (<["delta" := UNumber (Num 0)]>
  (<["time" := UNumber (Num 0)]> ∅))))))).

Definition initMaterialUniforms : gmap string UniformValue :=
  <["pointSize" := UNumber (Num 1.5)]>
  (<["textureVelocity" := UNull]>
  (<["texturePosition" := UNull]> ∅)).

Definition constructor (filled : T) : t :=
  let width := 128%nat in
  {| WIDTH := width;
     COUNT := (width * width)%nat;
     gpuCompute := GPU width width 0 filled;
     positionUniforms :=
       initDependencies (initPositionUniforms (-2) 0 0 1.5 1.5);
     velocityUniforms := initDependencies initVelocityUniforms;
     materialUniforms := initMaterialUniforms;
     emitterWidth := 1.5;
     emitterHeight := 1.5;
     emitterPosX := -2;
     emitterPosY := 0;
     emitterPosZ := 0 |}.

Definition compute (g : GPUComputationRenderer T)
           (pu vu : gmap string UniformValue)
  : GPUComputationRenderer T * gmap string UniformValue
    * gmap string UniformValue :=
  let current := currentTextureIndex g in
  let next := if (current =? 0)%nat then 1%nat else 0%nat in
  let pu := bindDependencies current pu in
  let vu := bindDependencies current vu in
  (GPU (sizeX g) (sizeY g) next
       (renderPasses (sizeX g) (sizeY g) pu vu current (renderTargets g)),
   pu, vu).

Definition withUniforms (ps : t) (g : GPUComputationRenderer T)
           (pu vu mu : gmap string UniformValue) : t :=
  {| WIDTH := WIDTH ps; COUNT := COUNT ps; gpuCompute := g;
     positionUniforms := pu; velocityUniforms := vu;
     materialUniforms := mu;
     emitterWidth := emitterWidth ps; emitterHeight := emitterHeight ps;
     emitterPosX := emitterPosX ps; emitterPosY := emitterPosY ps;
     emitterPosZ := emitterPosZ ps |}.

Definition update (vf : VelocityField.t) (ps : t) (time deltaTime : Q) : t :=
  match VelocityField.texture vf with
  | None => ps
  | Some tex =>
      let pu := <["delta" := UNumber (Num deltaTime)]>
                (<["time" := UNumber (Num time)]> (positionUniforms ps)) in
      let vu := <["velocityField" := UField tex]>
                (<["delta" := UNumber (Num deltaTime)]>
                (<["time" := UNumber (Num time)]> (velocityUniforms ps))) in
      let '(g, pu, vu) := compute (gpuCompute ps) pu vu in
      let mu := <["textureVelocity" :=
                    UTarget "textureVelocity" (currentTextureIndex g)]>
                (<["texturePosition" :=
                    UTarget "texturePosition" (currentTextureIndex g)]>
                (materialUniforms ps)) in
      withUniforms ps g pu vu mu
  end.

Definition setPositionUniform (k : string) (v : UniformValue) (ps : t) : t :=
  withUniforms ps (gpuCompute ps) (<[k := v]> (positionUniforms ps))
               (velocityUniforms ps) (materialUniforms ps).

Definition setEmitterFields (v : Vector3) (ps : t) : t :=
  {| WIDTH := WIDTH ps; COUNT := COUNT ps; gpuCompute := gpuCompute ps;
     positionUniforms := positionUniforms ps;
     velocityUniforms := velocityUniforms ps;
     materialUniforms := materialUniforms ps;
     emitterWidth := emitterWidth ps; emitterHeight := emitterHeight ps;
     emitterPosX := vx v; emitterPosY := vy v; emitterPosZ := vz v |}.

Definition setIfTruthy (k : string) (p : option JSNumber) (ps : t) : t :=
  match p with
  | Some n => if truthyNumber n then setPositionUniform k (UNumber n) ps
              else ps
  | None => ps
  end.

Definition updateParams (ps : t) (params : Params) : t :=
  let ps := match p_emitterPos params with
            | Some v =>
                setEmitterFields v
                  (setPositionUniform "emitterPos" (UVector3 v) ps)
            | None => ps
            end in
  let ps := setIfTruthy "maxAge" (p_lifespan params) ps in
  let ps := setIfTruthy "speedMultiplier" (p_speedMultiplier params) ps in
  let ps := setIfTruthy "emitterWidth" (p_emitterWidth params) ps in
  let ps := setIfTruthy "emitterHeight" (p_emitterHeight params) ps in
  ps.

Inductive Op : Type :=
| OpUpdate (vf : VelocityField.t) (time deltaTime : Q)
| OpUpdateParams (params : Params).

Definition step (ps : t) (o : Op) : t :=
  match o with
  | OpUpdate vf time dt => update vf ps time dt
  | OpUpdateParams params => updateParams ps params
  end.

Definition run (ps : t) (ops : list Op) : t := fold_left step ops ps.

End WithGPU.
End PlaneParticleSystem.

(** ** OBJLoader (src/OBJLoader.js) *)

Module OBJLoader.

(** A JavaScript [Error], by its message. *)
Inductive JSError : Type := Error (message : string).

(** The object hierarchy the parser returns.  A node is a mesh with its
    geometry ([Some g]) or any other object ([None]: a group, points or
    line segments). *)
Inductive Object3D : Type :=
| Node (name : string) (mesh : option BufferGeometry)
       (children : list Object3D).

(** [Object3D.traverse]: the callback on the node, then on every child
    from left to right. *)
Fixpoint traverse {S : Type}
         (callback : string -> option BufferGeometry -> S -> S)
         (o : Object3D) (s : S) : S :=
  match o with
  | Node name mesh children =>
      fold_left (fun acc c => traverse callback c acc) children
                (callback name mesh s)
  end.

(** What stays in the scene: the loader's meshes and anything else
    (lights, the particle object). *)
Inductive SceneChild : Type :=
| ChildMesh (m : Mesh)
| ChildOther (name : string).

Definition isMeshWithId (id : nat) (c : SceneChild) : bool :=
  match c with
  | ChildMesh m => (mesh_id m =? id)%nat
  | ChildOther _ => false
  end.

(** [disposed] lists the meshes whose resources were disposed;
    [nextObjectId] is the serial number of the next constructed mesh. *)
Record t : Type := Loader {
  scene : list SceneChild;
  currentMesh : option Mesh;
  debug : bool;
  loadId : nat;
  disposed : list nat;
  nextObjectId : nat
}.

Definition new (scene0 : list SceneChild) : t :=
  Loader scene0 None true 0 [] 0.

(** The outcome of a method that may throw. *)
Inductive Outcome : Type :=
| Normal
| Throw (e : JSError).

(** The traversal state of [processObject]:
    [geometry], [meshCount], [childCount]. *)
Definition visit (name : string) (mesh : option BufferGeometry)
           (s : option BufferGeometry * nat * nat)
  : option BufferGeometry * nat * nat :=
  let '(geo, meshCount, childCount) := s in
  let childCount := S childCount in
  match mesh with
  | Some g =>
      let meshCount := S meshCount in
      match geo with
      | None => (Some g, meshCount, childCount)
      | Some _ => (geo, meshCount, childCount)
      end
  | None => (geo, meshCount, childCount)
  end.

Definition maxDim (size : Vector3) : Q :=
  Qmax (Qmax (vx size) (vy size)) (vz size).

(** [normalizeGeometry].  The geometry is mutated in place, so the result
    carries the geometry as it is when the method returns or throws.
    [scale = 1.0 / maxDim] fails [isFinite] exactly when [maxDim] is zero. *)
Definition normalizeGeometry (g : BufferGeometry)
  : BufferGeometry * Outcome :=
  let g := computeBoundingBox g in
  match boundingBox g with
  | None => (g, Throw (Error "Could not compute bounding box"))
  | Some bbox =>
      let center := getCenter bbox in
      let g := translate g (- vx center) (- vy center) (- vz center) in
      let g := computeBoundingBox g in
      match boundingBox g with
      | None =>
          (g, Throw (Error "Cannot read properties of null (reading 'getSize')"))
      | Some bbox2 =>
          let size := getSize bbox2 in
          let m := maxDim size in
          if Qeq_bool m 0
          then (g, Throw (Error "Invalid scale factor computed"))
          else
            let s := 1 / m in
            (scale g s s s, Normal)
      end
  end.

(** [setMesh]: drop and dispose the previous mesh, install the new one
    and give it its hidden wireframe child. *)
Definition setMesh (st : t) (mesh : Mesh) : t :=
  let '(scene1, disposed1) :=
    match currentMesh st with
    | Some old =>
        (filter (fun c => negb (isMeshWithId (mesh_id old) c)) (scene st),
         disposed st ++ [mesh_id old])
    | None => (scene st, disposed st)
    end in
  let mesh := MkMesh (mesh_id mesh) (geometry mesh) (mesh_visible mesh)
                     (mesh_children mesh ++ ["wireframe"]) in
  Loader (scene1 ++ [ChildMesh mesh]) (Some mesh) (debug st) (loadId st)
         disposed1 (nextObjectId st).

(** [new THREE.Mesh(geometry, material)]. *)
Definition newMesh (st : t) (g : BufferGeometry) : t * Mesh :=
  (Loader (scene st) (currentMesh st) (debug st) (loadId st) (disposed st)
          (S (nextObjectId st)),
   MkMesh (nextObjectId st) (Some g) true []).

Definition processObject (st : t) (object : Object3D) : t * Outcome :=
  let '(geo, _, _) := traverse visit object (None, 0%nat, 0%nat) in
  match geo with
  | None => (st, Throw (Error "No mesh found in OBJ file"))
  | Some g =>
      match normalizeGeometry g with
      | (_, Throw e) => (st, Throw e)
      | (g, Normal) =>
          let '(st, mesh) := newMesh st g in
          (setMesh st mesh, Normal)
      end
  end.

(** [createDefaultSphere]; [sphere] is the sphere geometry. *)
Definition createDefaultSphere (st : t) (sphere : BufferGeometry) : t * Mesh :=
  let '(st, mesh) := newMesh st sphere in
  let st := setMesh st mesh in
  (st, mesh).

(** How the [FileReader] finishes. *)
Inductive ReadEvent : Type :=
| OnLoad (text : string)
| OnError (err : JSError).

(** How the promise settles. *)
Inductive Settled : Type :=
| Resolved (mesh : option Mesh)
| Rejected (err : JSError).

Section Load.

(** [THREE.OBJLoader.parse]: the hierarchy, or the error it throws. *)
Variable parse : string -> JSError + Object3D.

Definition bumpLoadId (st : t) : t :=
  Loader (scene st) (currentMesh st) (debug st) (S (loadId st))
         (disposed st) (nextObjectId st).

(** [loadFromFile(file)] together with the reader event that follows. *)
Definition loadFromFile (st : t) (ev : ReadEvent) : t * Settled :=
  let st := bumpLoadId st in
  match ev with
  | OnError err => (st, Rejected err)
  | OnLoad text =>
      match parse text with
      | inl err => (st, Rejected err)
      | inr object =>
          match processObject st object with
          | (st, Throw err) => (st, Rejected err)
          | (st, Normal) => (st, Resolved (currentMesh st))
          end
      end
  end.

End Load.
End OBJLoader.

(** ** The fragment shaders (src/shaders.js)

    The colour of a particle from its speed, and the round point shape. *)

(** GLSL [clamp]. *)
Definition clamp (x lo hi : Q) : Q := Qmin (Qmax x lo) hi.

Module PlaneFragment.

(** Blue, cyan, green, yellow, orange, red over the speed range 0 to 3. *)
Definition speedColor (vNorm : Q) : Vector3 :=
  if Qltb vNorm 0.2 then
    mix (V3 0 0 1) (V3 0 1 1) (vNorm / 0.2)
  else if Qltb vNorm 0.4 then
    mix (V3 0 1 1) (V3 0 1 0) ((vNorm - 0.2) / 0.2)
  else if Qltb vNorm 0.6 then
    mix (V3 0 1 0) (V3 1 1 0) ((vNorm - 0.4) / 0.2)
  else if Qltb vNorm 0.8 then
    mix (V3 1 1 0) (V3 1 0.6 0) ((vNorm - 0.6) / 0.2)
  else
    mix (V3 1 0.6 0) (V3 1 0 0) ((vNorm - 0.8) / 0.2).

Section Main.

Variable length3 : Vector3 -> Q.
Variable length2 : Vector2 -> Q.

(** [main]; [None] is a discarded fragment. *)
Definition particleFragmentShader (vVelocity : Vector3) (vAge : Q)
           (pointCoord : Vector2) : option Vector4 :=
  let vMag := length3 vVelocity in
  let vNorm := clamp (vMag / 3) 0 1 in
  let color := speedColor vNorm in
  let coord := V2 (ux pointCoord - 0.5) (uy pointCoord - 0.5) in
  if Qgtb (length2 coord) 0.5 then None
  else Some (vec4 color 1).

End Main.
End PlaneFragment.

Module ShapeFragment.

(** Four colour bands over the speed range 0 to 2. *)
Definition speedColor (vNorm : Q) : Vector3 :=
  if Qltb vNorm 0.25 then
    mix (V3 0.13 0.59 0.95) (V3 0 0.74 0.83) (vNorm * 4)
  else if Qltb vNorm 0.5 then
    mix (V3 0 0.74 0.83) (V3 0.61 0.15 0.69) ((vNorm - 0.25) * 4)
  else if Qltb vNorm 0.75 then
    mix (V3 0.61 0.15 0.69) (V3 1 0.6 0) ((vNorm - 0.5) * 4)
  else
    mix (V3 1 0.6 0) (V3 0.96 0.26 0.21) ((vNorm - 0.75) * 4).

Section Main.

Variable length3 : Vector3 -> Q.
Variable length2 : Vector2 -> Q.

Definition particleFragmentShader (vVelocity : Vector3) (vAge : Q)
           (pointCoord : Vector2) : option Vector4 :=
  let vMag := length3 vVelocity in
  let vNorm := clamp (vMag / 2) 0 1 in
  let color := speedColor vNorm in
  let coord := V2 (ux pointCoord - 0.5) (uy pointCoord - 0.5) in
  if Qgtb (length2 coord) 0.5 then None
  else Some (vec4 color 1).

End Main.
End ShapeFragment.

(** ** Initial textures and reference coordinates of the particle systems *)

(** The four stores of one texel, [array[k + 0 .. k + 3]] with [k = 4 * j],
    into a [Float32Array]: each value is rounded to single precision by
    [fl32]. *)
Definition writeTexel (fl32 : Q -> Q) (j : nat) (t : Vector4) (data : list Q)
  : list Q :=
  let k := (j * 4)%nat in
  <[(k + 3)%nat := fl32 (pw t)]>
    (<[(k + 2)%nat := fl32 (pz t)]>
      (<[(k + 1)%nat := fl32 (py t)]>
        (<[(k + 0)%nat := fl32 (px t)]> data))).

(** [initParticles] of both variants: the reference coordinate of particle
    [i] is the texel column and row divided by the width.  [COUNT] is
    [WIDTH * WIDTH], as the constructor sets it. *)
Definition initParticlePositions (WIDTH : nat) : list Q :=
  let COUNT := (WIDTH * WIDTH)%nat in
  for_upto COUNT (fun i positions =>
    let i3 := (i * 3)%nat in
    let x := inject_Z (Z.of_nat (i mod WIDTH)) / inject_Z (Z.of_nat WIDTH) in
    let y := inject_Z (Z.of_nat (i / WIDTH)) / inject_Z (Z.of_nat WIDTH) in
    <[(i3 + 2)%nat := 0]>
      (<[(i3 + 1)%nat := y]>
        (<[(i3 + 0)%nat := x]> positions)))
    (Float32Array (COUNT * 3)).

Module FillTextures.
Section Random.

(** [random n] is the value of the [n]-th call of [Math.random] made by
    [fillTextures], counting from 0; [fl64] rounds to a double and [fl32]
    to single precision. *)
Variable random : nat -> Q.
Variable fl64 : Q -> Q.
Variable fl32 : Q -> Q.



(** The plane-emitter variant: the particles start on the emitter patch, in
    the rows and columns of the texture, with velocity (1, 0, 0).
    [Math.floor(particleIndex / WIDTH)] is the integer quotient. *)
Definition fillPositionPlane (WIDTH : nat)
           (emitterPosX emitterPosY emitterPosZ : Q)
           (emitterWidth emitterHeight : Q) (texels : nat) : list Q :=
  for_upto texels (fun particleIndex posArray =>
    let u := fl64 (inject_Z (Z.of_nat (particleIndex mod WIDTH))
                   / inject_Z (Z.of_nat WIDTH)) in
    let v := fl64 (inject_Z (Z.of_nat (particleIndex / WIDTH))
                   / inject_Z (Z.of_nat WIDTH)) in
    let x := emitterPosX in
    let y := fl64 (emitterPosY + fl64 (fl64 (v - 0.5) * emitterHeight)) in
    let z := fl64 (emitterPosZ + fl64 (fl64 (u - 0.5) * emitterWidth)) in
    writeTexel fl32 particleIndex
               (V4 x y z (fl64 (random particleIndex * 50))) posArray)
    (Float32Array (texels * 4)).

Definition fillVelocityPlane (texels : nat) : list Q :=
  for_upto texels (fun j velArray => writeTexel fl32 j (V4 1 0 0 0) velArray)
    (Float32Array (texels * 4)).

End Random.
End FillTextures.

(** ** More of OBJLoader (src/OBJLoader.js) *)

Module OBJLoaderOps.
Import OBJLoader.

Definition setVisible (visible : bool) (m : Mesh) : Mesh :=
  MkMesh (mesh_id m) (geometry m) visible (mesh_children m).

(** [toggleVisibility].  The current mesh and the scene's child are one
    object, so the flag changes in both places. *)
Definition toggleVisibility (st : t) (visible : bool) : t :=
  match currentMesh st with
  | Some m =>
      Loader (map (fun c =>
                     match c with
                     | ChildMesh c' =>
                         if (mesh_id c' =? mesh_id m)%nat
                         then ChildMesh (setVisible visible c')
                         else c
                     | ChildOther _ => c
                     end) (scene st))
             (Some (setVisible visible m)) (debug st) (loadId st)
             (disposed st) (nextObjectId st)
  | None => st
  end.

(** [setDebug]. *)
Definition setDebug (st : t) (enabled : bool) : t :=
  Loader (scene st) (currentMesh st) enabled (loadId st) (disposed st)
         (nextObjectId st).

(** The number of objects of a hierarchy ([childCount] of [processObject]). *)
Fixpoint nodeCount (o : Object3D) : nat :=
  match o with
  | Node _ _ children => S (list_sum (map nodeCount children))
  end.

(** The operations on a loader. *)
Inductive Op : Type :=
| OpLoad (ev : ReadEvent)
| OpDefaultSphere (sphere : BufferGeometry)
| OpToggleVisibility (visible : bool)
| OpSetDebug (enabled : bool).

Section Run.

Variable parse : string -> JSError + Object3D.

Definition step (st : t) (o : Op) : t :=
  match o with
  | OpLoad ev => (loadFromFile parse st ev).1
  | OpDefaultSphere sphere => (createDefaultSphere st sphere).1
  | OpToggleVisibility visible => toggleVisibility st visible
  | OpSetDebug enabled => setDebug st enabled
  end.

Definition run (st : t) (ops : list Op) : t := fold_left step ops st.

End Run.
End OBJLoaderOps.

(** ** The application (src/main.js, class App)

    The handlers of the application as transitions of its state.  The values
    a handler reads from the page are the arguments of its event: [res] is
    [parseInt] of the chosen grid resolution (or of the default 64) and
    [method] the chosen flow method (or 'potential').  A file load is one
    transition: nothing but the load counter changes before the reader
    finishes, and the handler of the promise runs right after it settles. *)

Module App.
Section WithPrimitives.

Variable intersectObject : Mesh -> Vector3 -> Vector3 -> list Q.
Variable sqrt : Q -> Q.
Variable T : Type.
Variable renderPasses :
  nat -> nat -> gmap string UniformValue -> gmap string UniformValue ->
  nat -> T -> T.
Variable parse : string -> OBJLoader.JSError + OBJLoader.Object3D.

Record t : Type := MkApp {
  objLoader : OBJLoader.t;
  velocityField : VelocityField.t;
  particleSystem : ParticleSystem.t T;
  lastTime : Q
}.

(** [regenerateField(mesh)]. *)
Definition regenerateField (app : t) (mesh : option Mesh) (res : nat)
           (method : string) : t :=
  MkApp (objLoader app)
        (VelocityField.generate intersectObject sqrt (velocityField app)
                                mesh res method)
        (particleSystem app) (lastTime app).

(** The object [updateParticles] hands to [updateParams]: the source
    position, the lifespan, the speed multiplier and the emission rate. *)
Definition particleParams (x y z : Q) (rate life speed : JSNumber) : Params :=
  {| p_emitterPos := Some (V3 x y z);
     p_lifespan := Some life;
     p_speedMultiplier := Some speed;
     p_emissionRate := Some rate;
     p_emissionShape := None;
     p_emissionRadius := None;
     p_emitterWidth := None;
     p_emitterHeight := None |}.

Definition updateParticles (app : t) (x y z : Q) (rate life speed : JSNumber)
  : t :=
  MkApp (objLoader app) (velocityField app)
        (ParticleSystem.updateParams
           T (particleSystem app) (particleParams x y z rate life speed))
        (lastTime app).

(** [animate(time)]. *)
Definition animate (app : t) (time : Q) : t :=
  let deltaTime := (time - lastTime app) / 1000 in
  MkApp (objLoader app) (velocityField app)
        (ParticleSystem.update T renderPasses (velocityField app)
                               (particleSystem app) (time / 1000) deltaTime)
        time.

(** The handler of the file input with the reader event that follows:
    the field is regenerated when the promise resolves. *)
Definition fileChosen (app : t) (ev : OBJLoader.ReadEvent) (res : nat)
           (method : string) : t :=
  let '(loader, settled) := OBJLoader.loadFromFile parse (objLoader app) ev in
  let app := MkApp loader (velocityField app) (particleSystem app)
                   (lastTime app) in
  match settled with
  | OBJLoader.Resolved mesh => regenerateField app mesh res method
  | OBJLoader.Rejected _ => app
  end.

(** [updateField]: the field for the loader's current mesh. *)
Definition updateField (app : t) (res : nat) (method : string) : t :=
  regenerateField app (OBJLoader.currentMesh (objLoader app)) res method.

Definition toggleVisibility (app : t) (visible : bool) : t :=
  MkApp (OBJLoaderOps.toggleVisibility (objLoader app) visible)
        (velocityField app) (particleSystem app) (lastTime app).

(** The scene as the scene manager and the particle system leave it: two
    lights and the particle object. *)
Definition initialScene : list OBJLoader.SceneChild :=
  [OBJLoader.ChildOther "directionalLight";
   OBJLoader.ChildOther "ambientLight";
   OBJLoader.ChildOther "particles"].

(** The constructor: the default sphere, its field, and the first
    [updateParticles] that [setupUI] ends with.  The mesh
    [createDefaultSphere] returns is the object it made the loader's
    current mesh. *)
Definition constructor (filled : T) (sphere : BufferGeometry) (res : nat)
           (method : string) (x y z : Q) (rate life speed : JSNumber) : t :=
  let loader :=
    (OBJLoader.createDefaultSphere (OBJLoader.new initialScene) sphere).1 in
  let mesh := OBJLoader.currentMesh loader in
  let app := MkApp loader VelocityField.new
                   (ParticleSystem.constructor T filled) 0 in
  let app := regenerateField app mesh res method in
  updateParticles app x y z rate life speed.

Inductive Event : Type :=
| Animate (time : Q)
| UpdateParticles (x y z : Q) (rate life speed : JSNumber)
| UpdateField (res : nat) (method : string)
| FileChosen (ev : OBJLoader.ReadEvent) (res : nat) (method : string)
| ToggleVisibility (visible : bool).

Definition step (app : t) (e : Event) : t :=
  match e with
  | Animate time => animate app time
  | UpdateParticles x y z rate life speed =>
      updateParticles app x y z rate life speed
  | UpdateField res method => updateField app res method
  | FileChosen ev res method => fileChosen app ev res method
  | ToggleVisibility visible => toggleVisibility app visible
  end.

Definition run (app : t) (events : list Event) : t :=
  fold_left step events app.

End WithPrimitives.
End App.

(** ** Floating-point arithmetic

    The definitions above compute with exact rationals.  The program
    computes with IEEE numbers: JavaScript with doubles, a [Float32Array]
    store and the GPU with single precision, and every operation returns the
    rounded exact result.  The definitions below repeat the code whose
    branches depend on a computed value with the rounding written out:
    [fl (a + b)] is a rounded addition, [fl c] the value of a decimal literal
    [c].  Literals that are exact in every binary format (0, 1, 2, 0.5, 1.5,
    60) are written as they are.  A finite number is the rational it denotes;
    overflow to an infinity is not modelled, a division by zero is [None] as
    before.  At the rounding [exact] each definition is the one above. *)

Definition exact (q : Q) : Q := q.

(** Rounding to nearest, ties to even, in the binary format with [prec]
    significant bits whose least subnormal is [2 ^ emin]. *)
Definition pow2 (e : Z) : Q := 2 ^ e.

(** The [e] with [2 ^ e <= a < 2 ^ (e + 1)], for a positive [a]. *)
Definition floorLog2 (a : Q) : Z :=
  let c := (Z.log2 (Qnum a) - Z.log2 (Z.pos (Qden a)))%Z in
  if Qle_bool (pow2 c) a then c else (c - 1)%Z.

Definition nearestEven (s : Q) : Z :=
  let f := Qfloor s in
  match Qcompare (s - inject_Z f) (1 # 2) with
  | Lt => f
  | Gt => (f + 1)%Z
  | Eq => if Z.even f then f else (f + 1)%Z
  end.

(** The nearest multiple of [2 ^ k]. *)
Definition roundGrid (k : Z) (a : Q) : Q :=
  inject_Z (nearestEven (a / pow2 k)) * pow2 k.

Definition ulpExponent (prec emin : Z) (a : Q) : Z :=
  Z.max (floorLog2 a - (prec - 1)) emin.

Definition roundPositive (prec emin : Z) (a : Q) : Q :=
  roundGrid (ulpExponent prec emin a) a.

Definition roundNearestEven (prec emin : Z) (q : Q) : Q :=
  match Qnum q with
  | Z0 => 0
  | Z.pos _ => Qred (roundPositive prec emin q)
  | Z.neg _ => Qred (- roundPositive prec emin (- q))
  end.

(** A JavaScript number and an element of a [Float32Array]. *)
Definition binary64 : Q -> Q := roundNearestEven 53 (-1074).
Definition binary32 : Q -> Q := roundNearestEven 24 (-149).

(** What the proofs ask of a rounding. *)
Definition nondecreasing (f : Q -> Q) : Prop :=
  forall a b, a <= b -> f a <= f b.

Definition exactOn (f : Q -> Q) (l : list Q) : Prop :=
  Forall (fun q => f q == q) l.

Module Rounded.
Section Operations.

Variable fl : Q -> Q.

Definition subVectors (a b : Vector3) : Vector3 :=
  V3 (fl (vx a - vx b)) (fl (vy a - vy b)) (fl (vz a - vz b)).

Definition addVectors (a b : Vector3) : Vector3 :=
  V3 (fl (vx a + vx b)) (fl (vy a + vy b)) (fl (vz a + vz b)).

Definition multiplyScalar (v : Vector3) (s : Q) : Vector3 :=
  V3 (fl (vx v * s)) (fl (vy v * s)) (fl (vz v * s)).

Definition divideScalar (v : Vector3) (s : Q) : Vector3 :=
  multiplyScalar v (fl (1 / s)).

(** GLSL [fract], [dot] on vec2 and [mix]. *)
Definition fract (x : Q) : Q := fl (x - inject_Z (Qfloor x)).

Definition dot2 (a b : Vector2) : Q :=
  fl (fl (ux a * ux b) + fl (uy a * uy b)).

Definition mix (a b : Vector3) (t : Q) : Vector3 :=
  V3 (fl (fl (vx a * fl (1 - t)) + fl (vx b * t)))
     (fl (fl (vy a * fl (1 - t)) + fl (vy b * t)))
     (fl (fl (vz a * fl (1 - t)) + fl (vz b * t))).

(** [texCoord = (pos - gridMin) / (gridMax - gridMin)]; a computed divisor
    of zero gives a coordinate that is not finite: [None]. *)
Definition texCoord (pos gridMin gridMax : Vector3) : option Vector3 :=
  let d := subVectors gridMax gridMin in
  if Qeq_bool (vx d) 0 || Qeq_bool (vy d) 0 || Qeq_bool (vz d) 0 then None
  else Some (V3 (fl (fl (vx pos - vx gridMin) / vx d))
                (fl (fl (vy pos - vy gridMin) / vy d))
                (fl (fl (vz pos - vz gridMin) / vz d))).

Section GLSL.

Variable sin : Q -> Q.

Definition rand (co : Vector2) : Q :=
  fract (fl (sin (dot2 co (V2 (fl 12.9898) (fl 78.233))) * fl 43758.5453)).

Definition addScalar2 (v : Vector2) (s : Q) : Vector2 :=
  V2 (fl (ux v + s)) (fl (uy v + s)).

(** [pos += vel * delta * speedMultiplier; age += delta * 60.0]. *)
Definition advance (pos vel : Vector3) (delta speedMultiplier : Q) : Vector3 :=
  V3 (fl (vx pos + fl (fl (vx vel * delta) * speedMultiplier)))
     (fl (vy pos + fl (fl (vy vel * delta) * speedMultiplier)))
     (fl (vz pos + fl (fl (vz vel * delta) * speedMultiplier))).

Definition advanceAge (age delta : Q) : Q := fl (age + fl (delta * 60)).

End GLSL.
End Operations.
End Rounded.

(** *** VelocityField.generate as computed (src/main.js)

    Doubles, and a store into the [Float32Array] of the field. *)

Module RoundedField.
Section Generate.

Variable fl64 : Q -> Q.
Variable fl32 : Q -> Q.
Variable intersectObject : Mesh -> Vector3 -> Vector3 -> list Q.
(** [Math.sqrt] on doubles. *)
Variable sqrt : Q -> Q.

Definition boxMin : Vector3 := VelocityField.boxMin.
Definition boxMax : Vector3 := VelocityField.boxMax.
Definition boxSize : Vector3 := Rounded.subVectors fl64 boxMax boxMin.

(** [step = boxSize / (resolution - 1)]: infinite when the divisor is 0. *)
Definition gridStep (resolution : nat) : option Vector3 :=
  let divisor := fl64 (inject_Z (Z.of_nat resolution) - 1) in
  if Qeq_bool divisor 0 then None
  else Some (Rounded.divideScalar fl64 boxSize divisor).

Definition gridPoint (resolution x y z : nat) : option Vector3 :=
  match gridStep resolution with
  | None => None
  | Some st =>
      Some (V3 (fl64 (vx boxMin + fl64 (inject_Z (Z.of_nat x) * vx st)))
               (fl64 (vy boxMin + fl64 (inject_Z (Z.of_nat y) * vy st)))
               (fl64 (vz boxMin + fl64 (inject_Z (Z.of_nat z) * vz st))))
  end.

(** [Math.sqrt(x * x + y * y + z * z)] and
    [divideScalar(this.length() || 1)]. *)
Definition vlength (v : Vector3) : Q :=
  sqrt (fl64 (fl64 (fl64 (vx v * vx v) + fl64 (vy v * vy v))
              + fl64 (vz v * vz v))).

Definition normalize (v : Vector3) : Vector3 :=
  let l := vlength v in
  Rounded.divideScalar fl64 v (if Qeq_bool l 0 then 1 else l).

(** The literal [0.1] is the double nearest to one tenth. *)
Definition flowVelocity (method : string) (pos : option Vector3) : Vector3 :=
  if String.eqb method "potential" then V3 (fl64 (0 + 1)) 0 0
  else if String.eqb method "radial" then
    match pos with
    | None => vzero
    | Some r =>
        if Qgtb (vlength r) (fl64 (1 # 10)) then normalize r else vzero
    end
  else vzero.

Definition cellVelocity (method : string) (mesh : option Mesh)
           (pos : option Vector3) : Vector3 :=
  if VelocityField.cellInside intersectObject mesh pos then vzero
  else flowVelocity method pos.

(** The four stores of the loop body, each into the [Float32Array]. *)
Definition writeCell (resolution : nat) (method : string)
           (mesh : option Mesh) (z y x : nat) (data : list Q) : list Q :=
  let i := VelocityField.cellIndex resolution x y z in
  let stride := (i * 4)%nat in
  let v := cellVelocity method mesh (gridPoint resolution x y z) in
  <[(stride + 3)%nat := fl32 0]>
    (<[(stride + 2)%nat := fl32 (vz v)]>
      (<[(stride + 1)%nat := fl32 (vy v)]>
        (<[stride := fl32 (vx v)]> data))).

Definition generateData (resolution : nat) (method : string)
           (mesh : option Mesh) : list Q :=
  let size := (resolution * resolution * resolution)%nat in
  for_upto resolution (fun z =>
    for_upto resolution (fun y =>
      for_upto resolution (fun x =>
        writeCell resolution method mesh z y x)))
    (Float32Array (size * 4)).

Definition generate (_ : VelocityField.t) (mesh : option Mesh) (res : nat)
           (method : string) : VelocityField.t :=
  let d := generateData res method mesh in
  VelocityField.Field res (Some d)
                      (Some (VelocityField.Texture3D d res res res)).

End Generate.
End RoundedField.

(** *** The compute passes as computed (src/shaders.js)

    Single precision on the GPU.  The uniforms are the values the shader
    receives. *)

Module RoundedPlaneShaders.
Section Passes.

Variable fl : Q -> Q.
Variable sin : Q -> Q.
Variable normalize3 : Vector3 -> Vector3.
Variable texture3D : Vector3 -> Vector4.

Definition myMaxAge (U : PlaneShaders.PositionUniforms) (uv : Vector2) : Q :=
  fl (PlaneShaders.maxAge U
      * fl (fl 0.9 + fl (fl 0.1 * Rounded.rand fl sin uv))).

Definition respawns (U : PlaneShaders.PositionUniforms) (uv : Vector2)
           (pos : Vector3) (age : Q) : bool :=
  Qgeb age (myMaxAge U uv)
  || outOfBounds pos (PlaneShaders.boundsMin U) (PlaneShaders.boundsMax U).

Definition spawnPoint (U : PlaneShaders.PositionUniforms) (uv : Vector2)
  : Vector3 :=
  let e := PlaneShaders.emitterPos U in
  let time := PlaneShaders.time U in
  let u := ux uv in
  let v := uy uv in
  let r1 := Rounded.rand fl sin (Rounded.addScalar2 fl uv time) in
  let r2 := Rounded.rand fl sin
              (Rounded.addScalar2 fl uv (fl (time * fl 1.1))) in
  let r3 := Rounded.rand fl sin
              (Rounded.addScalar2 fl uv (fl (time * fl 1.2))) in
  let y := fl (vy e + fl (fl (v - 0.5) * PlaneShaders.emitterHeight U)) in
  let z := fl (vz e + fl (fl (u - 0.5) * PlaneShaders.emitterWidth U)) in
  V3 (fl (vx e + fl (r1 * fl 0.05)))
     (fl (y + fl (r2 * fl 0.01)))
     (fl (z + fl (r3 * fl 0.01))).

Definition particleComputeShaderPosition
           (U : PlaneShaders.PositionUniforms)
           (uv : Vector2) (posData velData : Vector4) : Vector4 :=
  let pos := xyz posData in
  let age := pw posData in
  let vel := xyz velData in
  let pos := Rounded.advance fl pos vel (PlaneShaders.delta U)
                             (PlaneShaders.speedMultiplier U) in
  let age := Rounded.advanceAge fl age (PlaneShaders.delta U) in
  if respawns U uv pos age
  then vec4 (spawnPoint U uv) 0
  else vec4 pos age.

(** [age <= delta * 60.0 * 2.0] *)
Definition newlySpawned (U : PlaneShaders.VelocityUniforms) (age : Q) : bool :=
  Qle_bool age (fl (fl (PlaneShaders.vdelta U * 60) * 2)).

Definition initialVelocity (U : PlaneShaders.VelocityUniforms) : Vector3 :=
  Rounded.multiplyScalar fl (normalize3 (PlaneShaders.initialDirection U))
                         (PlaneShaders.initialSpeed U).

Definition blend : Q := fl 0.3.

Definition particleComputeShaderVelocity
           (U : PlaneShaders.VelocityUniforms)
           (uv : Vector2) (posData velData : Vector4) : Vector4 :=
  let pos := xyz posData in
  let age := pw posData in
  let vel := xyz velData in
  let vel := if newlySpawned U age then initialVelocity U else vel in
  let tc := Rounded.texCoord fl pos (PlaneShaders.gridMin U)
                             (PlaneShaders.gridMax U) in
  let vel :=
    match tc with
    | Some c =>
        if insideGrid tc
        then Rounded.mix fl vel (xyz (texture3D c)) blend
        else vel
    | None => vel
    end in
  vec4 vel 0.

End Passes.
End RoundedPlaneShaders.

Module RoundedShapeShaders.
Section Passes.

Variable fl : Q -> Q.
Variable sin : Q -> Q.
Variable cos : Q -> Q.
Variable sqrt : Q -> Q.
Variable pow : Q -> Q -> Q.
Variable length3 : Vector3 -> Q.
Variable normalize3 : Vector3 -> Vector3.
Variable texture3D : Vector3 -> Vector4.

Definition myMaxAge (U : ShapeShaders.PositionUniforms) (uv : Vector2) : Q :=
  fl (ShapeShaders.maxAge U
      * fl (fl 0.8 + fl (fl 0.4 * Rounded.rand fl sin uv))).

Definition respawns (U : ShapeShaders.PositionUniforms) (uv : Vector2)
           (pos : Vector3) (age : Q) : bool :=
  Qgeb age (myMaxAge U uv)
  || outOfBounds pos (ShapeShaders.boundsMin U) (ShapeShaders.boundsMax U).

Definition spawnOffset (U : ShapeShaders.PositionUniforms) (uv : Vector2)
  : Vector3 :=
  let time := ShapeShaders.time U in
  let r1 := Rounded.rand fl sin (Rounded.addScalar2 fl uv time) in
  let r2 := Rounded.rand fl sin
              (Rounded.addScalar2 fl uv (fl (time * fl 1.1))) in
  let r3 := Rounded.rand fl sin
              (Rounded.addScalar2 fl uv (fl (time * fl 1.2))) in
  if (ShapeShaders.emissionShape U =? 0)%Z then
    Rounded.multiplyScalar fl
      (V3 (fl (r1 - 0.5)) (fl (r2 - 0.5)) (fl (r3 - 0.5))) (fl 0.01)
  else if (ShapeShaders.emissionShape U =? 1)%Z then
    let angle := fl (r1 * fl 6.28318) in
    let r := fl (sqrt r2 * ShapeShaders.emissionRadius U) in
    V3 0 (fl (r * cos angle)) (fl (r * sin angle))
  else
    let dir := V3 (fl (r1 - 0.5)) (fl (r2 - 0.5)) (fl (r3 - 0.5)) in
    let dir := if Qgtb (length3 dir) (fl 0.001) then normalize3 dir
               else dir in
    let r := fl (pow r1 (fl 0.333333) * ShapeShaders.emissionRadius U) in
    Rounded.multiplyScalar fl dir r.

Definition spawnPoint (U : ShapeShaders.PositionUniforms) (uv : Vector2)
  : Vector3 :=
  Rounded.addVectors fl (ShapeShaders.emitterPos U) (spawnOffset U uv).

Definition particleComputeShaderPosition
           (U : ShapeShaders.PositionUniforms)
           (uv : Vector2) (posData velData : Vector4) : Vector4 :=
  let pos := xyz posData in
  let age := pw posData in
  let vel := xyz velData in
  let pos := Rounded.advance fl pos vel (ShapeShaders.delta U)
                             (ShapeShaders.speedMultiplier U) in
  let age := Rounded.advanceAge fl age (ShapeShaders.delta U) in
  if respawns U uv pos age
  then vec4 (spawnPoint U uv) 0
  else vec4 pos age.

(** [age <= 0.0 || age < delta * 60.0 * 1.5] *)
Definition newlySpawned (U : ShapeShaders.VelocityUniforms) (age : Q) : bool :=
  Qle_bool age 0
  || Qltb age (fl (fl (ShapeShaders.vdelta U * 60) * 1.5)).

Definition initialVelocity (U : ShapeShaders.VelocityUniforms) : Vector3 :=
  Rounded.multiplyScalar fl (normalize3 (ShapeShaders.initialDirection U))
                         (ShapeShaders.initialSpeed U).

Definition blend : Q := fl 0.2.

Definition particleComputeShaderVelocity
           (U : ShapeShaders.VelocityUniforms)
           (uv : Vector2) (posData velData : Vector4) : Vector4 :=
  let pos := xyz posData in
  let age := pw posData in
  let vel := xyz velData in
  let vel := if newlySpawned U age then initialVelocity U else vel in
  let tc := Rounded.texCoord fl pos (ShapeShaders.gridMin U)
                             (ShapeShaders.gridMax U) in
  let vel :=
    match tc with
    | Some c =>
        if insideGrid tc
        then Rounded.mix fl vel (xyz (texture3D c)) blend
        else vel
    | None => vel
    end in
  vec4 vel 0.

End Passes.
End RoundedShapeShaders.

(** *** OBJLoader.normalizeGeometry as computed (src/OBJLoader.js)

    The box arithmetic is in doubles.  [translate] and [scale] apply a
    matrix to every vertex in doubles and store the result into the
    [Float32Array] of the position attribute.  The vertices of a loaded
    geometry are single-precision numbers, so an extent that is not zero is
    at least [2 ^ -149] and its reciprocal is finite. *)

Module RoundedLoader.
Section Normalize.

Variable fl64 : Q -> Q.
Variable fl32 : Q -> Q.

Definition getCenter (b : Box3) : Vector3 :=
  match b with
  | EmptyBox => vzero
  | Box lo hi =>
      Rounded.multiplyScalar fl64 (Rounded.addVectors fl64 lo hi) (1 # 2)
  end.

Definition getSize (b : Box3) : Vector3 :=
  match b with
  | EmptyBox => vzero
  | Box lo hi => Rounded.subVectors fl64 hi lo
  end.

Definition translate (g : BufferGeometry) (tx ty tz : Q) : BufferGeometry :=
  mapPosition (fun p => V3 (fl32 (fl64 (vx p + tx))) (fl32 (fl64 (vy p + ty)))
                           (fl32 (fl64 (vz p + tz)))) g.

Definition scale (g : BufferGeometry) (sx sy sz : Q) : BufferGeometry :=
  mapPosition (fun p => V3 (fl32 (fl64 (vx p * sx))) (fl32 (fl64 (vy p * sy)))
                           (fl32 (fl64 (vz p * sz)))) g.

Definition normalizeGeometry (g : BufferGeometry)
  : BufferGeometry * OBJLoader.Outcome :=
  let g := computeBoundingBox g in
  match boundingBox g with
  | None =>
      (g, OBJLoader.Throw (OBJLoader.Error "Could not compute bounding box"))
  | Some bbox =>
      let center := getCenter bbox in
      let g := translate g (- vx center) (- vy center) (- vz center) in
      let g := computeBoundingBox g in
      match boundingBox g with
      | None =>
          (g, OBJLoader.Throw
                (OBJLoader.Error
                   "Cannot read properties of null (reading 'getSize')"))
      | Some bbox2 =>
          let size := getSize bbox2 in
          let m := OBJLoader.maxDim size in
          if Qeq_bool m 0
          then (g, OBJLoader.Throw
                     (OBJLoader.Error "Invalid scale factor computed"))
          else
            let s := fl64 (1 / m) in
            (scale g s s s, OBJLoader.Normal)
      end
  end.

End Normalize.
End RoundedLoader.

(** ** Auxiliary notions for the proofs *)

(** A map acting on each coordinate separately, and its action on a box. *)
Definition vmap3 (fx fy fz : Q -> Q) (p : Vector3) : Vector3 :=
  V3 (fx (vx p)) (fy (vy p)) (fz (vz p)).

Definition boxMap (F : Vector3 -> Vector3) (b : Box3) : Box3 :=
  match b with
  | EmptyBox => EmptyBox
  | Box lo hi => Box (F lo) (F hi)
  end.

Definition monotone (f : Q -> Q) : Prop :=
  (forall a b, a <= b -> f a <= f b) /\ (forall a b, a < b -> f a < f b).

(** A box that is not empty has [min <= max] on every axis. *)
Definition wellFormed (b : Box3) : Prop :=
  match b with
  | EmptyBox => True
  | Box lo hi =>
      vx lo <= vx hi /\ vy lo <= vy hi /\ vz lo <= vz hi
  end.

(** The vertices after the translation step of [normalizeGeometry], and
    the largest extent of their bounding box ([maxDim] in the source). *)
Definition translated (g : BufferGeometry) : list Vector3 :=
  let c := getCenter (setFromPoints (position g)) in
  map (fun p => V3 (vx p + - vx c) (vy p + - vy c) (vz p + - vz c))
      (position g).

Definition extent (g : BufferGeometry) : Q :=
  OBJLoader.maxDim (getSize (setFromPoints (translated g))).

(** The cells of the grid in the order the triple loop of [generate] visits
    them: [z] outermost, [x] innermost. *)
Definition cells (n : nat) : list (nat * nat * nat) :=
  flat_map (fun z =>
    flat_map (fun y => map (fun x => (z, y, x)) (seq 0 n)) (seq 0 n))
    (seq 0 n).

(** Component [k] of an RGBA cell holding the velocity [v]. *)
Definition component (k : nat) (v : Vector3) : Q :=
  match k with
  | O => vx v
  | 1%nat => vy v
  | 2%nat => vz v
  | _ => 0
  end.

(** The four stores of one loop iteration: cell [i] receives [v] and 0. *)
Definition write4 (i : nat) (v : Vector3) (data : list Q) : list Q :=
  <[(i * 4 + 3)%nat := 0]>
    (<[(i * 4 + 2)%nat := vz v]>
      (<[(i * 4 + 1)%nat := vy v]>
        (<[(i * 4)%nat := vx v]> data))).

(** The RGBA cell at cell offset [i] of a data array. *)
Definition storedCell (d : list Q) (i : nat) : option Vector4 :=
  match d !! (4 * i)%nat, d !! (4 * i + 1)%nat,
        d !! (4 * i + 2)%nat, d !! (4 * i + 3)%nat with
  | Some r, Some g, Some b, Some a => Some (V4 r g b a)
  | _, _, _, _ => None
  end.

(** A point of the closed box [lo .. hi]. *)
Definition inBox (lo hi p : Vector3) : Prop :=
  vx lo <= vx p <= vx hi /\ vy lo <= vy p <= vy hi /\ vz lo <= vz p <= vz hi.

(** A grid coordinate inside the unit cube. *)
Definition inUnitCube (c : Vector3) : Prop :=
  0 <= vx c <= 1 /\ 0 <= vy c <= 1 /\ 0 <= vz c <= 1.

(** Every coordinate of [v] lies within [r] of zero. *)
Definition within (r : Q) (v : Vector3) : Prop :=
  - r <= vx v <= r /\ - r <= vy v <= r /\ - r <= vz v <= r.

(** A uniform store, if a value is given; a number only if it is truthy. *)
Definition setOpt (k : string) (o : option UniformValue)
           (m : gmap string UniformValue) : gmap string UniformValue :=
  match o with
  | Some v => <[k := v]> m
  | None => m
  end.

Definition truthyOnly (p : option JSNumber) : option UniformValue :=
  match p with
  | Some n => if truthyNumber n then Some (UNumber n) else None
  | None => None
  end.

(** [params] with its [emissionRate] key set to [r]. *)
Definition withEmissionRate (r : option JSNumber) (params : Params) : Params :=
  {| p_emitterPos := p_emitterPos params;
     p_lifespan := p_lifespan params;
     p_speedMultiplier := p_speedMultiplier params;
     p_emissionRate := r;
     p_emissionShape := p_emissionShape params;
     p_emissionRadius := p_emissionRadius params;
     p_emitterWidth := p_emitterWidth params;
     p_emitterHeight := p_emitterHeight params |}.

(** The geometries of the meshes of a hierarchy, in traversal order. *)
Fixpoint meshes (o : OBJLoader.Object3D) : list BufferGeometry :=
  match o with
  | OBJLoader.Node _ mesh children =>
      match mesh with
      | Some g => [g]
      | None => []
      end ++ flat_map meshes children
  end.

(** The first of two optional values that is present. *)
Definition orElse {A : Type} (a b : option A) : option A :=
  match a with
  | Some _ => a
  | None => b
  end.

(** A mesh argument without obstacle: no mesh, a mesh without geometry, or
    a geometry without vertices. *)
Definition noObstacle (mesh : option Mesh) : Prop :=
  match mesh with
  | None => True
  | Some m =>
      match geometry m with
      | None => True
      | Some g => position g = []
      end
  end.

(** The uniforms of both passes as [update] leaves them. *)
Definition frameUniforms (current : nat) (time deltaTime : Q)
           (u : gmap string UniformValue) : gmap string UniformValue :=
  bindDependencies current
    (<["delta" := UNumber (Num deltaTime)]>
      (<["time" := UNumber (Num time)]> u)).

Definition flipped (current : nat) : nat :=
  if (current =? 0)%nat then 1%nat else 0%nat.

(** The keys [update] stores in the position uniforms and in the velocity
    uniforms, and the keys [updateParams] of either variant may store. *)
Definition frameKeys : list string :=
  ["time"; "delta"; "texturePosition"; "textureVelocity"].
Definition velocityFrameKeys : list string :=
  ["time"; "delta"; "velocityField"; "texturePosition"; "textureVelocity"].
Definition paramKeys : list string :=
  ["emitterPos"; "maxAge"; "speedMultiplier"; "emissionShape";
   "emissionRadius"].
Definition planeParamKeys : list string :=
  ["emitterPos"; "maxAge"; "speedMultiplier"; "emitterWidth";
   "emitterHeight"].

(** An operation that is a frame update. *)
Definition isUpdate (o : ParticleSystem.Op) : Prop :=
  match o with
  | ParticleSystem.OpUpdate _ _ _ => True
  | ParticleSystem.OpUpdateParams _ => False
  end.

Definition isUpdateP (o : PlaneParticleSystem.Op) : Prop :=
  match o with
  | PlaneParticleSystem.OpUpdate _ _ _ => True
  | PlaneParticleSystem.OpUpdateParams _ => False
  end.

(** The reference coordinate of particle [i] in the vertex attribute. *)
Definition storedReference (d : list Q) (i : nat) : option Vector3 :=
  match d !! (3 * i)%nat, d !! (3 * i + 1)%nat, d !! (3 * i + 2)%nat with
  | Some x, Some y, Some z => Some (V3 x y z)
  | _, _, _ => None
  end.

(** The loader's current mesh as a list, and the loads among operations. *)
Definition currentList (st : OBJLoader.t) : list Mesh :=
  match OBJLoader.currentMesh st with
  | Some m => [m]
  | None => []
  end.

Definition isLoad (o : OBJLoaderOps.Op) : bool :=
  match o with
  | OBJLoaderOps.OpLoad _ => true
  | _ => false
  end.

(** What holds of a loader whose scene started with the objects [names]:
    the scene holds them and the current mesh, every mesh constructed so
    far is the current one or disposed, and the current mesh carries its
    wireframe. *)
Definition loaderInvariant (names : list string) (st : OBJLoader.t) : Prop :=
  OBJLoader.scene st
    = map OBJLoader.ChildOther names ++ map OBJLoader.ChildMesh (currentList st)
  /\ OBJLoader.disposed st ++ map mesh_id (currentList st)
     = seq 0 (OBJLoader.nextObjectId st)
  /\ Forall (fun m => mesh_children m = ["wireframe"]) (currentList st).

(** The time stamps of the frames among the events of the application. *)
Definition frameTimes (events : list App.Event) : list Q :=
  flat_map (fun e => match e with
                     | App.Animate time => [time]
                     | _ => []
                     end) events.

(** The source positions of the [updateParticles] calls among the events. *)
Definition sourcePositions (events : list App.Event) : list Vector3 :=
  flat_map (fun e => match e with
                     | App.UpdateParticles x y z _ _ _ => [V3 x y z]
                     | _ => []
                     end) events.

(** The field was generated for the loader's current mesh: for the same
    object with the same geometry, whatever its visibility is now. *)
Definition fieldFollowsMesh
           (intersectObject : Mesh -> Vector3 -> Vector3 -> list Q)
           (sqrt : Q -> Q) (loader : OBJLoader.t) (vf : VelocityField.t)
  : Prop :=
  exists m m0 res method,
    OBJLoader.currentMesh loader = Some m /\
    mesh_id m0 = mesh_id m /\ geometry m0 = geometry m /\
    vf = VelocityField.generate intersectObject sqrt VelocityField.new
                                (Some m0) res method.



(** Every coordinate of [v] lies between [lo] and [hi]. *)
Definition between (lo hi : Q) (v : Vector3) : Prop :=
  lo <= vx v <= hi /\ lo <= vy v <= hi /\ lo <= vz v <= hi.

(** ** Sample inputs *)

(** A [Math.random] that always returns one half, and one that always
    returns the number just below 1 that single precision cannot tell
    from 1. *)
Definition halfRandom (n : nat) : Q := 1 # 2.
Definition nearOne (n : nat) : Q := 1 - 1 / inject_Z (2 ^ 30).

(** A square root that is exact on squares of rationals in lowest terms. *)
Definition sqrtOnSquares (q : Q) : Q :=
  let r := Qred q in
  inject_Z (Z.sqrt (Qnum r)) / inject_Z (Z.sqrt (Zpos (Qden r))).

(** A segment from (0,0,0) to (2,4,6), and a triangle whose three corners
    are the same point. *)
Definition segmentGeometry : BufferGeometry :=
  Geometry [V3 0 0 0; V3 2 4 6] None.
Definition pointGeometry : BufferGeometry :=
  Geometry [V3 1 1 1; V3 1 1 1; V3 1 1 1] None.

(** A mesh whose geometry spans the cube of side 1 around the origin. *)
Definition cubeGeometry : BufferGeometry :=
  Geometry [V3 (-1#2) (-1#2) (-1#2); V3 (1#2) (1#2) (1#2)] None.
Definition cubeMesh : Mesh := MkMesh 0 (Some cubeGeometry) true [].

(** A raycaster reporting one hit from every origin inside the unit cube
    and none from elsewhere, and one that never reports a hit. *)
Definition oneHitInCube (_ : Mesh) (origin _ : Vector3) : list Q :=
  if containsPoint (Box (V3 (-1#2) (-1#2) (-1#2)) (V3 (1#2) (1#2) (1#2))) origin
  then [1#2] else [].
Definition noHit (_ : Mesh) (_ _ : Vector3) : list Q := [].

(** Stand-ins for [sin] and [normalize] on sample inputs. *)
Definition constZero (_ : Q) : Q := 0.
Definition constZero2 (_ _ : Q) : Q := 0.
Definition zeroLength (_ : Vector3) : Q := 0.
Definition zeroLength2 (_ : Vector2) : Q := 0.
Definition keepDirection (v : Vector3) : Vector3 := v.
Definition unitX (_ : Vector3) : Vector3 := V3 1 0 0.
Definition uniformFlow (_ : Vector3) : Vector4 := V4 1 0 0 0.

(** The uniforms the plane-emitter constructor installs, one frame of
    1/60 s, and the uniforms of the emission-shape constructor. *)
Definition planePositionUniforms : PlaneShaders.PositionUniforms :=
  {| PlaneShaders.time := 1; PlaneShaders.delta := 1 # 60;
     PlaneShaders.maxAge := 500;
     PlaneShaders.emitterPos := V3 (-2) 0 0;
     PlaneShaders.emitterWidth := 1.5; PlaneShaders.emitterHeight := 1.5;
     PlaneShaders.boundsMin := V3 (-5) (-5) (-5);
     PlaneShaders.boundsMax := V3 5 5 5;
     PlaneShaders.speedMultiplier := 2 |}.

Definition shapePositionUniforms : ShapeShaders.PositionUniforms :=
  {| ShapeShaders.time := 1; ShapeShaders.delta := 1 # 60;
     ShapeShaders.maxAge := 300;
     ShapeShaders.emitterPos := V3 (-1) 0 0;
     ShapeShaders.emissionRate := 0;
     ShapeShaders.boundsMin := V3 (-2) (-2) (-2);
     ShapeShaders.boundsMax := V3 2 2 2;
     ShapeShaders.speedMultiplier := 1;
     ShapeShaders.emissionShape := 0; ShapeShaders.emissionRadius := 0.2 |}.

(** The same with the disc shape selected. *)
Definition discPositionUniforms : ShapeShaders.PositionUniforms :=
  {| ShapeShaders.time := 1; ShapeShaders.delta := 1 # 60;
     ShapeShaders.maxAge := 300;
     ShapeShaders.emitterPos := V3 (-1) 0 0;
     ShapeShaders.emissionRate := 0;
     ShapeShaders.boundsMin := V3 (-2) (-2) (-2);
     ShapeShaders.boundsMax := V3 2 2 2;
     ShapeShaders.speedMultiplier := 1;
     ShapeShaders.emissionShape := 1; ShapeShaders.emissionRadius := 0.2 |}.

Definition planeVelocityUniforms : PlaneShaders.VelocityUniforms :=
  {| PlaneShaders.vtime := 1; PlaneShaders.vdelta := 1 # 60;
     PlaneShaders.gridMin := V3 (-1) (-1) (-1);
     PlaneShaders.gridMax := V3 1 1 1;
     PlaneShaders.initialDirection := V3 1 0 0;
     PlaneShaders.initialSpeed := 0.5;
     PlaneShaders.dragCoefficient := 0.85 |}.

Definition shapeVelocityUniforms : ShapeShaders.VelocityUniforms :=
  {| ShapeShaders.vtime := 1; ShapeShaders.vdelta := 1 # 60;
     ShapeShaders.gridMin := V3 (-1) (-1) (-1);
     ShapeShaders.gridMax := V3 1 1 1;
     ShapeShaders.initialDirection := V3 1 0 0;
     ShapeShaders.initialSpeed := 1 |}.

(** A render-target content that counts the compute calls drawn into it. *)
Definition countingPasses (_ _ : nat) (_ _ : gmap string UniformValue)
           (_ : nat) (drawn : nat) : nat := S drawn.

(** Parameters whose numeric keys are all present with value 0. *)
Definition zeroParams : Params :=
  {| p_emitterPos := None;
     p_lifespan := Some (Num 0); p_speedMultiplier := Some (Num 0);
     p_emissionRate := Some (Num 0);
     p_emissionShape := Some (Num 0); p_emissionRadius := Some (Num 0);
     p_emitterWidth := Some (Num 0); p_emitterHeight := Some (Num 0) |}.

(** An OBJ file with one face whose three corners are the same vertex, and
    the hierarchy the parser builds for it: a group holding one mesh. *)
Definition degenerateFile : string := "v 1 1 1
f 1 1 1
".

Definition degenerateObject : OBJLoader.Object3D :=
  OBJLoader.Node "" None [OBJLoader.Node "" (Some pointGeometry) []].

Definition segmentObject : OBJLoader.Object3D :=
  OBJLoader.Node "" None [OBJLoader.Node "" (Some segmentGeometry) []].

Definition sampleParse (text : string) : OBJLoader.JSError + OBJLoader.Object3D :=
  if String.eqb text degenerateFile then inr degenerateObject
  else if String.eqb text "" then inr (OBJLoader.Node "" None [])
  else inr segmentObject.

(** A loader that already shows a mesh in a scene with one light. *)
Definition loaderWithMesh : OBJLoader.t :=
  OBJLoader.setMesh
    (OBJLoader.Loader [OBJLoader.ChildOther "light"] None true 0 [] 1)
    (MkMesh 0 (Some cubeGeometry) true []).

(** A correctly rounded [Math.sqrt] on doubles. *)
Definition sqrt64 (q : Q) : Q :=
  match Qnum q with
  | Z.pos _ =>
      let t := (64 - floorLog2 q / 2)%Z in
      let scaled := q * pow2 (2 * t) in
      let r := Z.sqrt (Qfloor scaled) in
      let isExact := Qeq_bool (inject_Z (r * r)) scaled in
      binary64 ((inject_Z r + (if isExact then 0 else 1 # 2)) / pow2 t)
  | _ => 0
  end.


(** A particle on the upper face of the bounds box that moves outwards by
    less than the spacing of single-precision numbers there, and the
    uniforms of its frame. *)
Definition edgePositionUniforms : ShapeShaders.PositionUniforms :=
  {| ShapeShaders.time := 1; ShapeShaders.delta := 1 # 64;
     ShapeShaders.maxAge := 300;
     ShapeShaders.emitterPos := V3 (-1) 0 0;
     ShapeShaders.emissionRate := 0;
     ShapeShaders.boundsMin := V3 (-2) (-2) (-2);
     ShapeShaders.boundsMax := V3 2 2 2;
     ShapeShaders.speedMultiplier := 1;
     ShapeShaders.emissionShape := 0;
     ShapeShaders.emissionRadius := binary32 0.2 |}.

Definition edgeParticle : Vector4 := V4 2 0 0 0.
Definition slowVelocity : Vector4 := V4 (pow2 (-20)) 0 0 0.

(** A particle just outside the grid box, by less than single precision
    resolves after the subtraction of [gridMin]; a field of (5, 0, 0). *)
Definition gridVelocityUniforms : ShapeShaders.VelocityUniforms :=
  {| ShapeShaders.vtime := 1; ShapeShaders.vdelta := binary32 (1 # 60);
     ShapeShaders.gridMin := V3 (-1) (-1) (-1);
     ShapeShaders.gridMax := V3 1 1 1;
     ShapeShaders.initialDirection := V3 1 0 0;
     ShapeShaders.initialSpeed := 1 |}.

Definition outsideParticle : Vector4 := V4 (1 + pow2 (-23)) 0 0 100.
Definition fieldOfFive (_ : Vector3) : Vector4 := V4 5 0 0 0.

(** * Properties *)

(** ** Comparisons *)

Lemma Qltb_lt (a b : Q) : Qltb a b = true <-> a < b.
Proof.
  unfold Qltb. rewrite negb_true_iff, <- not_true_iff_false, Qle_bool_iff.
  split; intro H; [apply Qnot_le_lt | apply Qlt_not_le]; exact H.
Qed.

Lemma Qgtb_gt (a b : Q) : Qgtb a b = true <-> b < a.
Proof. unfold Qgtb. apply Qltb_lt. Qed.

Lemma Qgeb_ge (a b : Q) : Qgeb a b = true <-> b <= a.
Proof. unfold Qgeb. apply Qle_bool_iff. Qed.

Lemma Qltb_ge (a b : Q) : Qltb a b = false <-> b <= a.
Proof.
  unfold Qltb. rewrite negb_false_iff. apply Qle_bool_iff.
Qed.

(** ** Bounding boxes under monotone maps *)

Section MonotoneMaps.

Variable f : Q -> Q.
Hypothesis f_le : forall a b, a <= b -> f a <= f b.
Hypothesis f_lt : forall a b, a < b -> f a < f b.

Lemma Qmin_map (a b : Q) : Qmin (f a) (f b) = f (Qmin a b).
Proof.
  unfold Qmin, GenericMinMax.gmin.
  destruct (Qcompare_spec a b) as [E | L | G];
    destruct (Qcompare_spec (f a) (f b)) as [E' | L' | G'];
    try reflexivity.
  - assert (f a <= f b) by (apply f_le; rewrite E; apply Qle_refl).
    exfalso; apply (Qlt_not_le _ _ G'); assumption.
  - apply f_lt in L. exfalso; apply (Qlt_not_le _ _ G'), Qlt_le_weak, L.
  - apply f_lt in G. rewrite E' in G. exfalso; apply (Qlt_irrefl _ G).
  - apply f_lt in G. exfalso; apply (Qlt_irrefl (f a)).
    eapply Qlt_trans; eassumption.
Qed.

Lemma Qmax_map (a b : Q) : Qmax (f a) (f b) = f (Qmax a b).
Proof.
  unfold Qmax, GenericMinMax.gmax.
  destruct (Qcompare_spec a b) as [E | L | G];
    destruct (Qcompare_spec (f a) (f b)) as [E' | L' | G'];
    try reflexivity.
  - assert (f b <= f a) by (apply f_le; rewrite E; apply Qle_refl).
    exfalso; apply (Qlt_not_le _ _ L'); assumption.
  - apply f_lt in L. rewrite E' in L. exfalso; apply (Qlt_irrefl _ L).
  - apply f_lt in L. exfalso; apply (Qlt_irrefl (f a)).
    eapply Qlt_trans; eassumption.
  - apply f_lt in G. exfalso; apply (Qlt_irrefl (f a)).
    eapply Qlt_trans; eassumption.
Qed.

End MonotoneMaps.

Lemma expandByPoint_vmap3 fx fy fz b p :
  monotone fx -> monotone fy -> monotone fz ->
  expandByPoint (boxMap (vmap3 fx fy fz) b) (vmap3 fx fy fz p)
  = boxMap (vmap3 fx fy fz) (expandByPoint b p).
Proof.
  intros [Hx1 Hx2] [Hy1 Hy2] [Hz1 Hz2].
  destruct b as [| lo hi]; simpl; [reflexivity |].
  unfold vmap3; simpl.
  rewrite !Qmin_map, !Qmax_map by assumption. reflexivity.
Qed.

Lemma fold_expand_vmap3 fx fy fz ps b :
  monotone fx -> monotone fy -> monotone fz ->
  fold_left expandByPoint (map (vmap3 fx fy fz) ps)
            (boxMap (vmap3 fx fy fz) b)
  = boxMap (vmap3 fx fy fz) (fold_left expandByPoint ps b).
Proof.
  intros Hx Hy Hz. revert b.
  induction ps as [| p ps IH]; intro b; simpl; [reflexivity |].
  rewrite expandByPoint_vmap3 by assumption. apply IH.
Qed.

Lemma setFromPoints_vmap3 fx fy fz ps :
  monotone fx -> monotone fy -> monotone fz ->
  setFromPoints (map (vmap3 fx fy fz) ps)
  = boxMap (vmap3 fx fy fz) (setFromPoints ps).
Proof.
  intros Hx Hy Hz. unfold setFromPoints.
  apply (fold_expand_vmap3 fx fy fz ps EmptyBox Hx Hy Hz).
Qed.

Lemma monotone_shift (t : Q) : monotone (fun a => a + t).
Proof. split; intros a b H; lra. Qed.

Lemma monotone_scale (s : Q) : 0 < s -> monotone (fun a => a * s).
Proof.
  intro Hs. split; intros a b H.
  - apply Qmult_le_compat_r; [exact H | apply Qlt_le_weak, Hs].
  - apply Qmult_lt_compat_r; assumption.
Qed.

Lemma expandByPoint_wellFormed b p :
  wellFormed b -> wellFormed (expandByPoint b p).
Proof.
  destruct b as [| lo hi]; simpl.
  - intros _. repeat split; apply Qle_refl.
  - intros (Hx & Hy & Hz).
    repeat split;
      (eapply Qle_trans; [apply Q.le_min_l |];
       eapply Qle_trans; [eassumption | apply Q.le_max_l]).
Qed.

Lemma fold_expand_wellFormed ps b :
  wellFormed b -> wellFormed (fold_left expandByPoint ps b).
Proof.
  revert b. induction ps as [| p ps IH]; intros b Hb; simpl; [exact Hb |].
  apply IH, expandByPoint_wellFormed, Hb.
Qed.

Lemma setFromPoints_wellFormed ps : wellFormed (setFromPoints ps).
Proof. apply fold_expand_wellFormed. exact I. Qed.

(** ** OBJLoader.normalizeGeometry *)

Module NormalizeFacts.
Import OBJLoader.

Lemma normalizeGeometry_eq (g : BufferGeometry) :
  normalizeGeometry g =
  let ps := translated g in
  let m := extent g in
  if Qeq_bool m 0
  then (Geometry ps (Some (setFromPoints ps)),
        Throw (Error "Invalid scale factor computed"))
  else
    let qs := map (fun p => V3 (vx p * (1 / m)) (vy p * (1 / m))
                               (vz p * (1 / m))) ps in
    (Geometry qs (Some (setFromPoints qs)), Normal).
Proof. reflexivity. Qed.

Lemma translated_box (g : BufferGeometry) :
  setFromPoints (translated g) =
  let c := getCenter (setFromPoints (position g)) in
  boxMap (vmap3 (fun a => a + - vx c) (fun a => a + - vy c)
                (fun a => a + - vz c))
         (setFromPoints (position g)).
Proof.
  unfold translated. cbv zeta.
  set (c := getCenter (setFromPoints (position g))).
  exact (setFromPoints_vmap3
           (fun a => a + - vx c) (fun a => a + - vy c) (fun a => a + - vz c)
           (position g)
           (monotone_shift _) (monotone_shift _) (monotone_shift _)).
Qed.

Lemma scaled_box (s : Q) (ps : list Vector3) :
  0 < s ->
  setFromPoints (map (fun p => V3 (vx p * s) (vy p * s) (vz p * s)) ps) =
  boxMap (vmap3 (fun a => a * s) (fun a => a * s) (fun a => a * s))
         (setFromPoints ps).
Proof.
  intro Hs.
  exact (setFromPoints_vmap3
           (fun a => a * s) (fun a => a * s) (fun a => a * s) ps
           (monotone_scale s Hs) (monotone_scale s Hs) (monotone_scale s Hs)).
Qed.

Lemma maxDim_nonneg_box (b : Box3) :
  wellFormed b -> 0 <= maxDim (getSize b).
Proof.
  destruct b as [| lo hi]; simpl.
  - intros _. discriminate.
  - intros (Hx & _). unfold maxDim; simpl.
    eapply Qle_trans; [| apply Q.le_max_l].
    eapply Qle_trans; [| apply Q.le_max_l]. lra.
Qed.

Lemma extent_nonneg (g : BufferGeometry) : 0 <= extent g.
Proof. apply maxDim_nonneg_box, setFromPoints_wellFormed. Qed.

Lemma maxDim_scale (v : Vector3) (s : Q) :
  0 < s ->
  maxDim (V3 (vx v * s) (vy v * s) (vz v * s)) = maxDim v * s.
Proof.
  intro Hs. destruct (monotone_scale s Hs) as [H1 H2].
  unfold maxDim; simpl.
  rewrite (Qmax_map (fun a => a * s) H1 H2).
  rewrite (Qmax_map (fun a => a * s) H1 H2). reflexivity.
Qed.

Lemma maxDim_compat (u v : Vector3) : veq u v -> maxDim u == maxDim v.
Proof.
  intros (Hx & Hy & Hz). unfold maxDim.
  rewrite Hx, Hy, Hz. reflexivity.
Qed.

(** The box of the normalised vertices, when the extent is not zero. *)
Lemma normalized_box (g : BufferGeometry) :
  let m := extent g in
  let qs := map (fun p => V3 (vx p * (1 / m)) (vy p * (1 / m))
                             (vz p * (1 / m))) (translated g) in
  ~ m == 0 ->
  veq (getCenter (setFromPoints qs)) vzero /\
  maxDim (getSize (setFromPoints qs)) == 1.
Proof.
  intros m qs Hm.
  assert (Hpos : 0 < m).
  { pose proof (extent_nonneg g) as H0. fold m in H0.
    destruct (Qlt_le_dec 0 m) as [H | H]; [exact H |].
    exfalso. apply Hm. apply Qle_antisym; assumption. }
  assert (Hs : 0 < 1 / m).
  { unfold Qdiv. rewrite Qmult_1_l. apply Qinv_lt_0_compat, Hpos. }
  subst qs. rewrite (scaled_box (1 / m) (translated g) Hs).
  assert (Hm' : m = maxDim (getSize (setFromPoints (translated g))))
    by reflexivity.
  revert Hm'. rewrite translated_box. cbv zeta.
  pose proof (setFromPoints_wellFormed (position g)) as Hwf.
  destruct (setFromPoints (position g)) as [| lo hi]; simpl.
  - intro Hm'. exfalso. apply Hm. rewrite Hm'. reflexivity.
  - intro Hm'. split.
    + unfold veq; simpl. repeat split; ring.
    + match type of Hm' with _ = maxDim ?v => set (sz := v) in * end.
      transitivity (maxDim (V3 (vx sz * (1 / m)) (vy sz * (1 / m))
                               (vz sz * (1 / m)))).
      * apply maxDim_compat. unfold veq, sz; simpl. repeat split; ring.
      * rewrite (maxDim_scale sz (1 / m) Hs).
        assert (E : maxDim sz == m) by (rewrite Hm'; reflexivity).
        rewrite E. field. exact Hm.
Qed.

End NormalizeFacts.

(** ** Loops over index ranges *)

Lemma fold_left_flat_map {A B C : Type} (f : A -> C -> A) (g : B -> list C)
      (l : list B) (a : A) :
  fold_left f (flat_map g l) a = fold_left (fun a b => fold_left f (g b) a) l a.
Proof.
  revert a. induction l as [| b l IH]; intro a; simpl; [reflexivity |].
  rewrite fold_left_app. apply IH.
Qed.

Lemma fold_left_fmap {A B C : Type} (f : A -> C -> A) (g : B -> C)
      (l : list B) (a : A) :
  fold_left f (map g l) a = fold_left (fun a b => f a (g b)) l a.
Proof.
  revert a. induction l as [| b l IH]; intro a; simpl; [reflexivity |].
  apply IH.
Qed.

(** The triple loop is one pass over [cells]. *)
Lemma triple_loop_cells {S : Type} (n : nat) (body : nat -> nat -> nat -> S -> S)
      (s : S) :
  for_upto n (fun z => for_upto n (fun y => for_upto n (fun x => body z y x))) s
  = fold_left (fun acc c => let '(z, y, x) := c in body z y x acc) (cells n) s.
Proof.
  unfold for_upto, cells.
  set (F := fun acc (c : nat * nat * nat) =>
              let '(z, y, x) := c in body z y x acc).
  set (xs := seq 0 n).
  assert (Hx : forall z y s0,
             fold_left (fun acc x => body z y x acc) xs s0
             = fold_left F (map (fun x => (z, y, x)) xs) s0).
  { intros z y s0. rewrite fold_left_fmap. reflexivity. }
  assert (Hy : forall z (ys : list nat) s0,
             fold_left (fun acc y =>
                          fold_left (fun acc0 x => body z y x acc0) xs acc)
                       ys s0
             = fold_left F
                 (flat_map (fun y => map (fun x => (z, y, x)) xs) ys) s0).
  { intros z ys. induction ys as [| y ys IH]; intro s0; simpl;
      [reflexivity |].
    rewrite fold_left_app, <- Hx. apply IH. }
  assert (Hz : forall (zs : list nat) s0,
             fold_left (fun acc z =>
                          fold_left (fun acc0 y =>
                            fold_left (fun acc1 x => body z y x acc1) xs acc0)
                            xs acc)
                       zs s0
             = fold_left F
                 (flat_map (fun z =>
                    flat_map (fun y => map (fun x => (z, y, x)) xs) xs) zs)
                 s0).
  { intros zs. induction zs as [| z zs IH]; intro s0; simpl;
      [reflexivity |].
    rewrite fold_left_app, <- Hy. apply IH. }
  apply Hz.
Qed.

Lemma flat_map_seq_blocks (n b m : nat) :
  flat_map (fun y => seq (b + y * n) n) (seq 0 m) = seq b (m * n).
Proof.
  induction m as [| m IH]; [reflexivity |].
  replace (S m * n)%nat with (m * n + n)%nat by lia.
  rewrite seq_app, seq_S, flat_map_app, IH.
  cbn [flat_map Nat.add]. rewrite app_nil_r. reflexivity.
Qed.

Lemma map_flat_map {A B C : Type} (f : B -> C) (g : A -> list B) (l : list A) :
  map f (flat_map g l) = flat_map (fun a => map f (g a)) l.
Proof.
  induction l as [| a l IH]; simpl; [reflexivity |].
  rewrite map_app, IH. reflexivity.
Qed.

Lemma flat_map_ext_seq {B : Type} (f g : nat -> list B) (l : list nat) :
  (forall a, f a = g a) -> flat_map f l = flat_map g l.
Proof.
  intro H. induction l as [| a l IH]; simpl; [reflexivity |].
  rewrite H, IH. reflexivity.
Qed.

(** Visiting the cells in loop order visits the offsets 0, 1, 2, ... *)
Lemma cells_indices (n : nat) :
  map (fun c => let '(z, y, x) := c in VelocityField.cellIndex n x y z)
      (cells n)
  = seq 0 (n * n * n).
Proof.
  unfold cells, VelocityField.cellIndex.
  rewrite map_flat_map.
  rewrite (flat_map_ext_seq _ (fun z => seq (0 + z * (n * n)) (n * n))).
  - rewrite flat_map_seq_blocks. f_equal. lia.
  - intro z. rewrite map_flat_map.
    rewrite (flat_map_ext_seq _ (fun y => seq (z * (n * n) + y * n) n)).
    + apply flat_map_seq_blocks.
    + intro y. rewrite map_map.
      replace (z * (n * n) + y * n)%nat with (z * (n * n) + y * n + 0)%nat
        at 1 by lia.
      rewrite <- (fmap_add_seq (z * (n * n) + y * n) 0 n).
      apply map_ext. intro x. lia.
Qed.

Lemma cell_in_cells (n x y z : nat) :
  (x < n)%nat -> (y < n)%nat -> (z < n)%nat -> In (z, y, x) (cells n).
Proof.
  intros Hx Hy Hz. unfold cells.
  apply in_flat_map. exists z. split; [apply in_seq; lia |].
  apply in_flat_map. exists y. split; [apply in_seq; lia |].
  apply in_map_iff. exists x. split; [reflexivity | apply in_seq; lia].
Qed.

Lemma in_cells_inv (n : nat) (c : nat * nat * nat) :
  In c (cells n) ->
  let '(z, y, x) := c in (x < n)%nat /\ (y < n)%nat /\ (z < n)%nat.
Proof.
  unfold cells. intro H.
  apply in_flat_map in H as (z & Hz & H).
  apply in_flat_map in H as (y & Hy & H).
  apply in_map_iff in H as (x & <- & Hx).
  apply in_seq in Hx, Hy, Hz. lia.
Qed.

(** ** Stores into the RGBA array *)

Lemma write4_length (i : nat) (v : Vector3) (d : list Q) :
  length (write4 i v d) = length d.
Proof. unfold write4. rewrite !length_insert. reflexivity. Qed.

Lemma write4_lookup_same (i k : nat) (v : Vector3) (d : list Q) :
  (i * 4 + 3 < length d)%nat -> (k < 4)%nat ->
  write4 i v d !! (i * 4 + k)%nat = Some (component k v).
Proof.
  intros Hlen Hk. unfold write4.
  destruct k as [| [| [| [| k]]]]; try lia; simpl component.
  - rewrite Nat.add_0_r.
    rewrite !list_lookup_insert_ne by lia.
    apply list_lookup_insert_eq. lia.
  - rewrite !list_lookup_insert_ne by lia.
    apply list_lookup_insert_eq. rewrite length_insert. lia.
  - rewrite list_lookup_insert_ne by lia.
    apply list_lookup_insert_eq. rewrite !length_insert. lia.
  - apply list_lookup_insert_eq. rewrite !length_insert. lia.
Qed.

Lemma write4_lookup_other (i j k : nat) (v : Vector3) (d : list Q) :
  i <> j -> (k < 4)%nat ->
  write4 i v d !! (j * 4 + k)%nat = d !! (j * 4 + k)%nat.
Proof.
  intros Hij Hk. unfold write4.
  rewrite !list_lookup_insert_ne by lia. reflexivity.
Qed.

Section FoldWrites.

Variable C : Type.
Variable idx : C -> nat.
Variable val : C -> Vector3.

Let W (acc : list Q) (c : C) : list Q := write4 (idx c) (val c) acc.

Lemma fold_writes_length (l : list C) (d : list Q) :
  length (fold_left W l d) = length d.
Proof.
  revert d. induction l as [| c l IH]; intro d; simpl; [reflexivity |].
  rewrite IH. apply write4_length.
Qed.

Lemma fold_writes_untouched (l : list C) (d : list Q) (j k : nat) :
  (forall c, In c l -> idx c <> j) -> (k < 4)%nat ->
  fold_left W l d !! (j * 4 + k)%nat = d !! (j * 4 + k)%nat.
Proof.
  revert d. induction l as [| c l IH]; intros d Hne Hk; simpl;
    [reflexivity |].
  rewrite IH.
  - apply write4_lookup_other; [apply Hne; left; reflexivity | exact Hk].
  - intros c' Hc'. apply Hne. right. exact Hc'.
  - exact Hk.
Qed.

Lemma fold_writes_written (l : list C) (d : list Q) (c : C) (k : nat) :
  NoDup (map idx l) -> In c l ->
  (idx c * 4 + 3 < length d)%nat -> (k < 4)%nat ->
  fold_left W l d !! (idx c * 4 + k)%nat = Some (component k (val c)).
Proof.
  revert d. induction l as [| a l IH]; intros d Hnd Hin Hlen Hk;
    [destruct Hin |].
  simpl in Hnd. apply NoDup_cons in Hnd as [Hnotin Hnd]. simpl.
  destruct (Nat.eq_dec (idx a) (idx c)) as [E | NE].
  - rewrite fold_writes_untouched.
    + unfold W. rewrite E.
      destruct Hin as [-> | Hin].
      * apply write4_lookup_same; assumption.
      * exfalso. apply Hnotin. rewrite E.
        apply list_elem_of_In, in_map, Hin.
    + intros c' Hc' E'. apply Hnotin. rewrite E, <- E'.
      apply list_elem_of_In, in_map, Hc'.
    + exact Hk.
  - destruct Hin as [-> | Hin]; [contradiction |].
    apply IH; try assumption.
    unfold W. rewrite write4_length. exact Hlen.
Qed.

End FoldWrites.

(** ** VelocityField.generate *)

Lemma fold_left_pointwise {A B : Type} (f g : A -> B -> A) (l : list B) (a : A) :
  (forall a b, f a b = g a b) -> fold_left f l a = fold_left g l a.
Proof.
  intro H. revert a. induction l as [| b l IH]; intro a; simpl;
    [reflexivity |].
  rewrite H. apply IH.
Qed.

Lemma containsPoint_inBox (lo hi p : Vector3) :
  containsPoint (Box lo hi) p = true <-> inBox lo hi p.
Proof.
  unfold containsPoint, inBox.
  rewrite !andb_true_iff, !Qgeb_ge, !Qle_bool_iff. tauto.
Qed.

Module VelocityFieldFacts.
Import VelocityField.

Section Facts.

Variable intersectObject : Mesh -> Vector3 -> Vector3 -> list Q.
Variable sqrt : Q -> Q.

Let idx (n : nat) (c : nat * nat * nat) : nat :=
  let '(z, y, x) := c in cellIndex n x y z.

Let val (n : nat) (method : string) (mesh : option Mesh)
    (c : nat * nat * nat) : Vector3 :=
  let '(z, y, x) := c in
  cellVelocity intersectObject sqrt method mesh (gridPoint n x y z).

Lemma generateData_fold (n : nat) (method : string) (mesh : option Mesh) :
  generateData intersectObject sqrt n method mesh
  = fold_left (fun acc c => write4 (idx n c) (val n method mesh c) acc)
              (cells n) (Float32Array (n * n * n * 4)).
Proof.
  unfold generateData. rewrite triple_loop_cells.
  apply fold_left_pointwise. intros a [[z y] x]. reflexivity.
Qed.

Lemma generateData_length (n : nat) (method : string) (mesh : option Mesh) :
  length (generateData intersectObject sqrt n method mesh)
  = (4 * (n * n * n))%nat.
Proof.
  rewrite generateData_fold, fold_writes_length.
  unfold Float32Array. rewrite length_replicate. lia.
Qed.

Lemma cellIndex_bound (n x y z : nat) :
  (x < n)%nat -> (y < n)%nat -> (z < n)%nat ->
  (cellIndex n x y z < n * n * n)%nat.
Proof.
  intros Hx Hy Hz.
  pose proof (cell_in_cells n x y z Hx Hy Hz) as Hin.
  apply (in_map (fun c => let '(z, y, x) := c in cellIndex n x y z)) in Hin.
  rewrite cells_indices in Hin. simpl in Hin.
  apply in_seq in Hin. lia.
Qed.

Lemma generateData_lookup (n : nat) (method : string) (mesh : option Mesh)
      (x y z k : nat) :
  (x < n)%nat -> (y < n)%nat -> (z < n)%nat -> (k < 4)%nat ->
  generateData intersectObject sqrt n method mesh
    !! (cellIndex n x y z * 4 + k)%nat
  = Some (component k (cellVelocity intersectObject sqrt method mesh
                                    (gridPoint n x y z))).
Proof.
  intros Hx Hy Hz Hk. rewrite generateData_fold.
  apply (fold_writes_written _ (idx n) (val n method mesh)
                             (cells n) _ (z, y, x) k).
  - unfold idx. rewrite cells_indices. apply NoDup_seq.
  - apply cell_in_cells; assumption.
  - unfold Float32Array. rewrite length_replicate. unfold idx.
    pose proof (cellIndex_bound n x y z Hx Hy Hz). lia.
  - exact Hk.
Qed.

(** The cell written for grid cell (x, y, z). *)
Lemma generateData_cell (n : nat) (method : string) (mesh : option Mesh)
      (x y z : nat) :
  (x < n)%nat -> (y < n)%nat -> (z < n)%nat ->
  storedCell (generateData intersectObject sqrt n method mesh)
             (cellIndex n x y z)
  = Some (vec4 (cellVelocity intersectObject sqrt method mesh
                             (gridPoint n x y z)) 0).
Proof.
  intros Hx Hy Hz. unfold storedCell.
  pose proof (generateData_lookup n method mesh x y z 0 Hx Hy Hz) as H0.
  pose proof (generateData_lookup n method mesh x y z 1 Hx Hy Hz) as H1.
  pose proof (generateData_lookup n method mesh x y z 2 Hx Hy Hz) as H2.
  pose proof (generateData_lookup n method mesh x y z 3 Hx Hy Hz) as H3.
  replace (cellIndex n x y z * 4 + 0)%nat with (4 * cellIndex n x y z)%nat
    in H0 by lia.
  replace (cellIndex n x y z * 4 + 1)%nat with (4 * cellIndex n x y z + 1)%nat
    in H1 by lia.
  replace (cellIndex n x y z * 4 + 2)%nat with (4 * cellIndex n x y z + 2)%nat
    in H2 by lia.
  replace (cellIndex n x y z * 4 + 3)%nat with (4 * cellIndex n x y z + 3)%nat
    in H3 by lia.
  rewrite H0, H1, H2, H3 by lia. reflexivity.
Qed.

(** Every slot of the array belongs to exactly the cell the loop wrote. *)
Lemma every_slot_is_a_cell (n j : nat) :
  (j < 4 * (n * n * n))%nat ->
  exists x y z k,
    (x < n)%nat /\ (y < n)%nat /\ (z < n)%nat /\ (k < 4)%nat /\
    j = (4 * (z * n * n + y * n + x) + k)%nat.
Proof.
  intro Hj.
  assert (Hin : In (j / 4)%nat (seq 0 (n * n * n))).
  { apply in_seq. split; [lia |].
    change (0 + n * n * n)%nat with (n * n * n)%nat.
    apply Nat.Div0.div_lt_upper_bound. lia. }
  rewrite <- cells_indices in Hin.
  apply in_map_iff in Hin as ([[z y] x] & Hi & Hc).
  apply in_cells_inv in Hc as (Hx & Hy & Hz).
  exists x, y, z, (j mod 4)%nat. repeat split; try assumption.
  - apply Nat.mod_upper_bound. lia.
  - unfold cellIndex in Hi. rewrite Hi.
    apply Nat.div_mod_eq.
Qed.

Lemma gridPoint_some (n x y z : nat) :
  (2 <= n)%nat ->
  gridPoint n x y z =
  Some (V3 (-1 + inject_Z (Z.of_nat x) * ((1 - -1) * (1 / (inject_Z (Z.of_nat n) - 1))))
           (-1 + inject_Z (Z.of_nat y) * ((1 - -1) * (1 / (inject_Z (Z.of_nat n) - 1))))
           (-1 + inject_Z (Z.of_nat z) * ((1 - -1) * (1 / (inject_Z (Z.of_nat n) - 1))))).
Proof.
  intro Hn. unfold gridPoint, gridStep.
  destruct (Nat.eqb_spec n 1) as [E | _]; [lia | reflexivity].
Qed.

(** C4.  [generate] allocates 4 * resolution^3 numbers and the triple loop
    writes every one of them: each slot is component [k] of the cell of
    some grid point (x, y, z), at offset 4 * (z * resolution^2 +
    y * resolution + x) + k.  The cell of a grid point holds its velocity
    and alpha 0; with method 'potential' the velocity of a point that is
    not classified inside the mesh is exactly (1, 0, 0).  For a resolution
    of at least 2 the grid point of cell (x, y, z) is
    (-1,-1,-1) + (x, y, z) * (2 / (resolution - 1)). *)
Theorem generate_potential_layout (vf : t) (mesh : option Mesh) (n : nat)
        (method : string) :
  exists d,
    data (generate intersectObject sqrt vf mesh n method) = Some d /\
    length d = (4 * (n * n * n))%nat /\
    (forall j, (j < length d)%nat ->
       exists x y z k,
         (x < n)%nat /\ (y < n)%nat /\ (z < n)%nat /\ (k < 4)%nat /\
         j = (4 * (z * n * n + y * n + x) + k)%nat) /\
    (forall x y z, (x < n)%nat -> (y < n)%nat -> (z < n)%nat ->
       exists v,
         storedCell d (z * n * n + y * n + x) = Some (V4 (vx v) (vy v) (vz v) 0) /\
         (method = "potential" ->
          cellInside intersectObject mesh (gridPoint n x y z) = false ->
          v = V3 1 0 0)) /\
    (forall x y z, (2 <= n)%nat ->
       exists p,
         gridPoint n x y z = Some p /\
         veq p (V3 (-1 + inject_Z (Z.of_nat x) * (2 / (inject_Z (Z.of_nat n) - 1)))
                   (-1 + inject_Z (Z.of_nat y) * (2 / (inject_Z (Z.of_nat n) - 1)))
                   (-1 + inject_Z (Z.of_nat z) * (2 / (inject_Z (Z.of_nat n) - 1))))).
Proof.
  exists (generateData intersectObject sqrt n method mesh).
  split; [reflexivity |].
  split; [apply generateData_length |].
  split; [| split].
  - intros j Hj. rewrite generateData_length in Hj.
    apply every_slot_is_a_cell, Hj.
  - intros x y z Hx Hy Hz.
    exists (cellVelocity intersectObject sqrt method mesh (gridPoint n x y z)).
    split.
    + apply (generateData_cell n method mesh x y z Hx Hy Hz).
    + intros -> Hout. unfold cellVelocity. rewrite Hout. reflexivity.
  - intros x y z Hn. eexists. split; [apply gridPoint_some, Hn |].
    unfold veq, Qdiv; simpl. repeat split; ring.
Qed.


End Facts.

Lemma generate_potential_layout_witness :
  (1 < 2)%nat /\
  cellInside noHit None (gridPoint 2 1 1 1) = false /\
  storedCell (generateData noHit sqrtOnSquares 2 "potential" None) 7
  = Some (V4 1 0 0 0).
Proof.
  split; [lia |]. split; [reflexivity |].
  destruct (generate_potential_layout noHit sqrtOnSquares VelocityField.new
                                      None 2 "potential")
    as (d & Hd & _ & _ & Hcells & _).
  injection Hd as <-.
  destruct (Hcells 1%nat 1%nat 1%nat) as (v & Hs & Hv); try lia.
  rewrite (Hv eq_refl eq_refl) in Hs. exact Hs.
Defined.


End VelocityFieldFacts.

(** ** The compute passes *)

Module ShaderFacts.

Lemma outOfBounds_spec (pos lo hi : Vector3) :
  outOfBounds pos lo hi = true <-> ~ inBox lo hi pos.
Proof.
  unfold outOfBounds, inBox.
  rewrite !orb_true_iff, !Qltb_lt, !Qgtb_gt. split.
  - intros H (Hx & Hy & Hz). lra.
  - intro H.
    destruct (Qlt_le_dec (vx pos) (vx lo)); [tauto |].
    destruct (Qlt_le_dec (vx hi) (vx pos)); [tauto |].
    destruct (Qlt_le_dec (vy pos) (vy lo)); [tauto |].
    destruct (Qlt_le_dec (vy hi) (vy pos)); [tauto |].
    destruct (Qlt_le_dec (vz pos) (vz lo)); [tauto |].
    destruct (Qlt_le_dec (vz hi) (vz pos)); [tauto |].
    exfalso. apply H. repeat split; assumption.
Qed.

Lemma insideGrid_spec (tc : option Vector3) :
  insideGrid tc = true <-> exists c, tc = Some c /\ inUnitCube c.
Proof.
  destruct tc as [c |]; simpl.
  - unfold inUnitCube.
    rewrite !andb_true_iff, !Qgeb_ge, !Qle_bool_iff. split.
    + intro H. exists c. split; [reflexivity | tauto].
    + intros (c' & Hc & H). injection Hc as <-. tauto.
  - split; [discriminate |]. intros (c & Hc & _). discriminate.
Qed.

Lemma texCoord_some (pos gmin gmax c : Vector3) :
  texCoord pos gmin gmax = Some c ->
  c = V3 ((vx pos - vx gmin) / (vx gmax - vx gmin))
         ((vy pos - vy gmin) / (vy gmax - vy gmin))
         ((vz pos - vz gmin) / (vz gmax - vz gmin)).
Proof.
  unfold texCoord. simpl.
  destruct (_ || _ || _); [discriminate |].
  intro H. injection H as <-. reflexivity.
Qed.

Lemma texCoord_defined (pos gmin gmax : Vector3) :
  ~ vx gmax - vx gmin == 0 -> ~ vy gmax - vy gmin == 0 ->
  ~ vz gmax - vz gmin == 0 ->
  texCoord pos gmin gmax =
  Some (V3 ((vx pos - vx gmin) / (vx gmax - vx gmin))
           ((vy pos - vy gmin) / (vy gmax - vy gmin))
           ((vz pos - vz gmin) / (vz gmax - vz gmin))).
Proof.
  intros Hx Hy Hz. unfold texCoord. simpl.
  destruct (Qeq_bool (vx gmax - vx gmin) 0) eqn:Ex;
    [apply Qeq_bool_eq in Ex; contradiction |].
  destruct (Qeq_bool (vy gmax - vy gmin) 0) eqn:Ey;
    [apply Qeq_bool_eq in Ey; contradiction |].
  destruct (Qeq_bool (vz gmax - vz gmin) 0) eqn:Ez;
    [apply Qeq_bool_eq in Ez; contradiction |].
  reflexivity.
Qed.

Lemma fract_range (x : Q) : 0 <= fract x < 1.
Proof.
  unfold fract.
  pose proof (Qfloor_le x) as H1.
  pose proof (Qlt_floor x) as H2.
  rewrite inject_Z_plus in H2.
  change (inject_Z 1) with 1 in H2. lra.
Qed.

Lemma rand_range (sin : Q -> Q) (co : Vector2) : 0 <= rand sin co < 1.
Proof. apply fract_range. Qed.

(** The respawn test of either position shader, in words. *)
Lemma respawn_test (age maxA : Q) (pos lo hi : Vector3) :
  Qgeb age maxA || outOfBounds pos lo hi = true
  <-> (maxA <= age \/ ~ inBox lo hi pos).
Proof.
  rewrite orb_true_iff, Qgeb_ge, outOfBounds_spec. reflexivity.
Qed.

Lemma scaled_within (a c R : Q) :
  0 <= a <= R -> -1 <= c <= 1 -> - R <= a * c <= R.
Proof. intros [Ha HR] [Hc1 Hc2]. split; nra. Qed.

Lemma unit_scaled (s R : Q) : 0 <= s <= 1 -> 0 <= R -> 0 <= s * R <= R.
Proof. intros [H1 H2] HR. split; nra. Qed.

(** The disc and ball offsets of the shape emitter stay within the emission
    radius, for built-ins with the ranges of the real functions. *)
Lemma spawnOffset_within_radius (sin cos sqrt : Q -> Q) (pow : Q -> Q -> Q)
      (length3 : Vector3 -> Q) (normalize3 : Vector3 -> Vector3)
      (U : ShapeShaders.PositionUniforms) (uv : Vector2) :
  (forall a, -1 <= cos a <= 1) ->
  (forall a, -1 <= sin a <= 1) ->
  (forall x, 0 <= x < 1 -> 0 <= sqrt x <= 1) ->
  (forall x e, 0 <= x < 1 -> 0 <= pow x e <= 1) ->
  (forall v, within 1 (normalize3 v)) ->
  0 <= ShapeShaders.emissionRadius U ->
  ShapeShaders.emissionShape U <> 0%Z ->
  within (ShapeShaders.emissionRadius U)
         (ShapeShaders.spawnOffset sin cos sqrt pow length3 normalize3 U uv).
Proof.
  intros Hcos Hsin Hsqrt Hpow Hnorm HR Hshape.
  unfold ShapeShaders.spawnOffset.
  destruct (Z.eqb_spec (ShapeShaders.emissionShape U) 0) as [E | _];
    [contradiction |].
  pose proof (rand_range sin (addScalar2 uv (ShapeShaders.time U))) as H1.
  pose proof (rand_range sin (addScalar2 uv (ShapeShaders.time U * 1.1)))
    as H2.
  pose proof (rand_range sin (addScalar2 uv (ShapeShaders.time U * 1.2)))
    as H3.
  set (r1 := rand sin (addScalar2 uv (ShapeShaders.time U))) in *.
  set (r2 := rand sin (addScalar2 uv (ShapeShaders.time U * 1.1))) in *.
  set (r3 := rand sin (addScalar2 uv (ShapeShaders.time U * 1.2))) in *.
  destruct (ShapeShaders.emissionShape U =? 1)%Z.
  - pose proof (unit_scaled (sqrt r2) _ (Hsqrt r2 H2) HR) as Hr.
    unfold within; simpl. repeat split; try lra;
      try apply (scaled_within _ _ _ Hr (Hcos _));
      apply (scaled_within _ _ _ Hr (Hsin _)).
  - pose proof (unit_scaled (pow r1 0.333333) _ (Hpow r1 _ H1) HR) as Hr.
    set (dir := if Qgtb (length3 (V3 (r1 - 0.5) (r2 - 0.5) (r3 - 0.5))) 0.001
                then normalize3 (V3 (r1 - 0.5) (r2 - 0.5) (r3 - 0.5))
                else V3 (r1 - 0.5) (r2 - 0.5) (r3 - 0.5)).
    assert (Hdir : within 1 dir).
    { unfold dir. destruct (Qgtb _ _); [apply Hnorm |].
      unfold within; simpl. repeat split; lra. }
    destruct Hdir as (Hx & Hy & Hz).
    unfold within, multiplyScalar; simpl.
    repeat split;
      try (rewrite (Qmult_comm (vx dir)); apply (scaled_within _ _ _ Hr Hx));
      try (rewrite (Qmult_comm (vy dir)); apply (scaled_within _ _ _ Hr Hy));
      (rewrite (Qmult_comm (vz dir)); apply (scaled_within _ _ _ Hr Hz)).
Qed.

Lemma Qle_bool_false (a b : Q) : Qle_bool a b = false <-> ~ a <= b.
Proof.
  rewrite <- Qle_bool_iff. destruct (Qle_bool a b); split; intro H;
    try discriminate; try reflexivity; try (exfalso; apply H; reflexivity).
Qed.

(** The blend step shared by both velocity shaders. *)
Lemma blend_step (texture3D : Vector3 -> Vector4) (start : Vector3)
      (tc : option Vector3) (b : Q) :
  let stepped :=
    match tc with
    | Some c => if insideGrid tc then mix start (xyz (texture3D c)) b
                else start
    | None => start
    end in
  (forall c, tc = Some c -> inUnitCube c ->
             stepped = mix start (xyz (texture3D c)) b) /\
  (~ (exists c, tc = Some c /\ inUnitCube c) -> stepped = start).
Proof.
  cbv zeta. split.
  - intros c -> Hc.
    assert (H : insideGrid (Some c) = true)
      by (apply insideGrid_spec; exists c; split; [reflexivity | exact Hc]).
    rewrite H. reflexivity.
  - intro Hout. destruct tc as [c |]; [| reflexivity].
    destruct (insideGrid (Some c)) eqn:E; [| reflexivity].
    exfalso. apply Hout. apply insideGrid_spec. exact E.
Qed.

End ShaderFacts.

(** ** ParticleSystem *)

Lemma lookup_setOpt (k j : string) (o : option UniformValue)
      (m : gmap string UniformValue) :
  setOpt k o m !! j =
  match o with
  | Some v => if decide (k = j) then Some v else m !! j
  | None => m !! j
  end.
Proof.
  destruct o as [v |]; simpl; [| reflexivity].
  apply lookup_insert.
Qed.

Module ParticleSystemFacts.

Section Facts.

Variable T : Type.
Variable renderPasses :
  nat -> nat -> gmap string UniformValue -> gmap string UniformValue ->
  nat -> T -> T.

Local Abbreviation update := (ParticleSystem.update T renderPasses).
Local Abbreviation updateP := (PlaneParticleSystem.update T renderPasses).
Local Abbreviation updateParams := (ParticleSystem.updateParams T).
Local Abbreviation updateParamsP := (PlaneParticleSystem.updateParams T).

(** What [updateParams] does to the position uniforms, and that it touches
    nothing else. *)
Lemma updateParams_effect (ps : ParticleSystem.t T) (params : Params) :
  updateParams ps params =
  ParticleSystem.System T
    (ParticleSystem.WIDTH T ps) (ParticleSystem.COUNT T ps)
    (ParticleSystem.gpuCompute T ps)
    (setOpt "emissionRadius" (UNumber <$> p_emissionRadius params)
      (setOpt "emissionShape" (UNumber <$> p_emissionShape params)
        (setOpt "speedMultiplier" (truthyOnly (p_speedMultiplier params))
          (setOpt "maxAge" (truthyOnly (p_lifespan params))
            (setOpt "emitterPos" (UVector3 <$> p_emitterPos params)
              (ParticleSystem.positionUniforms T ps))))))
    (ParticleSystem.velocityUniforms T ps)
    (ParticleSystem.materialUniforms T ps).
Proof.
  destruct ps as [w c g pu vu mu], params as [e l s r sh ra ew eh].
  unfold ParticleSystem.updateParams, truthyOnly; simpl.
  destruct e, l as [l |], s as [s |], r as [r |], sh, ra; simpl;
    try destruct (truthyNumber l); try destruct (truthyNumber s);
    try destruct (truthyNumber r); reflexivity.
Qed.

Lemma updateParamsP_effect (ps : PlaneParticleSystem.t T) (params : Params) :
  updateParamsP ps params =
  PlaneParticleSystem.System T
    (PlaneParticleSystem.WIDTH T ps) (PlaneParticleSystem.COUNT T ps)
    (PlaneParticleSystem.gpuCompute T ps)
    (setOpt "emitterHeight" (truthyOnly (p_emitterHeight params))
      (setOpt "emitterWidth" (truthyOnly (p_emitterWidth params))
        (setOpt "speedMultiplier" (truthyOnly (p_speedMultiplier params))
          (setOpt "maxAge" (truthyOnly (p_lifespan params))
            (setOpt "emitterPos" (UVector3 <$> p_emitterPos params)
              (PlaneParticleSystem.positionUniforms T ps))))))
    (PlaneParticleSystem.velocityUniforms T ps)
    (PlaneParticleSystem.materialUniforms T ps)
    (PlaneParticleSystem.emitterWidth T ps)
    (PlaneParticleSystem.emitterHeight T ps)
    (match p_emitterPos params with
     | Some v => vx v | None => PlaneParticleSystem.emitterPosX T ps end)
    (match p_emitterPos params with
     | Some v => vy v | None => PlaneParticleSystem.emitterPosY T ps end)
    (match p_emitterPos params with
     | Some v => vz v | None => PlaneParticleSystem.emitterPosZ T ps end).
Proof.
  destruct ps as [w c g pu vu mu ew0 eh0 ex ey ez],
           params as [e l s r sh ra ew eh].
  unfold PlaneParticleSystem.updateParams, PlaneParticleSystem.setIfTruthy,
    truthyOnly; simpl.
  destruct e, l as [l |], s as [s |], ew as [ew |], eh as [eh |]; simpl;
    try destruct (truthyNumber l); try destruct (truthyNumber s);
    try destruct (truthyNumber ew); try destruct (truthyNumber eh);
    reflexivity.
Qed.

(** C8.  When the velocity field has no 3D texture yet, [update] returns
    the system as it was: the compute helper, all uniforms and the display
    material's textures are those of before.  This holds for both variants
    of the particle system. *)
Theorem update_without_texture (vf : VelocityField.t) (time deltaTime : Q) :
  VelocityField.texture vf = None ->
  (forall ps,
     let ps' := update vf ps time deltaTime in
     ps' = ps /\
     ParticleSystem.gpuCompute T ps' = ParticleSystem.gpuCompute T ps /\
     ParticleSystem.positionUniforms T ps'
       = ParticleSystem.positionUniforms T ps /\
     ParticleSystem.velocityUniforms T ps'
       = ParticleSystem.velocityUniforms T ps /\
     ParticleSystem.materialUniforms T ps'
       = ParticleSystem.materialUniforms T ps) /\
  (forall ps,
     let ps' := updateP vf ps time deltaTime in
     ps' = ps /\
     PlaneParticleSystem.gpuCompute T ps'
       = PlaneParticleSystem.gpuCompute T ps /\
     PlaneParticleSystem.positionUniforms T ps'
       = PlaneParticleSystem.positionUniforms T ps /\
     PlaneParticleSystem.velocityUniforms T ps'
       = PlaneParticleSystem.velocityUniforms T ps /\
     PlaneParticleSystem.materialUniforms T ps'
       = PlaneParticleSystem.materialUniforms T ps).
Proof.
  intro Hnull. split; intro ps; cbv zeta.
  - unfold ParticleSystem.update. rewrite Hnull. repeat split.
  - unfold PlaneParticleSystem.update. rewrite Hnull. repeat split.
Qed.

(** With a texture in place [update] does run the compute call. *)
Lemma update_with_texture (vf : VelocityField.t) (tex : VelocityField.Data3DTexture)
      (ps : ParticleSystem.t T) (time deltaTime : Q) :
  VelocityField.texture vf = Some tex ->
  let ps' := update vf ps time deltaTime in
  currentTextureIndex (ParticleSystem.gpuCompute T ps')
    <> currentTextureIndex (ParticleSystem.gpuCompute T ps) /\
  ParticleSystem.velocityUniforms T ps' !! "velocityField" = Some (UField tex).
Proof.
  intro Htex. cbv zeta. unfold ParticleSystem.update. rewrite Htex. simpl.
  split.
  - destruct (currentTextureIndex (ParticleSystem.gpuCompute T ps)); simpl;
      discriminate.
  - unfold bindDependencies.
    rewrite !lookup_insert_ne by discriminate. apply lookup_insert_eq.
Qed.

Lemma update_preserves_size (vf : VelocityField.t) (ps : ParticleSystem.t T)
      (time deltaTime : Q) :
  let ps' := update vf ps time deltaTime in
  ParticleSystem.WIDTH T ps' = ParticleSystem.WIDTH T ps /\
  ParticleSystem.COUNT T ps' = ParticleSystem.COUNT T ps /\
  sizeX (ParticleSystem.gpuCompute T ps')
    = sizeX (ParticleSystem.gpuCompute T ps) /\
  sizeY (ParticleSystem.gpuCompute T ps')
    = sizeY (ParticleSystem.gpuCompute T ps).
Proof.
  cbv zeta. unfold ParticleSystem.update.
  destruct (VelocityField.texture vf); repeat split.
Qed.

Lemma updateP_preserves_size (vf : VelocityField.t)
      (ps : PlaneParticleSystem.t T) (time deltaTime : Q) :
  let ps' := updateP vf ps time deltaTime in
  PlaneParticleSystem.WIDTH T ps' = PlaneParticleSystem.WIDTH T ps /\
  PlaneParticleSystem.COUNT T ps' = PlaneParticleSystem.COUNT T ps /\
  sizeX (PlaneParticleSystem.gpuCompute T ps')
    = sizeX (PlaneParticleSystem.gpuCompute T ps) /\
  sizeY (PlaneParticleSystem.gpuCompute T ps')
    = sizeY (PlaneParticleSystem.gpuCompute T ps).
Proof.
  cbv zeta. unfold PlaneParticleSystem.update.
  destruct (VelocityField.texture vf); repeat split.
Qed.

Lemma run_preserves_size (ops : list (ParticleSystem.Op)) :
  forall ps : ParticleSystem.t T,
  let ps' := ParticleSystem.run T renderPasses ps ops in
  ParticleSystem.WIDTH T ps' = ParticleSystem.WIDTH T ps /\
  ParticleSystem.COUNT T ps' = ParticleSystem.COUNT T ps /\
  sizeX (ParticleSystem.gpuCompute T ps')
    = sizeX (ParticleSystem.gpuCompute T ps) /\
  sizeY (ParticleSystem.gpuCompute T ps')
    = sizeY (ParticleSystem.gpuCompute T ps).
Proof.
  induction ops as [| o ops IH]; intro ps; cbv zeta; [repeat split |].
  unfold ParticleSystem.run. simpl.
  destruct (IH (ParticleSystem.step T renderPasses ps o)) as (A & B & C & D).
  unfold ParticleSystem.run in A, B, C, D. rewrite A, B, C, D.
  destruct o as [vf time dt | params]; simpl.
  - apply update_preserves_size.
  - rewrite updateParams_effect. repeat split.
Qed.

Lemma runP_preserves_size (ops : list (PlaneParticleSystem.Op)) :
  forall ps : PlaneParticleSystem.t T,
  let ps' := PlaneParticleSystem.run T renderPasses ps ops in
  PlaneParticleSystem.WIDTH T ps' = PlaneParticleSystem.WIDTH T ps /\
  PlaneParticleSystem.COUNT T ps' = PlaneParticleSystem.COUNT T ps /\
  sizeX (PlaneParticleSystem.gpuCompute T ps')
    = sizeX (PlaneParticleSystem.gpuCompute T ps) /\
  sizeY (PlaneParticleSystem.gpuCompute T ps')
    = sizeY (PlaneParticleSystem.gpuCompute T ps).
Proof.
  induction ops as [| o ops IH]; intro ps; cbv zeta; [repeat split |].
  unfold PlaneParticleSystem.run. simpl.
  destruct (IH (PlaneParticleSystem.step T renderPasses ps o))
    as (A & B & C & D).
  unfold PlaneParticleSystem.run in A, B, C, D. rewrite A, B, C, D.
  destruct o as [vf time dt | params]; simpl.
  - apply updateP_preserves_size.
  - rewrite updateParamsP_effect. repeat split.
Qed.

(** C7.  The constructor sets COUNT to WIDTH * WIDTH and sizes the compute
    textures WIDTH by WIDTH.  No sequence of [update] and [updateParams]
    calls changes WIDTH, COUNT or the size of the compute textures.  A call
    of [updateParams] does the same whatever [emissionRate] it is given,
    and a call with [emissionRate] alone changes nothing.  This holds for
    both variants of the particle system. *)
Theorem particle_count_fixed :
  (forall filled,
     let ps := ParticleSystem.constructor T filled in
     ParticleSystem.COUNT T ps
       = (ParticleSystem.WIDTH T ps * ParticleSystem.WIDTH T ps)%nat /\
     sizeX (ParticleSystem.gpuCompute T ps) = ParticleSystem.WIDTH T ps /\
     sizeY (ParticleSystem.gpuCompute T ps) = ParticleSystem.WIDTH T ps) /\
  (forall ps ops,
     let ps' := ParticleSystem.run T renderPasses ps ops in
     ParticleSystem.WIDTH T ps' = ParticleSystem.WIDTH T ps /\
     ParticleSystem.COUNT T ps' = ParticleSystem.COUNT T ps /\
     sizeX (ParticleSystem.gpuCompute T ps')
       = sizeX (ParticleSystem.gpuCompute T ps) /\
     sizeY (ParticleSystem.gpuCompute T ps')
       = sizeY (ParticleSystem.gpuCompute T ps)) /\
  (forall ps params r,
     updateParams ps (withEmissionRate r params) = updateParams ps params) /\
  (forall ps r, updateParams ps (withEmissionRate r noParams) = ps) /\
  (forall filled,
     let ps := PlaneParticleSystem.constructor T filled in
     PlaneParticleSystem.COUNT T ps
       = (PlaneParticleSystem.WIDTH T ps * PlaneParticleSystem.WIDTH T ps)%nat /\
     sizeX (PlaneParticleSystem.gpuCompute T ps)
       = PlaneParticleSystem.WIDTH T ps /\
     sizeY (PlaneParticleSystem.gpuCompute T ps)
       = PlaneParticleSystem.WIDTH T ps) /\
  (forall ps ops,
     let ps' := PlaneParticleSystem.run T renderPasses ps ops in
     PlaneParticleSystem.WIDTH T ps' = PlaneParticleSystem.WIDTH T ps /\
     PlaneParticleSystem.COUNT T ps' = PlaneParticleSystem.COUNT T ps /\
     sizeX (PlaneParticleSystem.gpuCompute T ps')
       = sizeX (PlaneParticleSystem.gpuCompute T ps) /\
     sizeY (PlaneParticleSystem.gpuCompute T ps')
       = sizeY (PlaneParticleSystem.gpuCompute T ps)) /\
  (forall ps params r,
     updateParamsP ps (withEmissionRate r params) = updateParamsP ps params) /\
  (forall ps r, updateParamsP ps (withEmissionRate r noParams) = ps).
Proof.
  split; [| split; [| split; [| split; [| split; [| split; [| split]]]]]].
  - intro filled. repeat split.
  - intros ps ops. apply run_preserves_size.
  - intros ps params r. rewrite !updateParams_effect. reflexivity.
  - intros ps r. destruct ps. unfold ParticleSystem.updateParams; simpl.
    destruct (truthy r); reflexivity.
  - intro filled. repeat split.
  - intros ps ops. apply runP_preserves_size.
  - intros ps params r. rewrite !updateParamsP_effect. reflexivity.
  - intros ps r. destruct ps. reflexivity.
Qed.

(** A lookup in a chain of optional stores: split on every store that may
    or may not happen and compare the keys. *)
Ltac settle_lookup :=
  simpl;
  repeat match goal with
         | |- context [match ?o with Some _ => _ | None => _ end] =>
             destruct o
         end;
  repeat case_decide; congruence.

(** C9.  [updateParams] of src/ParticleSystem.js: a [lifespan] or
    [speedMultiplier] that is not truthy (absent, 0 or NaN) leaves [maxAge]
    resp. [speedMultiplier] as it was, and an absent [emitterPos] leaves
    [emitterPos]; a truthy value is stored.  [emissionShape] and
    [emissionRadius] are stored whenever the key is present, 0 included,
    and left alone when it is absent.  No other position uniform, no
    velocity uniform and no material uniform changes.  The plane-emitter
    variant treats [emitterPos], [lifespan] and [speedMultiplier] the same
    way and has the truthiness test on [emitterWidth] and [emitterHeight]
    too; it reads no [emissionShape] or [emissionRadius]. *)
Theorem updateParams_truthiness (params : Params) :
  (truthy (Some (Num 0)) = false /\ truthy (Some NaN) = false /\
   truthy None = false) /\
  (forall ps : ParticleSystem.t T,
     let U := ParticleSystem.positionUniforms T ps in
     let ps' := updateParams ps params in
     let U' := ParticleSystem.positionUniforms T ps' in
     (truthy (p_lifespan params) = false -> U' !! "maxAge" = U !! "maxAge") /\
     (truthy (p_speedMultiplier params) = false ->
      U' !! "speedMultiplier" = U !! "speedMultiplier") /\
     (p_emitterPos params = None -> U' !! "emitterPos" = U !! "emitterPos") /\
     (forall n, p_lifespan params = Some n -> truthyNumber n = true ->
                U' !! "maxAge" = Some (UNumber n)) /\
     (forall n, p_speedMultiplier params = Some n -> truthyNumber n = true ->
                U' !! "speedMultiplier" = Some (UNumber n)) /\
     (forall v, p_emitterPos params = Some v ->
                U' !! "emitterPos" = Some (UVector3 v)) /\
     (forall n, p_emissionShape params = Some n ->
                U' !! "emissionShape" = Some (UNumber n)) /\
     (forall n, p_emissionRadius params = Some n ->
                U' !! "emissionRadius" = Some (UNumber n)) /\
     (p_emissionShape params = None ->
      U' !! "emissionShape" = U !! "emissionShape") /\
     (p_emissionRadius params = None ->
      U' !! "emissionRadius" = U !! "emissionRadius") /\
     (forall k : string,
        k <> "emitterPos" -> k <> "maxAge" -> k <> "speedMultiplier" ->
        k <> "emissionShape" -> k <> "emissionRadius" ->
        U' !! k = U !! k) /\
     ParticleSystem.velocityUniforms T ps'
       = ParticleSystem.velocityUniforms T ps /\
     ParticleSystem.materialUniforms T ps'
       = ParticleSystem.materialUniforms T ps) /\
  (forall ps : PlaneParticleSystem.t T,
     let U := PlaneParticleSystem.positionUniforms T ps in
     let ps' := updateParamsP ps params in
     let U' := PlaneParticleSystem.positionUniforms T ps' in
     (truthy (p_lifespan params) = false -> U' !! "maxAge" = U !! "maxAge") /\
     (truthy (p_speedMultiplier params) = false ->
      U' !! "speedMultiplier" = U !! "speedMultiplier") /\
     (truthy (p_emitterWidth params) = false ->
      U' !! "emitterWidth" = U !! "emitterWidth") /\
     (truthy (p_emitterHeight params) = false ->
      U' !! "emitterHeight" = U !! "emitterHeight") /\
     (p_emitterPos params = None -> U' !! "emitterPos" = U !! "emitterPos") /\
     (forall k : string,
        k <> "emitterPos" -> k <> "maxAge" -> k <> "speedMultiplier" ->
        k <> "emitterWidth" -> k <> "emitterHeight" ->
        U' !! k = U !! k) /\
     PlaneParticleSystem.velocityUniforms T ps'
       = PlaneParticleSystem.velocityUniforms T ps /\
     PlaneParticleSystem.materialUniforms T ps'
       = PlaneParticleSystem.materialUniforms T ps).
Proof.
  assert (Hfalsy : forall p, truthy p = false -> truthyOnly p = None).
  { intros [n |]; simpl; [| reflexivity]. intros ->. reflexivity. }
  assert (Htruthy : forall p n, p = Some n -> truthyNumber n = true ->
                                truthyOnly p = Some (UNumber n)).
  { intros p n -> H. simpl. rewrite H. reflexivity. }
  split; [repeat split | split].
  - intro ps. cbv zeta. rewrite updateParams_effect. simpl.
    repeat match goal with |- _ /\ _ => split end;
      try reflexivity.
    + intro H. rewrite !lookup_setOpt, (Hfalsy _ H). settle_lookup.
    + intro H. rewrite !lookup_setOpt, (Hfalsy _ H). settle_lookup.
    + intro H. rewrite !lookup_setOpt, H. settle_lookup.
    + intros n H Ht. rewrite !lookup_setOpt, (Htruthy _ n H Ht).
      settle_lookup.
    + intros n H Ht. rewrite !lookup_setOpt, (Htruthy _ n H Ht).
      settle_lookup.
    + intros v H. rewrite !lookup_setOpt, H. settle_lookup.
    + intros n H. rewrite !lookup_setOpt, H. settle_lookup.
    + intros n H. rewrite !lookup_setOpt, H. settle_lookup.
    + intro H. rewrite !lookup_setOpt, H. settle_lookup.
    + intro H. rewrite !lookup_setOpt, H. settle_lookup.
    + intros k H1 H2 H3 H4 H5. rewrite !lookup_setOpt. settle_lookup.
  - intro ps. cbv zeta. rewrite updateParamsP_effect. simpl.
    repeat match goal with |- _ /\ _ => split end;
      try reflexivity.
    + intro H. rewrite !lookup_setOpt, (Hfalsy _ H). settle_lookup.
    + intro H. rewrite !lookup_setOpt, (Hfalsy _ H). settle_lookup.
    + intro H. rewrite !lookup_setOpt, (Hfalsy _ H). settle_lookup.
    + intro H. rewrite !lookup_setOpt, (Hfalsy _ H). settle_lookup.
    + intro H. rewrite !lookup_setOpt, H. settle_lookup.
    + intros k H1 H2 H3 H4 H5. rewrite !lookup_setOpt. settle_lookup.
Qed.

End Facts.

Lemma update_without_texture_witness :
  VelocityField.texture VelocityField.new = None /\
  ParticleSystem.update nat countingPasses VelocityField.new
    (ParticleSystem.constructor nat 0%nat) 1 (1 # 60)
  = ParticleSystem.constructor nat 0%nat.
Proof.
  split; [reflexivity |].
  apply (proj1 (update_without_texture nat countingPasses VelocityField.new
                                       1 (1 # 60) eq_refl)
               (ParticleSystem.constructor nat 0%nat)).
Defined.

Lemma updateParams_truthiness_witness :
  let ps := ParticleSystem.constructor nat 0%nat in
  let ps' := ParticleSystem.updateParams nat ps zeroParams in
  ParticleSystem.positionUniforms nat ps' !! "maxAge"
    = ParticleSystem.positionUniforms nat ps !! "maxAge" /\
  ParticleSystem.positionUniforms nat ps' !! "speedMultiplier"
    = ParticleSystem.positionUniforms nat ps !! "speedMultiplier" /\
  ParticleSystem.positionUniforms nat ps' !! "emissionShape"
    = Some (UNumber (Num 0)) /\
  ParticleSystem.positionUniforms nat ps' !! "emissionRadius"
    = Some (UNumber (Num 0)).
Proof.
  cbv zeta.
  destruct (updateParams_truthiness nat zeroParams) as (_ & H & _).
  destruct (H (ParticleSystem.constructor nat 0%nat))
    as (A & B & _ & _ & _ & _ & C & D & _).
  split; [apply A; reflexivity |].
  split; [apply B; reflexivity |].
  split; [apply C; reflexivity | apply D; reflexivity].
Defined.

End ParticleSystemFacts.

(** ** OBJLoader.loadFromFile *)

Module LoaderFacts.
Import OBJLoader.

(** Induction over a hierarchy with the hypothesis for every child. *)
Lemma Object3D_forall_ind (P : Object3D -> Prop) :
  (forall name mesh children,
     Forall P children -> P (Node name mesh children)) ->
  forall o, P o.
Proof.
  intro Hnode. fix IH 1. intros [name mesh children].
  apply Hnode. induction children as [| c cs IHcs].
  - constructor.
  - constructor; [apply IH | exact IHcs].
Qed.

Lemma visit_geometry (name : string) (mesh : option BufferGeometry)
      (s : option BufferGeometry * nat * nat) :
  (visit name mesh s).1.1 = orElse s.1.1 mesh.
Proof.
  destruct s as [[geo mc] cc]. unfold visit.
  destruct mesh, geo; reflexivity.
Qed.

Lemma orElse_assoc {A : Type} (a b c : option A) :
  orElse (orElse a b) c = orElse a (orElse b c).
Proof. destruct a; reflexivity. Qed.

Lemma orElse_head_app {A : Type} (l1 l2 : list A) :
  head (l1 ++ l2) = orElse (head l1) (head l2).
Proof. destruct l1; reflexivity. Qed.

(** The traversal of [processObject] keeps the first mesh it meets. *)
Lemma traverse_visit_geometry (o : Object3D) :
  forall s, (traverse visit o s).1.1 = orElse s.1.1 (head (meshes o)).
Proof.
  induction o as [name mesh children IH] using Object3D_forall_ind.
  intro s. simpl.
  assert (Hfold : forall s0,
             (fold_left (fun acc c => traverse visit c acc) children s0).1.1
             = orElse s0.1.1 (head (flat_map meshes children))).
  { induction IH as [| c cs Hc _ IHcs]; intro s0; simpl.
    - destruct (s0.1.1); reflexivity.
    - rewrite IHcs, Hc, orElse_assoc, orElse_head_app. reflexivity. }
  rewrite Hfold, visit_geometry, orElse_assoc, orElse_head_app.
  destruct mesh; reflexivity.
Qed.

Lemma processObject_eq (st : t) (o : Object3D) :
  processObject st o =
  match head (meshes o) with
  | None => (st, Throw (Error "No mesh found in OBJ file"))
  | Some g =>
      match normalizeGeometry g with
      | (_, Throw e) => (st, Throw e)
      | (g', Normal) =>
          (setMesh (newMesh st g').1 (newMesh st g').2, Normal)
      end
  end.
Proof.
  unfold processObject.
  pose proof (traverse_visit_geometry o (None, 0%nat, 0%nat)) as H.
  destruct (traverse visit o (None, 0%nat, 0%nat)) as [[geo mc] cc].
  simpl in H. subst geo.
  destruct (head (meshes o)) as [g |]; [| reflexivity].
  destruct (normalizeGeometry g) as [g' [| e]]; reflexivity.
Qed.

Lemma head_nil_iff {A : Type} (l : list A) : head l = None <-> l = [].
Proof. destruct l; split; intro H; try reflexivity; discriminate. Qed.

Section Load.

Variable parse : string -> JSError + Object3D.

(** C6, as the code has it.  The promise of [loadFromFile] is rejected
    exactly when the FileReader errors, the parser throws, the parsed
    hierarchy contains no mesh, or [normalizeGeometry] throws on the first
    mesh's geometry.  Without a mesh the error is
    'No mesh found in OBJ file'.  In every rejection case the loader's
    current mesh, the scene and the set of disposed meshes are as before. *)
Theorem loadFromFile_rejections (st : t) (ev : ReadEvent) :
  let st' := (loadFromFile parse st ev).1 in
  let out := (loadFromFile parse st ev).2 in
  ((exists e, out = Rejected e) <->
     (exists e, ev = OnError e) \/
     (exists text e, ev = OnLoad text /\ parse text = inl e) \/
     (exists text o, ev = OnLoad text /\ parse text = inr o /\
                     meshes o = []) \/
     (exists text o g g' e,
        ev = OnLoad text /\ parse text = inr o /\
        head (meshes o) = Some g /\
        normalizeGeometry g = (g', Throw e))) /\
  (forall text o,
     ev = OnLoad text -> parse text = inr o -> meshes o = [] ->
     out = Rejected (Error "No mesh found in OBJ file")) /\
  (forall e, out = Rejected e ->
     currentMesh st' = currentMesh st /\ scene st' = scene st /\
     disposed st' = disposed st).
Proof.
  cbv zeta. unfold loadFromFile.
  destruct ev as [text | err].
  - destruct (parse text) as [perr | o] eqn:Ep.
    + simpl. split; [| split].
      * split; [| intros _; eexists; reflexivity].
        intros _. right; left. exists text, perr.
        split; [reflexivity | exact Ep].
      * intros text' o' H Hp. injection H as <-.
        rewrite Ep in Hp. discriminate.
      * intros e _. repeat split.
    + rewrite processObject_eq.
      destruct (head (meshes o)) as [g |] eqn:Eh.
      * destruct (normalizeGeometry g) as [g' [| e']] eqn:En; simpl.
        -- split; [| split].
           ++ split; [intros (e & He); discriminate |].
              intros [(e & He) | [(t' & e & He & Hp) |
                       [(t' & o' & He & Hp & Hm) |
                        (t' & o' & g0 & g0' & e & He & Hp & Hh & Hn)]]].
              ** discriminate.
              ** injection He as <-. congruence.
              ** injection He as <-. rewrite Ep in Hp. injection Hp as <-.
                 rewrite Hm in Eh. discriminate.
              ** injection He as <-. rewrite Ep in Hp. injection Hp as <-.
                 rewrite Eh in Hh. injection Hh as <-. congruence.
           ++ intros t' o' He Hp Hm. injection He as <-.
              rewrite Ep in Hp. injection Hp as <-.
              rewrite Hm in Eh. discriminate.
           ++ intros e He. discriminate.
        -- split; [| split].
           ++ split; [| intros _; eexists; reflexivity].
              intros _. right; right; right.
              exists text, o, g, g', e'. repeat split; assumption.
           ++ intros t' o' He Hp Hm. injection He as <-.
              rewrite Ep in Hp. injection Hp as <-.
              rewrite Hm in Eh. discriminate.
           ++ intros e _. repeat split.
      * simpl. split; [| split].
        -- split; [| intros _; eexists; reflexivity].
           intros _. right; right; left. exists text, o.
           repeat split; [exact Ep | apply head_nil_iff, Eh].
        -- intros. reflexivity.
        -- intros e _. repeat split.
  - simpl. split; [| split].
    + split; [| intros _; eexists; reflexivity].
      intros _. left. exists err. reflexivity.
    + intros text o H. discriminate.
    + intros e _. repeat split.
Qed.

End Load.

(** C6 as stated fails: the file below is read and parsed without error and
    its hierarchy contains a mesh, yet the promise is rejected, because the
    mesh has no extent and [normalizeGeometry] throws. *)
Lemma loadFromFile_rejects_degenerate_mesh :
  (loadFromFile sampleParse loaderWithMesh (OnLoad degenerateFile)).2
    = Rejected (Error "Invalid scale factor computed") /\
  (forall e, OnLoad degenerateFile <> OnError e) /\
  (forall e, sampleParse degenerateFile <> inl e) /\
  (exists o, sampleParse degenerateFile = inr o /\ meshes o <> []).
Proof.
  split; [vm_compute; reflexivity |].
  split; [intros e H; discriminate |].
  split; [intros e H; vm_compute in H; discriminate |].
  exists degenerateObject. split; [vm_compute; reflexivity |].
  simpl. discriminate.
Qed.

Lemma loadFromFile_rejections_witness :
  currentMesh (loadFromFile sampleParse loaderWithMesh
                            (OnLoad degenerateFile)).1
    = currentMesh loaderWithMesh /\
  scene (loadFromFile sampleParse loaderWithMesh (OnLoad degenerateFile)).1
    = scene loaderWithMesh /\
  disposed (loadFromFile sampleParse loaderWithMesh (OnLoad degenerateFile)).1
    = disposed loaderWithMesh.
Proof.
  apply (proj2 (proj2 (loadFromFile_rejections
                         sampleParse loaderWithMesh (OnLoad degenerateFile)))
               (Error "Invalid scale factor computed")).
  vm_compute. reflexivity.
Defined.

(** A successful load replaces the previous mesh: it leaves the scene and
    its resources are disposed. *)
Example load_replaces_mesh :
  let r := loadFromFile sampleParse loaderWithMesh (OnLoad "segment") in
  (exists m, r.2 = Resolved (Some m) /\ currentMesh r.1 = Some m /\
             mesh_id m = 1%nat) /\
  disposed r.1 = [0%nat] /\
  length (scene r.1) = 2%nat.
Proof.
  vm_compute. split; [| split; reflexivity].
  eexists. repeat split.
Qed.

End LoaderFacts.

(** * Further properties *)

(** ** The grid of VelocityField.generate *)

Lemma inject_nat_nonneg (a : nat) : 0 <= inject_Z (Z.of_nat a).
Proof.
  change 0 with (inject_Z 0). rewrite <- Zle_Qle. lia.
Qed.

Lemma inject_nat_le (a b : nat) :
  (a <= b)%nat -> inject_Z (Z.of_nat a) <= inject_Z (Z.of_nat b).
Proof. intro H. rewrite <- Zle_Qle. lia. Qed.

Lemma inject_nat_pred (a n : nat) :
  (a < n)%nat -> inject_Z (Z.of_nat a) <= inject_Z (Z.of_nat n) - 1.
Proof.
  intro H. change 1 with (inject_Z 1).
  unfold Qminus. rewrite <- inject_Z_opp, <- inject_Z_plus, <- Zle_Qle. lia.
Qed.

(** A fraction [a / m] of a positive [m] with [0 <= a <= m], scaled to the
    interval from -1 to 1. *)
Lemma scaled_fraction (a m : Q) :
  0 < m -> 0 <= a <= m ->
  0 <= a * (1 / m) <= 1 /\ -1 <= -1 + a * ((1 - -1) * (1 / m)) <= 1.
Proof.
  intros Hm [Ha Ham].
  assert (Ht : 0 < 1 / m).
  { unfold Qdiv. rewrite Qmult_1_l. apply Qinv_lt_0_compat, Hm. }
  assert (Hone : m * (1 / m) == 1) by (field; lra).
  assert (H1 : a * (1 / m) <= m * (1 / m))
    by (apply Qmult_le_compat_r; lra).
  assert (H0 : 0 <= a * (1 / m)) by (apply Qmult_le_0_compat; lra).
  rewrite Hone in H1.
  split; [split; assumption |].
  assert (E : a * ((1 - -1) * (1 / m)) == 2 * (a * (1 / m))) by ring.
  rewrite E. split; lra.
Qed.

Module FieldMore.
Import VelocityField VelocityFieldFacts.

Lemma grid_divisor_positive (n : nat) :
  (2 <= n)%nat -> 0 < inject_Z (Z.of_nat n) - 1.
Proof.
  intro Hn. pose proof (inject_nat_pred 1 n Hn) as H.
  change (inject_Z (Z.of_nat 1)) with 1 in H. lra.
Qed.

(** X1.  For a resolution of at least 2 every grid point lies in the box
    from (-1,-1,-1) to (1,1,1); the first cell sits on its minimum corner and
    the last cell on its maximum corner. *)
Theorem grid_points_in_box (n x y z : nat) :
  (2 <= n)%nat -> (x < n)%nat -> (y < n)%nat -> (z < n)%nat ->
  (exists p, gridPoint n x y z = Some p /\ inBox boxMin boxMax p) /\
  (exists p0, gridPoint n 0 0 0 = Some p0 /\ veq p0 boxMin) /\
  (exists p1, gridPoint n (n - 1) (n - 1) (n - 1) = Some p1 /\ veq p1 boxMax).
Proof.
  intros Hn Hx Hy Hz.
  pose proof (grid_divisor_positive n Hn) as Hm.
  split; [| split].
  - eexists. split; [apply gridPoint_some, Hn |].
    unfold inBox; simpl.
    repeat split;
      try apply (scaled_fraction _ _ Hm
                   (conj (inject_nat_nonneg x) (inject_nat_pred x n Hx)));
      try apply (scaled_fraction _ _ Hm
                   (conj (inject_nat_nonneg y) (inject_nat_pred y n Hy)));
      apply (scaled_fraction _ _ Hm
               (conj (inject_nat_nonneg z) (inject_nat_pred z n Hz))).
  - eexists. split; [apply gridPoint_some, Hn |].
    unfold veq; simpl. repeat split; ring.
  - eexists. split; [apply gridPoint_some, Hn |].
    assert (E : inject_Z (Z.of_nat (n - 1)) == inject_Z (Z.of_nat n) - 1).
    { rewrite Nat2Z.inj_sub by lia. change (Z.of_nat 1) with 1%Z.
      unfold Z.sub. rewrite inject_Z_plus, inject_Z_opp. reflexivity. }
    unfold veq; simpl. rewrite E. repeat split; field; lra.
Qed.

Lemma grid_points_in_box_witness :
  exists p, gridPoint 3 2 1 0 = Some p /\ inBox boxMin boxMax p.
Proof.
  apply (proj1 (grid_points_in_box 3 2 1 0 ltac:(lia) ltac:(lia) ltac:(lia)
                                   ltac:(lia))).
Defined.

(** X2.  The grid box of the field is the grid box the velocity pass is
    given, and under it the grid point of cell (x, y, z) has the texture
    coordinate (x, y, z) / (resolution - 1), which lies in the unit cube:
    the velocity pass blends at every grid point. *)
Theorem grid_point_texture_coordinate (n x y z : nat) (p : Vector3) :
  (2 <= n)%nat -> (x < n)%nat -> (y < n)%nat -> (z < n)%nat ->
  gridPoint n x y z = Some p ->
  ParticleSystem.initVelocityUniforms !! "gridMin" = Some (UVector3 boxMin) /\
  ParticleSystem.initVelocityUniforms !! "gridMax" = Some (UVector3 boxMax) /\
  PlaneParticleSystem.initVelocityUniforms !! "gridMin"
    = Some (UVector3 boxMin) /\
  PlaneParticleSystem.initVelocityUniforms !! "gridMax"
    = Some (UVector3 boxMax) /\
  exists c,
    texCoord p boxMin boxMax = Some c /\
    veq c (V3 (inject_Z (Z.of_nat x) / (inject_Z (Z.of_nat n) - 1))
              (inject_Z (Z.of_nat y) / (inject_Z (Z.of_nat n) - 1))
              (inject_Z (Z.of_nat z) / (inject_Z (Z.of_nat n) - 1))) /\
    inUnitCube c /\ insideGrid (Some c) = true.
Proof.
  intros Hn Hx Hy Hz Hp.
  pose proof (grid_divisor_positive n Hn) as Hm.
  rewrite (gridPoint_some n x y z Hn) in Hp. injection Hp as <-.
  split; [reflexivity |]. split; [reflexivity |].
  split; [reflexivity |]. split; [reflexivity |].
  eexists. split; [reflexivity |].
  assert (Hc : veq
    (V3 ((-1 + inject_Z (Z.of_nat x)
               * ((1 - -1) * (1 / (inject_Z (Z.of_nat n) - 1))) - -1)
         / (1 - -1))
        ((-1 + inject_Z (Z.of_nat y)
               * ((1 - -1) * (1 / (inject_Z (Z.of_nat n) - 1))) - -1)
         / (1 - -1))
        ((-1 + inject_Z (Z.of_nat z)
               * ((1 - -1) * (1 / (inject_Z (Z.of_nat n) - 1))) - -1)
         / (1 - -1)))
    (V3 (inject_Z (Z.of_nat x) / (inject_Z (Z.of_nat n) - 1))
        (inject_Z (Z.of_nat y) / (inject_Z (Z.of_nat n) - 1))
        (inject_Z (Z.of_nat z) / (inject_Z (Z.of_nat n) - 1)))).
  { unfold veq; simpl. repeat split; field; lra. }
  split; [exact Hc |].
  assert (Hu : inUnitCube
    (V3 ((-1 + inject_Z (Z.of_nat x)
               * ((1 - -1) * (1 / (inject_Z (Z.of_nat n) - 1))) - -1)
         / (1 - -1))
        ((-1 + inject_Z (Z.of_nat y)
               * ((1 - -1) * (1 / (inject_Z (Z.of_nat n) - 1))) - -1)
         / (1 - -1))
        ((-1 + inject_Z (Z.of_nat z)
               * ((1 - -1) * (1 / (inject_Z (Z.of_nat n) - 1))) - -1)
         / (1 - -1)))).
  { destruct Hc as (Ex & Ey & Ez). unfold inUnitCube.
    simpl in Ex, Ey, Ez |- *. rewrite Ex, Ey, Ez.
    unfold Qdiv at 1 2 3 4 5 6.
    pose proof (scaled_fraction _ _ Hm
                  (conj (inject_nat_nonneg x) (inject_nat_pred x n Hx))) as Fx.
    pose proof (scaled_fraction _ _ Hm
                  (conj (inject_nat_nonneg y) (inject_nat_pred y n Hy))) as Fy.
    pose proof (scaled_fraction _ _ Hm
                  (conj (inject_nat_nonneg z) (inject_nat_pred z n Hz))) as Fz.
    unfold Qdiv in Fx, Fy, Fz. rewrite !Qmult_1_l in Fx, Fy, Fz.
    repeat split; first [apply Fx | apply Fy | apply Fz]. }
  split; [exact Hu |].
  apply ShaderFacts.insideGrid_spec. eexists. split; [reflexivity | exact Hu].
Qed.

Lemma grid_point_texture_coordinate_witness :
  exists p c,
    gridPoint 3 1 1 1 = Some p /\
    texCoord p boxMin boxMax = Some c /\ insideGrid (Some c) = true.
Proof.
  assert (Hq : gridPoint 3 1 1 1
               = Some (V3 (-1 + inject_Z 1 * ((1 - -1) * (1 / (inject_Z 3 - 1))))
                          (-1 + inject_Z 1 * ((1 - -1) * (1 / (inject_Z 3 - 1))))
                          (-1 + inject_Z 1 * ((1 - -1) * (1 / (inject_Z 3 - 1))))))
    by reflexivity.
  destruct (grid_point_texture_coordinate 3 1 1 1 _ ltac:(lia) ltac:(lia)
              ltac:(lia) ltac:(lia) Hq)
    as (_ & _ & _ & _ & c & Hc & _ & _ & Hin).
  eexists. exists c. split; [exact Hq |]. split; [exact Hc | exact Hin].
Defined.

Section Fields.

Variable intersectObject : Mesh -> Vector3 -> Vector3 -> list Q.
Variable sqrt : Q -> Q.

Lemma cellInside_nan (mesh : option Mesh) :
  cellInside intersectObject mesh None = false.
Proof.
  unfold cellInside. destruct mesh as [m |]; [| reflexivity].
  destruct (meshBbox (Some m)); reflexivity.
Qed.

Lemma cellInside_noObstacle (mesh : option Mesh) (pos : option Vector3) :
  noObstacle mesh -> cellInside intersectObject mesh pos = false.
Proof.
  unfold noObstacle, cellInside, meshBbox.
  destruct mesh as [m |]; [| reflexivity].
  destruct (geometry m) as [g |]; [| reflexivity].
  intro H. unfold computeBoundingBox; simpl. rewrite H. simpl.
  destruct pos; reflexivity.
Qed.

(** X3.  Without an obstacle (no mesh, no geometry or no vertices) no cell
    is classified inside: every cell holds the analytic flow of its grid
    point, and with method 'potential' the whole array is the repetition of
    1, 0, 0, 0. *)
Theorem field_without_obstacle (mesh : option Mesh) (n : nat)
        (method : string) :
  noObstacle mesh ->
  let d := generateData intersectObject sqrt n method mesh in
  (forall x y z, (x < n)%nat -> (y < n)%nat -> (z < n)%nat ->
     storedCell d (z * n * n + y * n + x)
     = Some (vec4 (flowVelocity sqrt method (gridPoint n x y z)) 0)) /\
  (method = "potential" ->
   forall j, (j < 4 * (n * n * n))%nat ->
     d !! j = Some (if (j mod 4 =? 0)%nat then 1 else 0)).
Proof.
  intros Hno d. subst d. split.
  - intros x y z Hx Hy Hz.
    change (z * n * n + y * n + x)%nat with (cellIndex n x y z).
    rewrite (generateData_cell intersectObject sqrt n method mesh x y z
                               Hx Hy Hz).
    unfold cellVelocity. rewrite cellInside_noObstacle by exact Hno.
    reflexivity.
  - intros -> j Hj.
    destruct (every_slot_is_a_cell n j Hj)
      as (x & y & z & k & Hx & Hy & Hz & Hk & ->).
    replace (4 * (z * n * n + y * n + x) + k)%nat
      with (cellIndex n x y z * 4 + k)%nat by (unfold cellIndex; lia).
    rewrite (generateData_lookup intersectObject sqrt n "potential" mesh
                                 x y z k Hx Hy Hz Hk).
    unfold cellVelocity. rewrite cellInside_noObstacle by exact Hno.
    replace ((cellIndex n x y z * 4 + k) mod 4)%nat with k
      by (rewrite Nat.add_comm, Nat.Div0.mod_add, Nat.mod_small; lia).
    destruct k as [| [| [| [| k]]]]; try lia; reflexivity.
Qed.

(** X4.  A method that is neither 'potential' nor 'radial' is not refused:
    the generated array is all zeros, whatever the mesh. *)
Theorem field_of_unknown_method (mesh : option Mesh) (n : nat)
        (method : string) :
  method <> "potential" -> method <> "radial" ->
  generateData intersectObject sqrt n method mesh
  = Float32Array (n * n * n * 4).
Proof.
  intros Hp Hr. apply list_eq. intro j.
  destruct (Nat.lt_ge_cases j (4 * (n * n * n))) as [Hj | Hj].
  - unfold Float32Array. rewrite lookup_replicate_2 by lia.
    destruct (every_slot_is_a_cell n j Hj)
      as (x & y & z & k & Hx & Hy & Hz & Hk & ->).
    replace (4 * (z * n * n + y * n + x) + k)%nat
      with (cellIndex n x y z * 4 + k)%nat by (unfold cellIndex; lia).
    rewrite (generateData_lookup intersectObject sqrt n method mesh
                                 x y z k Hx Hy Hz Hk).
    unfold cellVelocity, flowVelocity.
    apply String.eqb_neq in Hp, Hr. rewrite Hp, Hr.
    destruct (cellInside intersectObject mesh (gridPoint n x y z));
      destruct k as [| [| [| [| k]]]]; try lia; reflexivity.
  - rewrite !lookup_ge_None_2; [reflexivity | |].
    + unfold Float32Array. rewrite length_replicate. lia.
    + rewrite generateData_length. lia.
Qed.

(** X5.  Where the square root is exact, the radial flow of a point
    farther than 0.1 from the origin is a unit vector along the position:
    multiplied by the distance it gives the position back. *)
Theorem radial_flow_is_unit (p : Vector3) :
  let l := vlength sqrt p in
  l * l == vx p * vx p + vy p * vy p + vz p * vz p ->
  1 # 10 < l ->
  let v := flowVelocity sqrt "radial" (Some p) in
  vx v * vx v + vy v * vy v + vz v * vz v == 1 /\
  veq (multiplyScalar v l) p.
Proof.
  intros l Hsq Hfar v. subst v. unfold flowVelocity.
  change (String.eqb "radial" "potential") with false.
  change (String.eqb "radial" "radial") with true. cbv iota.
  fold l. apply Qgtb_gt in Hfar as Hb. rewrite Hb.
  unfold normalize. fold l.
  destruct (Qeq_bool l 0) eqn:E.
  - apply Qeq_bool_eq in E. rewrite E in Hfar. discriminate Hfar.
  - assert (Hl : ~ l == 0) by (intro H0; rewrite H0 in Hfar; discriminate).
    unfold veq, divideScalar, multiplyScalar; simpl. split.
    + transitivity ((vx p * vx p + vy p * vy p + vz p * vz p) / (l * l)).
      * field. exact Hl.
      * rewrite <- Hsq. field. exact Hl.
    + repeat split; field; exact Hl.
Qed.

(** X6.  The degenerate resolutions: resolution 0 gives an empty array; at
    resolution 1 the step is infinite and the position of the only cell is
    not a number, so the cell is never classified inside and holds the flow
    of such a position: (1, 0, 0) for 'potential', zero otherwise. *)
Theorem field_of_degenerate_resolution (mesh : option Mesh)
        (method : string) :
  generateData intersectObject sqrt 0 method mesh = [] /\
  gridPoint 1 0 0 0 = None /\
  generateData intersectObject sqrt 1 method mesh
  = (if String.eqb method "potential" then [1; 0; 0; 0] else [0; 0; 0; 0]).
Proof.
  split; [reflexivity |]. split; [reflexivity |].
  unfold generateData, for_upto; simpl.
  unfold writeCell, cellVelocity; simpl.
  change (gridPoint 1 0 0 0) with (@None Vector3).
  rewrite cellInside_nan. unfold flowVelocity.
  destruct (String.eqb method "potential"); [reflexivity |].
  destruct (String.eqb method "radial"); reflexivity.
Qed.

End Fields.

Lemma field_without_obstacle_witness :
  generateData noHit sqrtOnSquares 2 "potential"
               (Some (MkMesh 0 (Some (Geometry [] None)) true []))
    !! 12%nat = Some 1.
Proof.
  apply (proj2 (field_without_obstacle
                  noHit sqrtOnSquares
                  (Some (MkMesh 0 (Some (Geometry [] None)) true []))
                  2 "potential" eq_refl)
               eq_refl 12%nat).
  lia.
Defined.

Lemma field_of_unknown_method_witness :
  generateData oneHitInCube sqrtOnSquares 2 "vortex" (Some cubeMesh)
  = Float32Array 32.
Proof.
  apply (field_of_unknown_method oneHitInCube sqrtOnSquares (Some cubeMesh)
                                 2 "vortex"); discriminate.
Defined.

Lemma radial_flow_is_unit_witness :
  let v := flowVelocity sqrtOnSquares "radial" (Some (V3 3 0 4)) in
  vx v * vx v + vy v * vy v + vz v * vz v == 1 /\
  veq (multiplyScalar v (vlength sqrtOnSquares (V3 3 0 4))) (V3 3 0 4).
Proof.
  apply (radial_flow_is_unit sqrtOnSquares (V3 3 0 4)).
  - vm_compute. reflexivity.
  - vm_compute. reflexivity.
Defined.

End FieldMore.

(** ** More on the compute passes *)

Module PassMore.
Import ShaderFacts.

(** X7.  The randomised lifespan of a particle stays between 90 % and 100 %
    of [maxAge] in the plane-emitter shader and between 80 % and 120 % in the
    emission-shape shader. *)
Theorem lifespan_range (sin : Q -> Q) (uv : Vector2) :
  (forall U : PlaneShaders.PositionUniforms,
     0 <= PlaneShaders.maxAge U ->
     0.9 * PlaneShaders.maxAge U <= PlaneShaders.myMaxAge sin U uv
       <= PlaneShaders.maxAge U) /\
  (forall U : ShapeShaders.PositionUniforms,
     0 <= ShapeShaders.maxAge U ->
     0.8 * ShapeShaders.maxAge U <= ShapeShaders.myMaxAge sin U uv
       <= 1.2 * ShapeShaders.maxAge U).
Proof.
  pose proof (rand_range sin uv) as Hr.
  split; intros U HU.
  - unfold PlaneShaders.myMaxAge. split; nra.
  - unfold ShapeShaders.myMaxAge. split; nra.
Qed.

Lemma lifespan_range_witness :
  0.9 * PlaneShaders.maxAge planePositionUniforms
    <= PlaneShaders.myMaxAge constZero planePositionUniforms (V2 0 0)
    <= PlaneShaders.maxAge planePositionUniforms /\
  0.8 * ShapeShaders.maxAge shapePositionUniforms
    <= ShapeShaders.myMaxAge constZero shapePositionUniforms (V2 0 0)
    <= 1.2 * ShapeShaders.maxAge shapePositionUniforms.
Proof.
  split.
  - apply (proj1 (lifespan_range constZero (V2 0 0)) planePositionUniforms).
    discriminate.
  - apply (proj2 (lifespan_range constZero (V2 0 0)) shapePositionUniforms).
    discriminate.
Defined.

(** The spawn point of the plane emitter lies in a box that holds the
    emitter patch. *)
Lemma plane_spawn_in_box (sin : Q -> Q) (U : PlaneShaders.PositionUniforms)
      (uv : Vector2) :
  let e := PlaneShaders.emitterPos U in
  let lo := PlaneShaders.boundsMin U in
  let hi := PlaneShaders.boundsMax U in
  let w := PlaneShaders.emitterWidth U in
  let h := PlaneShaders.emitterHeight U in
  0 <= ux uv <= 1 -> 0 <= uy uv <= 1 -> 0 <= w -> 0 <= h ->
  vx lo <= vx e -> vx e + 0.05 <= vx hi ->
  vy lo <= vy e - 0.5 * h -> vy e + 0.5 * h + 0.01 <= vy hi ->
  vz lo <= vz e - 0.5 * w -> vz e + 0.5 * w + 0.01 <= vz hi ->
  inBox lo hi (PlaneShaders.spawnPoint sin U uv).
Proof.
  cbv zeta. intros Hu Hv Hw Hh Hx1 Hx2 Hy1 Hy2 Hz1 Hz2.
  unfold PlaneShaders.spawnPoint, inBox; simpl.
  pose proof (rand_range sin (addScalar2 uv (PlaneShaders.time U))).
  pose proof (rand_range sin (addScalar2 uv (PlaneShaders.time U * 1.1))).
  pose proof (rand_range sin (addScalar2 uv (PlaneShaders.time U * 1.2))).
  repeat split; nra.
Qed.

(** X8.  What the position pass of the plane-emitter shader maintains: the
    particle it writes is either at the spawn point with age 0 or inside the
    bounds box with an age below its randomised lifespan.  So with a
    positive [maxAge] every written age is below the lifespan, and if the
    emitter patch lies inside the bounds box every written position does. *)
Theorem plane_position_pass_invariant (sin : Q -> Q)
        (U : PlaneShaders.PositionUniforms)
        (uv : Vector2) (posData velData : Vector4) :
  let out := PlaneShaders.particleComputeShaderPosition
               sin U uv posData velData in
  let e := PlaneShaders.emitterPos U in
  let lo := PlaneShaders.boundsMin U in
  let hi := PlaneShaders.boundsMax U in
  let w := PlaneShaders.emitterWidth U in
  let h := PlaneShaders.emitterHeight U in
  ((xyz out = PlaneShaders.spawnPoint sin U uv /\ pw out = 0) \/
   (inBox lo hi (xyz out) /\ pw out < PlaneShaders.myMaxAge sin U uv)) /\
  (0 < PlaneShaders.maxAge U -> pw out < PlaneShaders.myMaxAge sin U uv) /\
  (0 <= ux uv <= 1 -> 0 <= uy uv <= 1 -> 0 <= w -> 0 <= h ->
   vx lo <= vx e -> vx e + 0.05 <= vx hi ->
   vy lo <= vy e - 0.5 * h -> vy e + 0.5 * h + 0.01 <= vy hi ->
   vz lo <= vz e - 0.5 * w -> vz e + 0.5 * w + 0.01 <= vz hi ->
   inBox lo hi (xyz out)).
Proof.
  cbv zeta.
  assert (Hcases :
    (xyz (PlaneShaders.particleComputeShaderPosition sin U uv posData velData)
       = PlaneShaders.spawnPoint sin U uv /\
     pw (PlaneShaders.particleComputeShaderPosition sin U uv posData velData)
       = 0) \/
    (inBox (PlaneShaders.boundsMin U) (PlaneShaders.boundsMax U)
           (xyz (PlaneShaders.particleComputeShaderPosition
                   sin U uv posData velData)) /\
     pw (PlaneShaders.particleComputeShaderPosition sin U uv posData velData)
       < PlaneShaders.myMaxAge sin U uv)).
  { unfold PlaneShaders.particleComputeShaderPosition, PlaneShaders.respawns.
    set (pos' := advance (xyz posData) (xyz velData) (PlaneShaders.delta U)
                         (PlaneShaders.speedMultiplier U)).
    set (age' := advanceAge (pw posData) (PlaneShaders.delta U)).
    destruct (Qgeb age' (PlaneShaders.myMaxAge sin U uv)
              || outOfBounds pos' (PlaneShaders.boundsMin U)
                             (PlaneShaders.boundsMax U)) eqn:E.
    - left. destruct (PlaneShaders.spawnPoint sin U uv). split; reflexivity.
    - right. apply orb_false_iff in E as [Ea Eb].
      destruct pos' as [a b c]. simpl. split.
      + destruct (outOfBounds_spec (V3 a b c) (PlaneShaders.boundsMin U)
                                   (PlaneShaders.boundsMax U)) as [_ Hn].
        unfold inBox in *.
        destruct (Qlt_le_dec a (vx (PlaneShaders.boundsMin U)));
          [rewrite Hn in Eb; [discriminate | simpl; lra] |].
        destruct (Qlt_le_dec (vx (PlaneShaders.boundsMax U)) a);
          [rewrite Hn in Eb; [discriminate | simpl; lra] |].
        destruct (Qlt_le_dec b (vy (PlaneShaders.boundsMin U)));
          [rewrite Hn in Eb; [discriminate | simpl; lra] |].
        destruct (Qlt_le_dec (vy (PlaneShaders.boundsMax U)) b);
          [rewrite Hn in Eb; [discriminate | simpl; lra] |].
        destruct (Qlt_le_dec c (vz (PlaneShaders.boundsMin U)));
          [rewrite Hn in Eb; [discriminate | simpl; lra] |].
        destruct (Qlt_le_dec (vz (PlaneShaders.boundsMax U)) c);
          [rewrite Hn in Eb; [discriminate | simpl; lra] |].
        simpl. repeat split; assumption.
      + unfold Qgeb in Ea. apply Qle_bool_false in Ea.
        apply Qnot_le_lt. exact Ea. }
  split; [exact Hcases | split].
  - intro Hmax. destruct Hcases as [[_ H0] | [_ Hlt]]; [| exact Hlt].
    rewrite H0.
    pose proof (proj1 (lifespan_range sin uv) U (Qlt_le_weak _ _ Hmax)).
    lra.
  - intros Hu Hv Hw Hh Hx1 Hx2 Hy1 Hy2 Hz1 Hz2.
    destruct Hcases as [[Hs _] | [Hin _]]; [| exact Hin].
    rewrite Hs. apply plane_spawn_in_box; assumption.
Qed.

Lemma plane_position_pass_invariant_witness :
  inBox (V3 (-5) (-5) (-5)) (V3 5 5 5)
        (xyz (PlaneShaders.particleComputeShaderPosition
                constZero planePositionUniforms (V2 (1#2) (1#2))
                (V4 4 0 0 10) (V4 100 0 0 0))).
Proof.
  apply (proj2 (proj2 (plane_position_pass_invariant
                         constZero planePositionUniforms (V2 (1#2) (1#2))
                         (V4 4 0 0 10) (V4 100 0 0 0))));
    vm_compute; try split; discriminate.
Defined.

(** A particle that is not respawned is inside the box and young enough. *)
Lemma kept_particle (age limit : Q) (pos lo hi : Vector3) :
  Qgeb age limit || outOfBounds pos lo hi = false ->
  inBox lo hi pos /\ age < limit.
Proof.
  intro E. apply orb_false_iff in E as [Ea Eb]. split.
  - destruct (outOfBounds_spec pos lo hi) as [_ Hn]. unfold inBox in *.
    destruct (Qlt_le_dec (vx pos) (vx lo));
      [rewrite Hn in Eb; [discriminate | lra] |].
    destruct (Qlt_le_dec (vx hi) (vx pos));
      [rewrite Hn in Eb; [discriminate | lra] |].
    destruct (Qlt_le_dec (vy pos) (vy lo));
      [rewrite Hn in Eb; [discriminate | lra] |].
    destruct (Qlt_le_dec (vy hi) (vy pos));
      [rewrite Hn in Eb; [discriminate | lra] |].
    destruct (Qlt_le_dec (vz pos) (vz lo));
      [rewrite Hn in Eb; [discriminate | lra] |].
    destruct (Qlt_le_dec (vz hi) (vz pos));
      [rewrite Hn in Eb; [discriminate | lra] |].
    repeat split; assumption.
  - unfold Qgeb in Ea. apply Qle_bool_false in Ea.
    apply Qnot_le_lt. exact Ea.
Qed.

(** The point emitter (shape 0) spawns within 0.005 of the emitter. *)
Lemma spawnOffset_point (sin cos sqrt : Q -> Q) (pow : Q -> Q -> Q)
      (length3 : Vector3 -> Q) (normalize3 : Vector3 -> Vector3)
      (U : ShapeShaders.PositionUniforms) (uv : Vector2) :
  ShapeShaders.emissionShape U = 0%Z ->
  within 0.005
         (ShapeShaders.spawnOffset sin cos sqrt pow length3 normalize3 U uv).
Proof.
  intro Hshape. unfold ShapeShaders.spawnOffset. rewrite Hshape. simpl.
  pose proof (rand_range sin (addScalar2 uv (ShapeShaders.time U))).
  pose proof (rand_range sin (addScalar2 uv (ShapeShaders.time U * 1.1))).
  pose proof (rand_range sin (addScalar2 uv (ShapeShaders.time U * 1.2))).
  unfold within; simpl. repeat split; lra.
Qed.

(** X9.  The position pass of the emission-shape shader maintains the same:
    the written particle is at the spawn point with age 0 or inside the
    bounds box and younger than its lifespan; with a positive [maxAge] every
    written age is below the lifespan; and if the emitter keeps a margin of
    0.005 and of the emission radius to every face of the bounds box, every
    written position is inside the box (for built-ins with the ranges of
    the real functions). *)
Theorem shape_position_pass_invariant (sin cos sqrt : Q -> Q)
        (pow : Q -> Q -> Q) (length3 : Vector3 -> Q)
        (normalize3 : Vector3 -> Vector3)
        (U : ShapeShaders.PositionUniforms)
        (uv : Vector2) (posData velData : Vector4) :
  let out := ShapeShaders.particleComputeShaderPosition
               sin cos sqrt pow length3 normalize3 U uv posData velData in
  let sp := ShapeShaders.spawnPoint sin cos sqrt pow length3 normalize3 U uv in
  let limit := ShapeShaders.myMaxAge sin U uv in
  let e := ShapeShaders.emitterPos U in
  let lo := ShapeShaders.boundsMin U in
  let hi := ShapeShaders.boundsMax U in
  let r := ShapeShaders.emissionRadius U in
  ((xyz out = sp /\ pw out = 0) \/
   (inBox lo hi (xyz out) /\ pw out < limit)) /\
  (0 < ShapeShaders.maxAge U -> pw out < limit) /\
  ((forall a, -1 <= cos a <= 1) ->
   (forall a, -1 <= sin a <= 1) ->
   (forall x, 0 <= x < 1 -> 0 <= sqrt x <= 1) ->
   (forall x y, 0 <= x < 1 -> 0 <= pow x y <= 1) ->
   (forall v, within 1 (normalize3 v)) ->
   0 <= r ->
   inBox lo hi (V3 (vx e - r) (vy e - r) (vz e - r)) ->
   inBox lo hi (V3 (vx e + r) (vy e + r) (vz e + r)) ->
   inBox lo hi (V3 (vx e - 0.005) (vy e - 0.005) (vz e - 0.005)) ->
   inBox lo hi (V3 (vx e + 0.005) (vy e + 0.005) (vz e + 0.005)) ->
   inBox lo hi (xyz out)).
Proof.
  cbv zeta.
  set (out := ShapeShaders.particleComputeShaderPosition
                sin cos sqrt pow length3 normalize3 U uv posData velData).
  set (sp := ShapeShaders.spawnPoint sin cos sqrt pow length3 normalize3 U uv).
  assert (Hcases :
    (xyz out = sp /\ pw out = 0) \/
    (inBox (ShapeShaders.boundsMin U) (ShapeShaders.boundsMax U) (xyz out) /\
     pw out < ShapeShaders.myMaxAge sin U uv)).
  { unfold out, ShapeShaders.particleComputeShaderPosition,
      ShapeShaders.respawns.
    set (pos' := advance (xyz posData) (xyz velData) (ShapeShaders.delta U)
                         (ShapeShaders.speedMultiplier U)).
    set (age' := advanceAge (pw posData) (ShapeShaders.delta U)).
    destruct (Qgeb age' (ShapeShaders.myMaxAge sin U uv)
              || outOfBounds pos' (ShapeShaders.boundsMin U)
                             (ShapeShaders.boundsMax U)) eqn:E.
    - left. fold sp. destruct sp. split; reflexivity.
    - right. apply kept_particle in E. destruct pos'. exact E. }
  split; [exact Hcases | split].
  - intro Hmax. destruct Hcases as [[_ H0] | [_ Hlt]]; [| exact Hlt].
    rewrite H0.
    pose proof (proj2 (lifespan_range sin uv) U (Qlt_le_weak _ _ Hmax)).
    lra.
  - intros Hcos Hsin Hsqrt Hpow Hnorm Hr Hlo Hhi Hlo5 Hhi5.
    destruct Hcases as [[Hs _] | [Hin _]]; [| exact Hin].
    rewrite Hs. unfold sp, ShapeShaders.spawnPoint.
    set (off := ShapeShaders.spawnOffset sin cos sqrt pow length3 normalize3
                                         U uv).
    assert (Hoff : within (ShapeShaders.emissionRadius U) off
                   \/ within 0.005 off).
    { destruct (Z.eq_dec (ShapeShaders.emissionShape U) 0%Z) as [E0 | E0].
      - right. apply spawnOffset_point; exact E0.
      - left. apply spawnOffset_within_radius; assumption. }
    unfold inBox, within in *. simpl in *.
    destruct Hoff as [Ho | Ho]; repeat split; lra.
Qed.

Lemma shape_position_pass_invariant_witness :
  inBox (V3 (-2) (-2) (-2)) (V3 2 2 2)
        (xyz (ShapeShaders.particleComputeShaderPosition
                constZero constZero constZero constZero2 zeroLength unitX
                discPositionUniforms (V2 (1#2) (1#2))
                (V4 1 0 0 10) (V4 100 0 0 0))).
Proof.
  apply (proj2 (proj2 (shape_position_pass_invariant
                         constZero constZero constZero constZero2 zeroLength
                         unitX discPositionUniforms (V2 (1#2) (1#2))
                         (V4 1 0 0 10) (V4 100 0 0 0)))).
  - intro a. vm_compute. split; discriminate.
  - intro a. vm_compute. split; discriminate.
  - intros x _. vm_compute. split; discriminate.
  - intros x y _. vm_compute. split; discriminate.
  - intro v. vm_compute. repeat split; discriminate.
  - vm_compute. discriminate.
  - vm_compute. repeat split; discriminate.
  - vm_compute. repeat split; discriminate.
  - vm_compute. repeat split; discriminate.
  - vm_compute. repeat split; discriminate.
Defined.

Lemma Qpower_nat_succ (a : Q) (k : nat) :
  ~ a == 0 -> a ^ Z.of_nat (S k) == a ^ Z.of_nat k * a.
Proof.
  intro Ha. rewrite Nat2Z.inj_succ. unfold Z.succ.
  rewrite Qpower_plus by exact Ha. reflexivity.
Qed.

Lemma mix_towards (a f : Vector3) (b : Q) :
  veq (subVectors (mix a f b) f) (multiplyScalar (subVectors a f) (1 - b)).
Proof. unfold veq; simpl. repeat split; ring. Qed.

(** One velocity pass on a particle that is inside the grid and not newly
    spawned is a blend of what it read. *)
Lemma plane_blend_step (normalize3 : Vector3 -> Vector3)
      (texture3D : Vector3 -> Vector4) (U : PlaneShaders.VelocityUniforms)
      (uv : Vector2) (posData velData : Vector4) (c : Vector3) :
  texCoord (xyz posData) (PlaneShaders.gridMin U) (PlaneShaders.gridMax U)
    = Some c ->
  inUnitCube c ->
  PlaneShaders.vdelta U * 60 * 2 < pw posData ->
  PlaneShaders.particleComputeShaderVelocity normalize3 texture3D U uv
                                             posData velData
  = vec4 (mix (xyz velData) (xyz (texture3D c)) 0.3) 0.
Proof.
  intros Hc Hu Hold.
  unfold PlaneShaders.particleComputeShaderVelocity, PlaneShaders.newlySpawned,
    PlaneShaders.blend.
  assert (Hn : Qle_bool (pw posData) (PlaneShaders.vdelta U * 60 * 2) = false).
  { apply Qle_bool_false. apply Qlt_not_le. exact Hold. }
  rewrite Hn, Hc.
  assert (Hin : insideGrid (Some c) = true)
    by (apply insideGrid_spec; exists c; split; [reflexivity | exact Hu]).
  rewrite Hin. reflexivity.
Qed.

Lemma shape_blend_step (normalize3 : Vector3 -> Vector3)
      (texture3D : Vector3 -> Vector4) (U : ShapeShaders.VelocityUniforms)
      (uv : Vector2) (posData velData : Vector4) (c : Vector3) :
  texCoord (xyz posData) (ShapeShaders.gridMin U) (ShapeShaders.gridMax U)
    = Some c ->
  inUnitCube c ->
  0 < pw posData -> ShapeShaders.vdelta U * 60 * 1.5 <= pw posData ->
  ShapeShaders.particleComputeShaderVelocity normalize3 texture3D U uv
                                             posData velData
  = vec4 (mix (xyz velData) (xyz (texture3D c)) 0.2) 0.
Proof.
  intros Hc Hu Hpos Hold.
  unfold ShapeShaders.particleComputeShaderVelocity, ShapeShaders.newlySpawned,
    ShapeShaders.blend.
  assert (Hn : Qle_bool (pw posData) 0
               || Qltb (pw posData) (ShapeShaders.vdelta U * 60 * 1.5) = false).
  { apply orb_false_iff. split.
    - apply Qle_bool_false. apply Qlt_not_le. exact Hpos.
    - apply Qltb_ge. exact Hold. }
  rewrite Hn, Hc.
  assert (Hin : insideGrid (Some c) = true)
    by (apply insideGrid_spec; exists c; split; [reflexivity | exact Hu]).
  rewrite Hin. reflexivity.
Qed.

(** The same pass run [k] times on the velocity texel of a particle that
    stays where it is. *)
Lemma blend_iterated (pass : Vector4 -> Vector4) (f : Vector3) (b : Q)
      (k : nat) (velData : Vector4) :
  ~ 1 - b == 0 ->
  (forall vd, pass vd = vec4 (mix (xyz vd) f b) 0) ->
  veq (subVectors (xyz (Nat.iter k pass velData)) f)
      (multiplyScalar (subVectors (xyz velData) f) ((1 - b) ^ Z.of_nat k)).
Proof.
  intros Hb Hpass. induction k as [| k IH].
  - change (Z.of_nat 0) with 0%Z. change ((1 - b) ^ 0) with 1.
    change (Nat.iter 0 pass velData) with velData.
    unfold veq. cbn [vx vy vz subVectors multiplyScalar].
    repeat split; ring.
  - rewrite Nat.iter_succ, Hpass.
    destruct IH as (Ix & Iy & Iz).
    set (vk := xyz (Nat.iter k pass velData)) in *.
    pose proof (Qpower_nat_succ (1 - b) k Hb) as Hp.
    unfold veq in *.
    cbn [vx vy vz subVectors multiplyScalar mix xyz vec4 px py pz] in *.
    repeat split.
    + rewrite Hp.
      transitivity ((vx vk - vx f) * (1 - b)); [ring |].
      rewrite Ix. ring.
    + rewrite Hp.
      transitivity ((vy vk - vy f) * (1 - b)); [ring |].
      rewrite Iy. ring.
    + rewrite Hp.
      transitivity ((vz vk - vz f) * (1 - b)); [ring |].
      rewrite Iz. ring.
Qed.

(** X10.  A velocity pass on a particle inside the grid moves its velocity
    towards the sampled field velocity: the difference to the field
    velocity shrinks to 70 % (plane variant) or 80 % (shape variant) of what
    it was, and [k] passes on a particle that stays in place and is not
    newly spawned shrink it to the [k]-th power of that factor, so the
    particle velocity converges to the field velocity. *)
Theorem velocity_pass_converges (normalize3 : Vector3 -> Vector3)
        (texture3D : Vector3 -> Vector4) (uv : Vector2)
        (posData velData : Vector4) (c : Vector3) (k : nat) :
  inUnitCube c ->
  let f := xyz (texture3D c) in
  (forall U : PlaneShaders.VelocityUniforms,
     texCoord (xyz posData) (PlaneShaders.gridMin U) (PlaneShaders.gridMax U)
       = Some c ->
     PlaneShaders.vdelta U * 60 * 2 < pw posData ->
     let pass := PlaneShaders.particleComputeShaderVelocity
                   normalize3 texture3D U uv posData in
     veq (subVectors (xyz (pass velData)) f)
         (multiplyScalar (subVectors (xyz velData) f) 0.7) /\
     veq (subVectors (xyz (Nat.iter k pass velData)) f)
         (multiplyScalar (subVectors (xyz velData) f) (0.7 ^ Z.of_nat k))) /\
  (forall U : ShapeShaders.VelocityUniforms,
     texCoord (xyz posData) (ShapeShaders.gridMin U) (ShapeShaders.gridMax U)
       = Some c ->
     0 < pw posData -> ShapeShaders.vdelta U * 60 * 1.5 <= pw posData ->
     let pass := ShapeShaders.particleComputeShaderVelocity
                   normalize3 texture3D U uv posData in
     veq (subVectors (xyz (pass velData)) f)
         (multiplyScalar (subVectors (xyz velData) f) 0.8) /\
     veq (subVectors (xyz (Nat.iter k pass velData)) f)
         (multiplyScalar (subVectors (xyz velData) f) (0.8 ^ Z.of_nat k))).
Proof.
  intros Hu f. split.
  - intros U Hc Hold pass.
    assert (Hpass : forall vd, pass vd = vec4 (mix (xyz vd) f 0.3) 0).
    { intro vd. apply plane_blend_step; assumption. }
    split.
    + rewrite Hpass.
      destruct (mix_towards (xyz velData) f 0.3) as (Ex & Ey & Ez).
      unfold veq in *.
      cbn [vx vy vz subVectors multiplyScalar xyz vec4 px py pz] in *.
      rewrite Ex, Ey, Ez. repeat split; ring.
    + pose proof (blend_iterated pass f 0.3 k velData) as H.
      assert (E : 1 - 0.3 == 0.7) by reflexivity.
      assert (Ek : (1 - 0.3) ^ Z.of_nat k == 0.7 ^ Z.of_nat k)
        by (rewrite E; reflexivity).
      destruct H as (Hx & Hy & Hz); [discriminate | exact Hpass |].
      unfold veq in *.
      cbn [vx vy vz subVectors multiplyScalar] in *.
      rewrite Hx, Hy, Hz, Ek. repeat split; reflexivity.
  - intros U Hc Hpos Hold pass.
    assert (Hpass : forall vd, pass vd = vec4 (mix (xyz vd) f 0.2) 0).
    { intro vd. apply shape_blend_step; assumption. }
    split.
    + rewrite Hpass.
      destruct (mix_towards (xyz velData) f 0.2) as (Ex & Ey & Ez).
      unfold veq in *.
      cbn [vx vy vz subVectors multiplyScalar xyz vec4 px py pz] in *.
      rewrite Ex, Ey, Ez. repeat split; ring.
    + pose proof (blend_iterated pass f 0.2 k velData) as H.
      assert (E : 1 - 0.2 == 0.8) by reflexivity.
      assert (Ek : (1 - 0.2) ^ Z.of_nat k == 0.8 ^ Z.of_nat k)
        by (rewrite E; reflexivity).
      destruct H as (Hx & Hy & Hz); [discriminate | exact Hpass |].
      unfold veq in *.
      cbn [vx vy vz subVectors multiplyScalar] in *.
      rewrite Hx, Hy, Hz, Ek. repeat split; reflexivity.
Qed.

Lemma velocity_pass_converges_witness :
  let pass := ShapeShaders.particleComputeShaderVelocity
                keepDirection uniformFlow shapeVelocityUniforms
                (V2 (1#2) (1#2)) (V4 0 0 0 100) in
  veq (subVectors (xyz (Nat.iter 3 pass (V4 0 1 0 0))) (V3 1 0 0))
      (multiplyScalar (subVectors (V3 0 1 0) (V3 1 0 0)) (0.8 ^ 3)).
Proof.
  cbv zeta.
  assert (Hu : inUnitCube (V3 ((0 - -1) / (1 - -1)) ((0 - -1) / (1 - -1))
                              ((0 - -1) / (1 - -1))))
    by (vm_compute; repeat split; discriminate).
  refine (proj2 (proj2 (velocity_pass_converges
                          keepDirection uniformFlow (V2 (1#2) (1#2))
                          (V4 0 0 0 100) (V4 0 1 0 0) _ 3 Hu)
                       shapeVelocityUniforms eq_refl _ _)).
  - vm_compute. reflexivity.
  - vm_compute. discriminate.
Defined.

End PassMore.

(** ** The fragment shaders *)

Module FragmentFacts.

Lemma clamp_unit (x : Q) : 0 <= clamp x 0 1 <= 1.
Proof.
  unfold clamp. split.
  - apply Q.min_glb; [apply Q.le_max_r | discriminate].
  - apply Q.le_min_r.
Qed.

Lemma clamp_low (x : Q) : x <= 0 -> clamp x 0 1 == 0.
Proof.
  intro H. unfold clamp. rewrite (Q.max_r x 0 H).
  apply Q.min_l. discriminate.
Qed.

Lemma clamp_high (x : Q) : 1 <= x -> clamp x 0 1 == 1.
Proof.
  intro H. unfold clamp.
  rewrite (Q.max_l x 0) by (eapply Qle_trans; [| exact H]; discriminate).
  apply Q.min_r. exact H.
Qed.

(** Turn the tests of a colour ramp into inequalities and compute. *)
Ltac ramp_cases :=
  repeat match goal with
         | |- context [Qltb ?a ?b] => destruct (Qltb a b) eqn:?
         end;
  repeat match goal with
         | H : Qltb _ _ = true |- _ => apply Qltb_lt in H
         | H : Qltb _ _ = false |- _ => apply Qltb_ge in H
         end;
  unfold veq, mix, Qdiv; cbn [vx vy vz Qinv Qnum Qden];
  repeat split; lra.

Lemma plane_color_range (v : Q) :
  0 <= v <= 1 -> within 1 (PlaneFragment.speedColor v) /\
                 0 <= vx (PlaneFragment.speedColor v) /\
                 0 <= vy (PlaneFragment.speedColor v) /\
                 0 <= vz (PlaneFragment.speedColor v).
Proof.
  intros [H0 H1]. unfold within, PlaneFragment.speedColor. ramp_cases.
Qed.

Lemma shape_color_range (v : Q) :
  0 <= v <= 1 -> within 1 (ShapeFragment.speedColor v) /\
                 0 <= vx (ShapeFragment.speedColor v) /\
                 0 <= vy (ShapeFragment.speedColor v) /\
                 0 <= vz (ShapeFragment.speedColor v).
Proof.
  intros [H0 H1]. unfold within, ShapeFragment.speedColor. ramp_cases.
Qed.

Lemma plane_color_ends (v : Q) :
  (v == 0 -> veq (PlaneFragment.speedColor v) (V3 0 0 1)) /\
  (v == 1 -> veq (PlaneFragment.speedColor v) (V3 1 0 0)).
Proof.
  split; intro H; unfold PlaneFragment.speedColor; ramp_cases.
Qed.

Lemma shape_color_ends (v : Q) :
  (v == 0 -> veq (ShapeFragment.speedColor v) (V3 0.13 0.59 0.95)) /\
  (v == 1 -> veq (ShapeFragment.speedColor v) (V3 0.96 0.26 0.21)).
Proof.
  split; intro H; unfold ShapeFragment.speedColor; ramp_cases.
Qed.

Section Main.

Variable length3 : Vector3 -> Q.
Variable length2 : Vector2 -> Q.

(** X11.  Either fragment shader discards a fragment exactly when it is
    farther than 0.5 from the centre of the point; otherwise it writes an
    opaque colour whose channels all lie between 0 and 1, whatever the
    velocity.  A particle at rest is drawn in the first colour of the ramp
    (blue, resp. light blue) and one at the top of the speed range (3,
    resp. 2) or beyond in the last (red). *)
Theorem fragment_color (vVelocity : Vector3) (vAge : Q)
        (pointCoord : Vector2) :
  let coord := V2 (ux pointCoord - 0.5) (uy pointCoord - 0.5) in
  let plane := PlaneFragment.particleFragmentShader
                 length3 length2 vVelocity vAge pointCoord in
  let shape := ShapeFragment.particleFragmentShader
                 length3 length2 vVelocity vAge pointCoord in
  (0.5 < length2 coord -> plane = None /\ shape = None) /\
  (length2 coord <= 0.5 ->
   exists cp cs,
     plane = Some (V4 (vx cp) (vy cp) (vz cp) 1) /\
     shape = Some (V4 (vx cs) (vy cs) (vz cs) 1) /\
     (0 <= vx cp <= 1 /\ 0 <= vy cp <= 1 /\ 0 <= vz cp <= 1) /\
     (0 <= vx cs <= 1 /\ 0 <= vy cs <= 1 /\ 0 <= vz cs <= 1) /\
     (length3 vVelocity <= 0 ->
      veq cp (V3 0 0 1) /\ veq cs (V3 0.13 0.59 0.95)) /\
     (3 <= length3 vVelocity -> veq cp (V3 1 0 0)) /\
     (2 <= length3 vVelocity -> veq cs (V3 0.96 0.26 0.21))).
Proof.
  cbv zeta.
  unfold PlaneFragment.particleFragmentShader,
    ShapeFragment.particleFragmentShader.
  set (coord := V2 (ux pointCoord - 0.5) (uy pointCoord - 0.5)).
  set (np := clamp (length3 vVelocity / 3) 0 1).
  set (ns := clamp (length3 vVelocity / 2) 0 1).
  split.
  - intro Hfar. apply Qgtb_gt in Hfar. rewrite Hfar. split; reflexivity.
  - intro Hnear.
    assert (Hb : Qgtb (length2 coord) 0.5 = false)
      by (unfold Qgtb; apply Qltb_ge; exact Hnear).
    rewrite Hb.
    exists (PlaneFragment.speedColor np), (ShapeFragment.speedColor ns).
    split; [reflexivity |]. split; [reflexivity |].
    destruct (plane_color_range np (clamp_unit _)) as ((Px & Py & Pz) & P0).
    destruct (shape_color_range ns (clamp_unit _)) as ((Sx & Sy & Sz) & S0).
    split; [lra |]. split; [lra |].
    split; [| split].
    + intro Hrest. split.
      * apply (proj1 (plane_color_ends np)). apply clamp_low.
        unfold Qdiv. cbn [Qinv Qnum Qden]. lra.
      * apply (proj1 (shape_color_ends ns)). apply clamp_low.
        unfold Qdiv. cbn [Qinv Qnum Qden]. lra.
    + intro Hfast. apply (proj2 (plane_color_ends np)). apply clamp_high.
      unfold Qdiv. cbn [Qinv Qnum Qden]. lra.
    + intro Hfast. apply (proj2 (shape_color_ends ns)). apply clamp_high.
      unfold Qdiv. cbn [Qinv Qnum Qden]. lra.
Qed.

End Main.

(** X12.  The colour ramps have no jumps: along the normalised speed every
    channel changes at most 5 times (plane variant) resp. 4 times (shape
    variant) as fast as the speed. *)
Theorem color_ramp_continuous (a b : Q) :
  0 <= a -> a <= b -> b <= 1 ->
  within (5 * (b - a))
         (subVectors (PlaneFragment.speedColor b) (PlaneFragment.speedColor a))
  /\
  within (4 * (b - a))
         (subVectors (ShapeFragment.speedColor b) (ShapeFragment.speedColor a)).
Proof.
  intros H0 Hab H1. split.
  - unfold within, subVectors, PlaneFragment.speedColor. ramp_cases.
  - unfold within, subVectors, ShapeFragment.speedColor. ramp_cases.
Qed.

Lemma fragment_color_witness :
  exists cp cs,
    PlaneFragment.particleFragmentShader
      zeroLength zeroLength2 vzero 0 (V2 0.5 0.5)
    = Some (V4 (vx cp) (vy cp) (vz cp) 1) /\
    ShapeFragment.particleFragmentShader
      zeroLength zeroLength2 vzero 0 (V2 0.5 0.5)
    = Some (V4 (vx cs) (vy cs) (vz cs) 1) /\
    veq cp (V3 0 0 1) /\ veq cs (V3 0.13 0.59 0.95).
Proof.
  destruct (proj2 (fragment_color zeroLength zeroLength2 vzero 0 (V2 0.5 0.5))
                  ltac:(discriminate))
    as (cp & cs & Hp & Hs & _ & _ & Hrest & _).
  exists cp, cs. split; [exact Hp |]. split; [exact Hs |].
  apply Hrest. discriminate.
Defined.

Lemma color_ramp_continuous_witness :
  within (5 * (0.21 - 0.19))
         (subVectors (PlaneFragment.speedColor 0.21)
                     (PlaneFragment.speedColor 0.19)).
Proof.
  apply (proj1 (color_ramp_continuous 0.19 0.21 ltac:(discriminate)
                                      ltac:(discriminate)
                                      ltac:(discriminate))).
Defined.

End FragmentFacts.

(** ** More on the particle systems *)

(** A concrete key that is not in a concrete list of keys. *)
Ltac other_key := refine (bool_decide_unpack _ _); vm_compute; exact I.

Module ParticleSystemMore.

Section Facts.

Variable T : Type.
Variable renderPasses :
  nat -> nat -> gmap string UniformValue -> gmap string UniformValue ->
  nat -> T -> T.

Local Abbreviation update := (ParticleSystem.update T renderPasses).
Local Abbreviation updateP := (PlaneParticleSystem.update T renderPasses).
Local Abbreviation updateParams := (ParticleSystem.updateParams T).
Local Abbreviation updateParamsP := (PlaneParticleSystem.updateParams T).

Lemma update_eq (vf : VelocityField.t) (tex : VelocityField.Data3DTexture)
      (ps : ParticleSystem.t T) (time deltaTime : Q) :
  VelocityField.texture vf = Some tex ->
  let g := ParticleSystem.gpuCompute T ps in
  let current := currentTextureIndex g in
  let pu := frameUniforms current time deltaTime
              (ParticleSystem.positionUniforms T ps) in
  let vu := bindDependencies current
              (<["velocityField" := UField tex]>
                (<["delta" := UNumber (Num deltaTime)]>
                  (<["time" := UNumber (Num time)]>
                    (ParticleSystem.velocityUniforms T ps)))) in
  update vf ps time deltaTime =
  ParticleSystem.System T
    (ParticleSystem.WIDTH T ps) (ParticleSystem.COUNT T ps)
    (GPU (sizeX g) (sizeY g) (flipped current)
         (renderPasses (sizeX g) (sizeY g) pu vu current (renderTargets g)))
    pu vu
    (<["textureVelocity" := UTarget "textureVelocity" (flipped current)]>
      (<["texturePosition" := UTarget "texturePosition" (flipped current)]>
        (ParticleSystem.materialUniforms T ps))).
Proof.
  intro Htex. cbv zeta. unfold ParticleSystem.update. rewrite Htex.
  reflexivity.
Qed.

Lemma updateP_eq (vf : VelocityField.t) (tex : VelocityField.Data3DTexture)
      (ps : PlaneParticleSystem.t T) (time deltaTime : Q) :
  VelocityField.texture vf = Some tex ->
  let g := PlaneParticleSystem.gpuCompute T ps in
  let current := currentTextureIndex g in
  let pu := frameUniforms current time deltaTime
              (PlaneParticleSystem.positionUniforms T ps) in
  let vu := bindDependencies current
              (<["velocityField" := UField tex]>
                (<["delta" := UNumber (Num deltaTime)]>
                  (<["time" := UNumber (Num time)]>
                    (PlaneParticleSystem.velocityUniforms T ps)))) in
  updateP vf ps time deltaTime =
  PlaneParticleSystem.withUniforms T ps
    (GPU (sizeX g) (sizeY g) (flipped current)
         (renderPasses (sizeX g) (sizeY g) pu vu current (renderTargets g)))
    pu vu
    (<["textureVelocity" := UTarget "textureVelocity" (flipped current)]>
      (<["texturePosition" := UTarget "texturePosition" (flipped current)]>
        (PlaneParticleSystem.materialUniforms T ps))).
Proof.
  intro Htex. cbv zeta. unfold PlaneParticleSystem.update. rewrite Htex.
  reflexivity.
Qed.

(** Look a key up in a chain of stores. *)
Ltac chain_lookup :=
  unfold frameUniforms, bindDependencies, initDependencies;
  repeat first
    [ rewrite lookup_insert_eq
    | rewrite lookup_insert_ne by (discriminate || congruence) ];
  try reflexivity.

(** X13.  A frame with a generated field: [update] first stores its time
    and delta in the uniforms of both passes and the field texture in the
    velocity pass, then runs the compute passes, which read the render
    targets of the current index and see those uniforms, and finally shows
    the render targets of the other index, the ones just written.  The
    point size is left alone. *)
Theorem update_runs_frame (vf : VelocityField.t)
        (tex : VelocityField.Data3DTexture)
        (ps : ParticleSystem.t T) (time deltaTime : Q) :
  VelocityField.texture vf = Some tex ->
  let ps' := update vf ps time deltaTime in
  let g := ParticleSystem.gpuCompute T ps in
  let g' := ParticleSystem.gpuCompute T ps' in
  let pu' := ParticleSystem.positionUniforms T ps' in
  let vu' := ParticleSystem.velocityUniforms T ps' in
  let mu' := ParticleSystem.materialUniforms T ps' in
  pu' !! "time" = Some (UNumber (Num time)) /\
  pu' !! "delta" = Some (UNumber (Num deltaTime)) /\
  vu' !! "time" = Some (UNumber (Num time)) /\
  vu' !! "delta" = Some (UNumber (Num deltaTime)) /\
  vu' !! "velocityField" = Some (UField tex) /\
  renderTargets g'
    = renderPasses (sizeX g) (sizeY g) pu' vu' (currentTextureIndex g)
                   (renderTargets g) /\
  currentTextureIndex g' <> currentTextureIndex g /\
  (currentTextureIndex g' < 2)%nat /\
  mu' !! "texturePosition"
    = Some (UTarget "texturePosition" (currentTextureIndex g')) /\
  mu' !! "textureVelocity"
    = Some (UTarget "textureVelocity" (currentTextureIndex g')) /\
  mu' !! "pointSize" = ParticleSystem.materialUniforms T ps !! "pointSize".
Proof.
  intro Htex. cbv zeta. rewrite (update_eq vf tex ps time deltaTime Htex).
  cbv zeta. cbn [ParticleSystem.gpuCompute ParticleSystem.positionUniforms
                 ParticleSystem.velocityUniforms
                 ParticleSystem.materialUniforms
                 currentTextureIndex renderTargets].
  repeat split; try (chain_lookup; fail).
  - unfold flipped.
    destruct (currentTextureIndex (ParticleSystem.gpuCompute T ps));
      simpl; discriminate.
  - unfold flipped.
    destruct (currentTextureIndex (ParticleSystem.gpuCompute T ps));
      simpl; lia.
Qed.

(** What one operation does to the uniforms of a key it does not own. *)
Lemma update_other_position (vf : VelocityField.t) (ps : ParticleSystem.t T)
      (time deltaTime : Q) (k : string) :
  k ∉ frameKeys ->
  ParticleSystem.positionUniforms T (update vf ps time deltaTime) !! k
  = ParticleSystem.positionUniforms T ps !! k.
Proof.
  intro Hk. unfold ParticleSystem.update.
  destruct (VelocityField.texture vf); [| reflexivity].
  cbn [ParticleSystem.compute ParticleSystem.positionUniforms].
  unfold bindDependencies.
  rewrite !lookup_insert_ne; [reflexivity | | | |];
    intros <-; apply Hk; unfold frameKeys; set_solver.
Qed.

Lemma update_other_velocity (vf : VelocityField.t) (ps : ParticleSystem.t T)
      (time deltaTime : Q) (k : string) :
  k ∉ velocityFrameKeys ->
  ParticleSystem.velocityUniforms T (update vf ps time deltaTime) !! k
  = ParticleSystem.velocityUniforms T ps !! k.
Proof.
  intro Hk. unfold ParticleSystem.update.
  destruct (VelocityField.texture vf); [| reflexivity].
  cbn [ParticleSystem.compute ParticleSystem.velocityUniforms].
  unfold bindDependencies.
  rewrite !lookup_insert_ne; [reflexivity | | | | |];
    intros <-; apply Hk; unfold velocityFrameKeys; set_solver.
Qed.

Lemma updateParams_other_position (ps : ParticleSystem.t T) (params : Params)
      (k : string) :
  k ∉ paramKeys ->
  ParticleSystem.positionUniforms T (updateParams ps params) !! k
  = ParticleSystem.positionUniforms T ps !! k.
Proof.
  intro Hk. rewrite ParticleSystemFacts.updateParams_effect.
  cbn [ParticleSystem.positionUniforms]. rewrite !lookup_setOpt.
  assert (H1 : "emissionRadius" <> k) by (intros <-; apply Hk; unfold paramKeys; set_solver).
  assert (H2 : "emissionShape" <> k) by (intros <-; apply Hk; unfold paramKeys; set_solver).
  assert (H3 : "speedMultiplier" <> k) by (intros <-; apply Hk; unfold paramKeys; set_solver).
  assert (H4 : "maxAge" <> k) by (intros <-; apply Hk; unfold paramKeys; set_solver).
  assert (H5 : "emitterPos" <> k) by (intros <-; apply Hk; unfold paramKeys; set_solver).
  repeat match goal with
         | |- context [match ?o with Some _ => _ | None => _ end] =>
             destruct o
         end;
    repeat match goal with
           | |- context [decide ?P] => destruct (decide P)
           end;
    congruence.
Qed.

Lemma updateP_other_position (vf : VelocityField.t)
      (ps : PlaneParticleSystem.t T) (time deltaTime : Q) (k : string) :
  k ∉ frameKeys ->
  PlaneParticleSystem.positionUniforms T (updateP vf ps time deltaTime) !! k
  = PlaneParticleSystem.positionUniforms T ps !! k.
Proof.
  intro Hk. unfold PlaneParticleSystem.update.
  destruct (VelocityField.texture vf); [| reflexivity].
  cbn [PlaneParticleSystem.compute PlaneParticleSystem.positionUniforms
       PlaneParticleSystem.withUniforms].
  unfold bindDependencies.
  rewrite !lookup_insert_ne; [reflexivity | | | |];
    intros <-; apply Hk; unfold frameKeys; set_solver.
Qed.

Lemma updateP_other_velocity (vf : VelocityField.t)
      (ps : PlaneParticleSystem.t T) (time deltaTime : Q) (k : string) :
  k ∉ velocityFrameKeys ->
  PlaneParticleSystem.velocityUniforms T (updateP vf ps time deltaTime) !! k
  = PlaneParticleSystem.velocityUniforms T ps !! k.
Proof.
  intro Hk. unfold PlaneParticleSystem.update.
  destruct (VelocityField.texture vf); [| reflexivity].
  cbn [PlaneParticleSystem.compute PlaneParticleSystem.velocityUniforms
       PlaneParticleSystem.withUniforms].
  unfold bindDependencies.
  rewrite !lookup_insert_ne; [reflexivity | | | | |];
    intros <-; apply Hk; unfold velocityFrameKeys; set_solver.
Qed.

Lemma updateParamsP_other_position (ps : PlaneParticleSystem.t T)
      (params : Params) (k : string) :
  k ∉ planeParamKeys ->
  PlaneParticleSystem.positionUniforms T (updateParamsP ps params) !! k
  = PlaneParticleSystem.positionUniforms T ps !! k.
Proof.
  intro Hk. rewrite ParticleSystemFacts.updateParamsP_effect.
  cbn [PlaneParticleSystem.positionUniforms]. rewrite !lookup_setOpt.
  assert (H1 : "emitterHeight" <> k) by (intros <-; apply Hk; unfold planeParamKeys; set_solver).
  assert (H2 : "emitterWidth" <> k) by (intros <-; apply Hk; unfold planeParamKeys; set_solver).
  assert (H3 : "speedMultiplier" <> k) by (intros <-; apply Hk; unfold planeParamKeys; set_solver).
  assert (H4 : "maxAge" <> k) by (intros <-; apply Hk; unfold planeParamKeys; set_solver).
  assert (H5 : "emitterPos" <> k) by (intros <-; apply Hk; unfold planeParamKeys; set_solver).
  repeat match goal with
         | |- context [match ?o with Some _ => _ | None => _ end] =>
             destruct o
         end;
    repeat match goal with
           | |- context [decide ?P] => destruct (decide P)
           end;
    congruence.
Qed.

Lemma run_other_position (ops : list ParticleSystem.Op) :
  forall (ps : ParticleSystem.t T) (k : string),
    k ∉ frameKeys ->
    (k ∉ paramKeys \/ Forall isUpdate ops) ->
    ParticleSystem.positionUniforms T (ParticleSystem.run T renderPasses ps ops)
      !! k
    = ParticleSystem.positionUniforms T ps !! k.
Proof.
  induction ops as [| o ops IH]; intros ps k Hf Hp; [reflexivity |].
  change (ParticleSystem.run T renderPasses ps (o :: ops))
    with (ParticleSystem.run T renderPasses
            (ParticleSystem.step T renderPasses ps o) ops).
  rewrite IH.
  - destruct o as [vf time dt | params]; simpl.
    + apply update_other_position, Hf.
    + destruct Hp as [Hp | Hall].
      * apply updateParams_other_position, Hp.
      * apply Forall_cons in Hall as [Hu _]. destruct Hu.
  - exact Hf.
  - destruct Hp as [Hp | Hall]; [left; exact Hp | right].
    apply Forall_cons in Hall as [_ Hall]. exact Hall.
Qed.

Lemma run_other_velocity (ops : list ParticleSystem.Op) :
  forall (ps : ParticleSystem.t T) (k : string),
    k ∉ velocityFrameKeys ->
    ParticleSystem.velocityUniforms T (ParticleSystem.run T renderPasses ps ops)
      !! k
    = ParticleSystem.velocityUniforms T ps !! k.
Proof.
  induction ops as [| o ops IH]; intros ps k Hk; [reflexivity |].
  change (ParticleSystem.run T renderPasses ps (o :: ops))
    with (ParticleSystem.run T renderPasses
            (ParticleSystem.step T renderPasses ps o) ops).
  rewrite IH by exact Hk.
  destruct o as [vf time dt | params]; simpl.
  - apply update_other_velocity, Hk.
  - rewrite ParticleSystemFacts.updateParams_effect. reflexivity.
Qed.

Lemma runP_other_position (ops : list PlaneParticleSystem.Op) :
  forall (ps : PlaneParticleSystem.t T) (k : string),
    k ∉ frameKeys ->
    (k ∉ planeParamKeys \/ Forall isUpdateP ops) ->
    PlaneParticleSystem.positionUniforms
      T (PlaneParticleSystem.run T renderPasses ps ops) !! k
    = PlaneParticleSystem.positionUniforms T ps !! k.
Proof.
  induction ops as [| o ops IH]; intros ps k Hf Hp; [reflexivity |].
  change (PlaneParticleSystem.run T renderPasses ps (o :: ops))
    with (PlaneParticleSystem.run T renderPasses
            (PlaneParticleSystem.step T renderPasses ps o) ops).
  rewrite IH.
  - destruct o as [vf time dt | params]; simpl.
    + apply updateP_other_position, Hf.
    + destruct Hp as [Hp | Hall].
      * apply updateParamsP_other_position, Hp.
      * apply Forall_cons in Hall as [Hu _]. destruct Hu.
  - exact Hf.
  - destruct Hp as [Hp | Hall]; [left; exact Hp | right].
    apply Forall_cons in Hall as [_ Hall]. exact Hall.
Qed.

Lemma runP_other_velocity (ops : list PlaneParticleSystem.Op) :
  forall (ps : PlaneParticleSystem.t T) (k : string),
    k ∉ velocityFrameKeys ->
    PlaneParticleSystem.velocityUniforms
      T (PlaneParticleSystem.run T renderPasses ps ops) !! k
    = PlaneParticleSystem.velocityUniforms T ps !! k.
Proof.
  induction ops as [| o ops IH]; intros ps k Hk; [reflexivity |].
  change (PlaneParticleSystem.run T renderPasses ps (o :: ops))
    with (PlaneParticleSystem.run T renderPasses
            (PlaneParticleSystem.step T renderPasses ps o) ops).
  rewrite IH by exact Hk.
  destruct o as [vf time dt | params]; simpl.
  - apply updateP_other_velocity, Hk.
  - rewrite ParticleSystemFacts.updateParamsP_effect. reflexivity.
Qed.

(** X14.  Who may change which uniform, in both variants of the particle
    system.  Over any sequence of [update] and [updateParams] calls a
    position uniform changes only if it is one of the four [update] stores
    or one of the five [updateParams] of that variant may store, and a
    velocity uniform only if [update] stores it; frames alone never change
    a parameter.  So in every state reached from the constructor the bounds
    box, the grid box, the initial direction and the initial speed are the
    ones installed by [initGPU]. *)
Theorem uniform_ownership :
  (forall (ps : ParticleSystem.t T) ops k,
     k ∉ frameKeys -> k ∉ paramKeys ->
     ParticleSystem.positionUniforms
       T (ParticleSystem.run T renderPasses ps ops) !! k
     = ParticleSystem.positionUniforms T ps !! k) /\
  (forall (ps : ParticleSystem.t T) ops k,
     Forall isUpdate ops -> k ∉ frameKeys ->
     ParticleSystem.positionUniforms
       T (ParticleSystem.run T renderPasses ps ops) !! k
     = ParticleSystem.positionUniforms T ps !! k) /\
  (forall (ps : ParticleSystem.t T) ops k,
     k ∉ velocityFrameKeys ->
     ParticleSystem.velocityUniforms
       T (ParticleSystem.run T renderPasses ps ops) !! k
     = ParticleSystem.velocityUniforms T ps !! k) /\
  (forall (ps : PlaneParticleSystem.t T) ops k,
     k ∉ frameKeys -> k ∉ planeParamKeys ->
     PlaneParticleSystem.positionUniforms
       T (PlaneParticleSystem.run T renderPasses ps ops) !! k
     = PlaneParticleSystem.positionUniforms T ps !! k) /\
  (forall (ps : PlaneParticleSystem.t T) ops k,
     Forall isUpdateP ops -> k ∉ frameKeys ->
     PlaneParticleSystem.positionUniforms
       T (PlaneParticleSystem.run T renderPasses ps ops) !! k
     = PlaneParticleSystem.positionUniforms T ps !! k) /\
  (forall (ps : PlaneParticleSystem.t T) ops k,
     k ∉ velocityFrameKeys ->
     PlaneParticleSystem.velocityUniforms
       T (PlaneParticleSystem.run T renderPasses ps ops) !! k
     = PlaneParticleSystem.velocityUniforms T ps !! k) /\
  (forall filled ops,
     let ps := ParticleSystem.run T renderPasses
                 (ParticleSystem.constructor T filled) ops in
     let pu := ParticleSystem.positionUniforms T ps in
     let vu := ParticleSystem.velocityUniforms T ps in
     pu !! "boundsMin" = Some (UVector3 (V3 (-2) (-2) (-2))) /\
     pu !! "boundsMax" = Some (UVector3 (V3 2 2 2)) /\
     vu !! "gridMin" = Some (UVector3 (V3 (-1) (-1) (-1))) /\
     vu !! "gridMax" = Some (UVector3 (V3 1 1 1)) /\
     vu !! "initialDirection" = Some (UVector3 (V3 1 0 0)) /\
     vu !! "initialSpeed" = Some (UNumber (Num 1))) /\
  (forall filled ops,
     let ps := PlaneParticleSystem.run T renderPasses
                 (PlaneParticleSystem.constructor T filled) ops in
     let pu := PlaneParticleSystem.positionUniforms T ps in
     let vu := PlaneParticleSystem.velocityUniforms T ps in
     pu !! "boundsMin" = Some (UVector3 (V3 (-5) (-5) (-5))) /\
     pu !! "boundsMax" = Some (UVector3 (V3 5 5 5)) /\
     vu !! "gridMin" = Some (UVector3 (V3 (-1) (-1) (-1))) /\
     vu !! "gridMax" = Some (UVector3 (V3 1 1 1)) /\
     vu !! "initialDirection" = Some (UVector3 (V3 1 0 0)) /\
     vu !! "initialSpeed" = Some (UNumber (Num 0.5))).
Proof.
  split; [| split; [| split; [| split; [| split; [| split; [| split]]]]]].
  - intros ps ops k Hf Hp. apply run_other_position; [exact Hf | left; exact Hp].
  - intros ps ops k Hall Hf.
    apply run_other_position; [exact Hf | right; exact Hall].
  - intros ps ops k Hk. apply run_other_velocity, Hk.
  - intros ps ops k Hf Hp.
    apply runP_other_position; [exact Hf | left; exact Hp].
  - intros ps ops k Hall Hf.
    apply runP_other_position; [exact Hf | right; exact Hall].
  - intros ps ops k Hk. apply runP_other_velocity, Hk.
  - intros filled ops. cbv zeta.
    repeat split;
      first [ rewrite run_other_position;
              [ reflexivity
              | other_key
              | left; other_key ]
            | rewrite run_other_velocity;
              [ reflexivity | other_key ] ].
  - intros filled ops. cbv zeta.
    repeat split;
      first [ rewrite runP_other_position;
              [ reflexivity
              | other_key
              | left; other_key ]
            | rewrite runP_other_velocity;
              [ reflexivity | other_key ] ].
Qed.

(** X15.  [updateParams] can be called again with the same parameters without
    any further effect, in both variants; so calling it on every input event
    is harmless. *)
Theorem updateParams_idempotent (params : Params) :
  (forall ps : ParticleSystem.t T,
     updateParams (updateParams ps params) params = updateParams ps params) /\
  (forall ps : PlaneParticleSystem.t T,
     updateParamsP (updateParamsP ps params) params = updateParamsP ps params).
Proof.
  split; intro ps.
  - rewrite !ParticleSystemFacts.updateParams_effect.
    cbn [ParticleSystem.WIDTH ParticleSystem.COUNT ParticleSystem.gpuCompute
         ParticleSystem.positionUniforms ParticleSystem.velocityUniforms
         ParticleSystem.materialUniforms].
    f_equal. apply map_eq. intro j. rewrite !lookup_setOpt.
    repeat match goal with
           | |- context [match ?o with Some _ => _ | None => _ end] =>
               destruct o
           end;
      repeat match goal with
             | |- context [decide ?P] => destruct (decide P)
             end;
      congruence.
  - rewrite !ParticleSystemFacts.updateParamsP_effect.
    cbn [PlaneParticleSystem.WIDTH PlaneParticleSystem.COUNT
         PlaneParticleSystem.gpuCompute
         PlaneParticleSystem.positionUniforms
         PlaneParticleSystem.velocityUniforms
         PlaneParticleSystem.materialUniforms
         PlaneParticleSystem.emitterWidth PlaneParticleSystem.emitterHeight
         PlaneParticleSystem.emitterPosX PlaneParticleSystem.emitterPosY
         PlaneParticleSystem.emitterPosZ].
    f_equal; try (destruct (p_emitterPos params); reflexivity).
    apply map_eq. intro j. rewrite !lookup_setOpt.
    repeat match goal with
           | |- context [match ?o with Some _ => _ | None => _ end] =>
               destruct o
           end;
      repeat match goal with
             | |- context [decide ?P] => destruct (decide P)
             end;
      congruence.
Qed.

End Facts.

Lemma update_runs_frame_witness :
  let vf := VelocityField.generate noHit sqrtOnSquares VelocityField.new
                                   None 2 "potential" in
  let ps' := ParticleSystem.update nat countingPasses vf
               (ParticleSystem.constructor nat 0%nat) 1 (1 # 60) in
  ParticleSystem.materialUniforms nat ps' !! "texturePosition"
    = Some (UTarget "texturePosition"
              (currentTextureIndex (ParticleSystem.gpuCompute nat ps'))) /\
  currentTextureIndex (ParticleSystem.gpuCompute nat ps') <> 0%nat.
Proof.
  cbv zeta.
  destruct (update_runs_frame nat countingPasses
              (VelocityField.generate noHit sqrtOnSquares VelocityField.new
                                      None 2 "potential")
              _ (ParticleSystem.constructor nat 0%nat) 1 (1 # 60) eq_refl)
    as (_ & _ & _ & _ & _ & _ & Hflip & _ & Hp & _).
  split; [exact Hp | exact Hflip].
Defined.

Lemma uniform_ownership_witness :
  ParticleSystem.positionUniforms
    nat (ParticleSystem.run nat countingPasses
           (ParticleSystem.constructor nat 0%nat)
           [ParticleSystem.OpUpdateParams zeroParams;
            ParticleSystem.OpUpdate
              (VelocityField.generate noHit sqrtOnSquares VelocityField.new
                                      None 2 "potential") 1 (1 # 60)])
    !! "boundsMax"
  = ParticleSystem.positionUniforms nat (ParticleSystem.constructor nat 0%nat)
    !! "boundsMax" /\
  PlaneParticleSystem.positionUniforms
    nat (PlaneParticleSystem.run nat countingPasses
           (PlaneParticleSystem.constructor nat 0%nat)
           [PlaneParticleSystem.OpUpdate
              (VelocityField.generate noHit sqrtOnSquares VelocityField.new
                                      None 2 "potential") 1 (1 # 60);
            PlaneParticleSystem.OpUpdate
              (VelocityField.generate noHit sqrtOnSquares VelocityField.new
                                      None 2 "potential") 2 (1 # 60)])
    !! "emitterWidth"
  = PlaneParticleSystem.positionUniforms
      nat (PlaneParticleSystem.constructor nat 0%nat) !! "emitterWidth".
Proof.
  destruct (uniform_ownership nat countingPasses)
    as (A & _ & _ & _ & B & _).
  split.
  - apply A; other_key.
  - apply B; [| other_key]. repeat constructor.
Defined.

End ParticleSystemMore.

(** ** The initial textures and the reference coordinates *)

Lemma for_upto_S {S : Type} (n : nat) (body : nat -> S -> S) (s : S) :
  for_upto (Datatypes.S n) body s = body n (for_upto n body s).
Proof.
  unfold for_upto. rewrite seq_S, fold_left_app. reflexivity.
Qed.

Lemma fraction_unit (a n : nat) :
  (a < n)%nat ->
  0 <= inject_Z (Z.of_nat a) / inject_Z (Z.of_nat n) < 1.
Proof.
  intro H.
  assert (Hn : 0 < inject_Z (Z.of_nat n)).
  { change 0 with (inject_Z 0). rewrite <- Zlt_Qlt. lia. }
  split.
  - apply Qle_shift_div_l; [exact Hn |]. rewrite Qmult_0_l.
    apply inject_nat_nonneg.
  - apply Qlt_shift_div_r; [exact Hn |]. rewrite Qmult_1_l.
    rewrite <- Zlt_Qlt. lia.
Qed.

Lemma fraction_injective (a b n : nat) :
  (0 < n)%nat ->
  inject_Z (Z.of_nat a) / inject_Z (Z.of_nat n)
    == inject_Z (Z.of_nat b) / inject_Z (Z.of_nat n) ->
  a = b.
Proof.
  intros Hn H.
  assert (Hn' : ~ inject_Z (Z.of_nat n) == 0).
  { change 0 with (inject_Z 0). rewrite inject_Z_injective. lia. }
  assert (E : inject_Z (Z.of_nat a) == inject_Z (Z.of_nat b)).
  { rewrite <- (Qmult_div_r (inject_Z (Z.of_nat a)) _ Hn'),
            <- (Qmult_div_r (inject_Z (Z.of_nat b)) _ Hn').
    rewrite H. reflexivity. }
  rewrite inject_Z_injective in E. lia.
Qed.

Module TextureFacts.

Lemma Float32Array_length (n : nat) : length (Float32Array n) = n.
Proof. apply length_replicate. Qed.

(** The loop of [initParticles]: vertex [i] is written in iteration [i]. *)
Lemma vertex_loop (f g : nat -> Q) (n : nat) (d0 : list Q) :
  (3 * n <= length d0)%nat ->
  let loop m :=
    for_upto m (fun i positions =>
      <[(i * 3 + 2)%nat := 0]>
        (<[(i * 3 + 1)%nat := g i]>
          (<[(i * 3 + 0)%nat := f i]> positions))) d0 in
  length (loop n) = length d0 /\
  forall i, (i < n)%nat -> storedReference (loop n) i = Some (V3 (f i) (g i) 0).
Proof.
  intros Hlen loop. induction n as [| n IH].
  - split; [reflexivity | intros i Hi; lia].
  - destruct IH as [IHlen IHcell]; [lia |].
    unfold loop in *. rewrite for_upto_S. split.
    + rewrite !length_insert. exact IHlen.
    + intros i Hi. unfold storedReference.
      destruct (Nat.eq_dec i n) as [-> | Hne].
      * replace (3 * n)%nat with (n * 3 + 0)%nat by lia.
        replace (n * 3 + 0 + 1)%nat with (n * 3 + 1)%nat by lia.
        replace (n * 3 + 0 + 2)%nat with (n * 3 + 2)%nat by lia.
        rewrite (list_lookup_insert_ne _ (n * 3 + 2) (n * 3 + 0)) by lia.
        rewrite (list_lookup_insert_ne _ (n * 3 + 1) (n * 3 + 0)) by lia.
        rewrite list_lookup_insert_eq by lia.
        rewrite (list_lookup_insert_ne _ (n * 3 + 2) (n * 3 + 1)) by lia.
        rewrite list_lookup_insert_eq by (rewrite !length_insert; lia).
        rewrite list_lookup_insert_eq by (rewrite !length_insert; lia).
        reflexivity.
      * rewrite !list_lookup_insert_ne by lia.
        apply (IHcell i). lia.
Qed.

(** X18.  The reference coordinates [initParticles] gives the particles of a
    [WIDTH] x [WIDTH] texture.  The particle of column [c] and row [r] reads
    the texture at [(c / WIDTH, r / WIDTH)]; every coordinate lies in
    [0, 1); and two particles never share a coordinate, so every particle
    follows a texel of its own. *)
Theorem reference_coordinates (WIDTH : nat) :
  (0 < WIDTH)%nat ->
  let positions := initParticlePositions WIDTH in
  let w := inject_Z (Z.of_nat WIDTH) in
  length positions = (WIDTH * WIDTH * 3)%nat /\
  (forall c r, (c < WIDTH)%nat -> (r < WIDTH)%nat ->
     storedReference positions (r * WIDTH + c)
     = Some (V3 (inject_Z (Z.of_nat c) / w) (inject_Z (Z.of_nat r) / w) 0)) /\
  (forall i, (i < WIDTH * WIDTH)%nat ->
     exists p, storedReference positions i = Some p /\
               0 <= vx p < 1 /\ 0 <= vy p < 1 /\ vz p = 0) /\
  (forall i j p q, (i < WIDTH * WIDTH)%nat -> (j < WIDTH * WIDTH)%nat ->
     storedReference positions i = Some p ->
     storedReference positions j = Some q ->
     vx p == vx q -> vy p == vy q -> i = j).
Proof.
  intros HW positions w.
  pose proof (Float32Array_length (WIDTH * WIDTH * 3)) as HL.
  destruct (vertex_loop
              (fun i => inject_Z (Z.of_nat (i mod WIDTH)) / w)
              (fun i => inject_Z (Z.of_nat (i / WIDTH)) / w)
              (WIDTH * WIDTH) (Float32Array (WIDTH * WIDTH * 3))
              ltac:(rewrite HL; lia)) as [Hlen Hcell].
  change (length positions = length (Float32Array (WIDTH * WIDTH * 3)))
    in Hlen.
  change (forall i, (i < WIDTH * WIDTH)%nat ->
            storedReference positions i
            = Some (V3 (inject_Z (Z.of_nat (i mod WIDTH)) / w)
                       (inject_Z (Z.of_nat (i / WIDTH)) / w) 0)) in Hcell.
  split; [| split; [| split]].
  - rewrite Hlen. exact HL.
  - intros c r Hc Hr. rewrite Hcell by nia.
    replace ((r * WIDTH + c) mod WIDTH)%nat with c
      by (rewrite Nat.add_comm, Nat.Div0.mod_add;
          symmetry; apply Nat.mod_small, Hc).
    replace ((r * WIDTH + c) / WIDTH)%nat with r
      by (rewrite Nat.add_comm, Nat.div_add by lia;
          rewrite Nat.div_small by exact Hc; reflexivity).
    reflexivity.
  - intros i Hi. eexists. split; [apply Hcell, Hi |].
    cbn [vx vy vz]. repeat split.
    + apply fraction_unit, Nat.mod_upper_bound. lia.
    + apply fraction_unit, Nat.mod_upper_bound. lia.
    + apply fraction_unit, Nat.Div0.div_lt_upper_bound. lia.
    + apply fraction_unit, Nat.Div0.div_lt_upper_bound. lia.
  - intros i j p q Hi Hj Hp Hq Hx Hy.
    rewrite Hcell in Hp by exact Hi. rewrite Hcell in Hq by exact Hj.
    injection Hp as <-. injection Hq as <-. cbn [vx vy] in Hx, Hy.
    apply fraction_injective in Hx; [| exact HW].
    apply fraction_injective in Hy; [| exact HW].
    rewrite (Nat.div_mod_eq i WIDTH), (Nat.div_mod_eq j WIDTH), Hx, Hy.
    reflexivity.
Qed.

Lemma reference_coordinates_witness :
  let positions := initParticlePositions 2 in
  let w := inject_Z (Z.of_nat 2) in
  length positions = 12%nat /\
  (forall c r, (c < 2)%nat -> (r < 2)%nat ->
     storedReference positions (r * 2 + c)
     = Some (V3 (inject_Z (Z.of_nat c) / w) (inject_Z (Z.of_nat r) / w) 0)) /\
  (forall i, (i < 2 * 2)%nat ->
     exists p, storedReference positions i = Some p /\
               0 <= vx p < 1 /\ 0 <= vy p < 1 /\ vz p = 0) /\
  (forall i j p q, (i < 2 * 2)%nat -> (j < 2 * 2)%nat ->
     storedReference positions i = Some p ->
     storedReference positions j = Some q ->
     vx p == vx q -> vy p == vy q -> i = j).
Proof.
  apply (reference_coordinates 2). lia.
Defined.

End TextureFacts.

(** ** More of OBJLoader *)

Module LoaderMore.
Import OBJLoader OBJLoaderOps LoaderFacts.

(** X19.  The traversal of [processObject] visits every object of the
    hierarchy once, a parent before its children: [childCount] grows by the
    number of objects, [meshCount] by the number of meshes, and the geometry
    kept is the one already found or else that of the first mesh. *)
Theorem traversal_counts (o : Object3D) :
  forall geo meshCount childCount,
    traverse visit o (geo, meshCount, childCount)
    = (orElse geo (head (meshes o)),
       (meshCount + length (meshes o))%nat,
       (childCount + nodeCount o)%nat).
Proof.
  induction o as [name mesh children IH] using Object3D_forall_ind.
  intros geo mc cc.
  assert (Hfold : forall geo mc cc,
             fold_left (fun acc c => traverse visit c acc) children
                       (geo, mc, cc)
             = (orElse geo (head (flat_map meshes children)),
                (mc + length (flat_map meshes children))%nat,
                (cc + list_sum (map nodeCount children))%nat)).
  { clear geo mc cc.
    induction IH as [| c cs Hc _ IHcs]; intros geo mc cc; simpl.
    - rewrite !Nat.add_0_r. destruct geo; reflexivity.
    - rewrite Hc, IHcs, orElse_assoc, orElse_head_app, length_app.
      apply (f_equal2 pair); [apply (f_equal2 pair) |];
        try reflexivity; lia. }
  cbn [traverse meshes nodeCount].
  destruct mesh as [g |], geo as [g0 |]; cbn [visit]; rewrite Hfold;
    cbn [orElse app head length];
    (apply (f_equal2 pair); [apply (f_equal2 pair) |]);
    try reflexivity; lia.
Qed.

(** Every vertex lies in the box [setFromPoints] computes. *)
Lemma expandByPoint_contains (b : Box3) (p q : Vector3) :
  p = q \/ containsPoint b q = true ->
  containsPoint (expandByPoint b p) q = true.
Proof.
  intro H. destruct b as [| lo hi].
  - destruct H as [-> | H]; [| discriminate H].
    simpl. apply containsPoint_inBox. unfold inBox. repeat split; lra.
  - simpl expandByPoint. apply containsPoint_inBox. unfold inBox. simpl.
    destruct H as [-> | H].
    + repeat split;
        first [apply Q.le_min_r | apply Q.le_max_r].
    + apply containsPoint_inBox in H.
      destruct H as ((H1 & H2) & (H3 & H4) & (H5 & H6)).
      repeat split;
        first [ eapply Qle_trans; [apply Q.le_min_l | eassumption]
              | eapply Qle_trans; [eassumption | apply Q.le_max_l] ].
Qed.

Lemma fold_expand_contains (ps : list Vector3) :
  forall (b : Box3) (q : Vector3),
    In q ps \/ containsPoint b q = true ->
    containsPoint (fold_left expandByPoint ps b) q = true.
Proof.
  induction ps as [| p ps IH]; intros b q H; simpl.
  - destruct H as [[] | H]. exact H.
  - apply IH. destruct H as [[-> | H] | H].
    + right. apply expandByPoint_contains. left. reflexivity.
    + left. exact H.
    + right. apply expandByPoint_contains. right. exact H.
Qed.

Lemma setFromPoints_contains (ps : list Vector3) (q : Vector3) :
  In q ps -> containsPoint (setFromPoints ps) q = true.
Proof. intro H. apply fold_expand_contains. left. exact H. Qed.

(** A box centred at the origin whose largest dimension is 1 lies in the
    cube of side 1 around the origin. *)
Lemma centred_unit_box (ps : list Vector3) :
  veq (getCenter (setFromPoints ps)) vzero ->
  maxDim (getSize (setFromPoints ps)) == 1 ->
  Forall (within (1 # 2)) ps.
Proof.
  intros Hc Hd. apply Forall_forall. intros q Hq.
  apply list_elem_of_In, setFromPoints_contains in Hq.
  destruct (setFromPoints ps) as [| lo hi]; [discriminate Hq |].
  apply containsPoint_inBox in Hq.
  destruct Hq as ((H1 & H2) & (H3 & H4) & (H5 & H6)).
  destruct Hc as (Cx & Cy & Cz). simpl in Cx, Cy, Cz.
  unfold maxDim in Hd. simpl in Hd.
  pose proof (Q.le_max_l (Qmax (vx hi - vx lo) (vy hi - vy lo))
                         (vz hi - vz lo)) as M1.
  pose proof (Q.le_max_r (Qmax (vx hi - vx lo) (vy hi - vy lo))
                         (vz hi - vz lo)) as M2.
  pose proof (Q.le_max_l (vx hi - vx lo) (vy hi - vy lo)) as M3.
  pose proof (Q.le_max_r (vx hi - vx lo) (vy hi - vy lo)) as M4.
  rewrite Hd in M1, M2.
  unfold within. repeat split; lra.
Qed.

Lemma normalized_vertices (g g' : BufferGeometry) :
  normalizeGeometry g = (g', Normal) ->
  Forall (within (1 # 2)) (position g').
Proof.
  rewrite NormalizeFacts.normalizeGeometry_eq. cbv zeta.
  destruct (Qeq_bool (extent g) 0) eqn:E; [discriminate |].
  apply Qeq_bool_neq in E. intro H. injection H as <-.
  destruct (NormalizeFacts.normalized_box g E) as [Hc Hd].
  apply centred_unit_box; assumption.
Qed.

Section Load.

Variable parse : string -> JSError + Object3D.

(** X20.  What a resolved load leaves.  The promise resolves only after the
    file was read and parsed and the first mesh of the hierarchy was
    normalised; it resolves with the loader's new current mesh, a freshly
    constructed visible mesh with the wireframe child, whose vertices all
    lie in the cube of side 1 around the origin; the mesh is the last object
    of the scene and the load counter has advanced by one. *)
Theorem load_success (st st' : t) (ev : ReadEvent) (r : option Mesh) :
  loadFromFile parse st ev = (st', Resolved r) ->
  exists text o g0 g,
    ev = OnLoad text /\ parse text = inr o /\
    head (meshes o) = Some g0 /\ normalizeGeometry g0 = (g, Normal) /\
    let m := MkMesh (nextObjectId st) (Some g) true ["wireframe"] in
    r = Some m /\ currentMesh st' = Some m /\
    Forall (within (1 # 2)) (position g) /\
    last (scene st') = Some (ChildMesh m) /\
    loadId st' = S (loadId st) /\
    nextObjectId st' = S (nextObjectId st).
Proof.
  unfold loadFromFile. destruct ev as [text | err]; [| discriminate].
  destruct (parse text) as [perr | o] eqn:Ep; [discriminate |].
  rewrite processObject_eq.
  destruct (head (meshes o)) as [g0 |] eqn:Eh; [| discriminate].
  destruct (normalizeGeometry g0) as [g [| e]] eqn:En; [| discriminate].
  intro H. injection H as <- <-.
  exists text, o, g0, g. cbv zeta.
  repeat split; try reflexivity; try assumption.
  - unfold setMesh, newMesh, bumpLoadId. simpl.
    destruct (currentMesh st); reflexivity.
  - unfold setMesh, newMesh, bumpLoadId. simpl.
    destruct (currentMesh st); reflexivity.
  - eapply normalized_vertices, En.
  - unfold setMesh, newMesh, bumpLoadId. simpl.
    destruct (currentMesh st); simpl; apply last_snoc.
  - unfold setMesh, newMesh, bumpLoadId. simpl.
    destruct (currentMesh st); reflexivity.
  - unfold setMesh, newMesh, bumpLoadId. simpl.
    destruct (currentMesh st); reflexivity.
Qed.

Lemma filter_others (id : nat) (names : list string) :
  filter (fun c => negb (isMeshWithId id c)) (map ChildOther names)
  = map ChildOther names.
Proof.
  induction names as [| n names IH]; [reflexivity |].
  simpl. rewrite filter_cons_True by exact I. rewrite IH. reflexivity.
Qed.

Lemma setMesh_invariant (names : list string) (st : t) (g : BufferGeometry) :
  loaderInvariant names st ->
  loaderInvariant names (setMesh (newMesh st g).1 (newMesh st g).2).
Proof.
  intros (Hs & Hd & Hw). unfold loaderInvariant, currentList in *.
  unfold setMesh, newMesh. cbn [fst snd currentMesh scene disposed
                                 nextObjectId mesh_id geometry mesh_visible
                                 mesh_children].
  destruct (currentMesh st) as [old |];
    cbn [scene disposed currentMesh nextObjectId map mesh_id mesh_children
         app].
  - rewrite Hs, filter_app, filter_others. simpl.
    rewrite filter_cons_False, filter_nil, app_nil_r.
    + repeat split.
      * change (0%nat :: seq 1 (nextObjectId st))
          with (seq 0 (S (nextObjectId st))).
        simpl in Hd. rewrite Hd, seq_S. reflexivity.
      * repeat constructor.
    + simpl. rewrite Nat.eqb_refl. simpl. tauto.
  - simpl in Hs, Hd. rewrite app_nil_r in Hs, Hd. rewrite Hs.
    repeat split.
    + change (disposed st ++ [nextObjectId st]
              = seq 0 (S (nextObjectId st))).
      rewrite Hd, seq_S. reflexivity.
    + repeat constructor.
Qed.

Lemma bumpLoadId_invariant (names : list string) (st : t) :
  loaderInvariant names st -> loaderInvariant names (bumpLoadId st).
Proof. intro H. exact H. Qed.

Lemma toggleVisibility_invariant (names : list string) (st : t) (v : bool) :
  loaderInvariant names st -> loaderInvariant names (toggleVisibility st v).
Proof.
  intros (Hs & Hd & Hw). unfold loaderInvariant, currentList in *.
  unfold toggleVisibility.
  destruct (currentMesh st) as [m |] eqn:Em;
    [| rewrite Em; repeat split; assumption].
  cbn [scene disposed currentMesh nextObjectId].
  rewrite Hs, map_app. repeat split.
  - f_equal.
    + rewrite map_map. apply map_ext. reflexivity.
    + simpl. rewrite Nat.eqb_refl. reflexivity.
  - exact Hd.
  - inversion Hw; subst. repeat constructor. assumption.
Qed.

Lemma step_invariant (names : list string) (st : t) (o : Op) :
  loaderInvariant names st -> loaderInvariant names (step parse st o).
Proof.
  intro H. destruct o as [ev | sphere | v | enabled]; cbn [step].
  - apply bumpLoadId_invariant in H. unfold loadFromFile.
    destruct ev as [text | err]; [| exact H].
    destruct (parse text) as [perr | o]; [exact H |].
    rewrite processObject_eq.
    destruct (head (meshes o)) as [g0 |]; [| exact H].
    destruct (normalizeGeometry g0) as [g [| e]]; [| exact H].
    apply setMesh_invariant, H.
  - apply (setMesh_invariant names st sphere), H.
  - apply toggleVisibility_invariant, H.
  - exact H.
Qed.

Lemma step_loadId (st : t) (o : Op) :
  loadId (step parse st o)
  = (loadId st + (if isLoad o then 1 else 0))%nat.
Proof.
  destruct o as [ev | sphere | v | enabled]; cbn [step isLoad].
  - unfold loadFromFile.
    destruct ev as [text | err]; [| simpl; lia].
    destruct (parse text) as [perr | o]; [simpl; lia |].
    rewrite processObject_eq.
    destruct (head (meshes o)) as [g0 |]; [| simpl; lia].
    destruct (normalizeGeometry g0) as [g [| e]]; [| simpl; lia].
    unfold setMesh, newMesh. simpl.
    destruct (currentMesh st); simpl; lia.
  - unfold createDefaultSphere, setMesh, newMesh. simpl.
    destruct (currentMesh st); simpl; lia.
  - unfold toggleVisibility. destruct (currentMesh st); simpl; lia.
  - simpl. lia.
Qed.

(** X21.  The loader keeps its scene tidy.  Over any sequence of loads
    (successful or not), default spheres, visibility toggles and debug
    switches, starting from a scene of other objects: the scene holds those
    objects in their order followed by the current mesh, if there is one,
    and no other mesh; every mesh constructed so far is either the current
    one or has been disposed, each exactly once and in the order of
    construction; the current mesh carries exactly its wireframe child; and
    [loadId] counts the loads. *)
Theorem loader_invariant (names : list string) (ops : list Op) :
  let st := run parse (new (map ChildOther names)) ops in
  scene st = map ChildOther names ++ map ChildMesh (currentList st) /\
  disposed st ++ map mesh_id (currentList st) = seq 0 (nextObjectId st) /\
  Forall (fun m => mesh_children m = ["wireframe"]) (currentList st) /\
  loadId st = length (List.filter isLoad ops).
Proof.
  cbv zeta.
  induction ops as [| o ops IH] using rev_ind.
  - simpl. rewrite app_nil_r. repeat split. constructor.
  - unfold run in *. rewrite fold_left_app. cbn [fold_left].
    destruct IH as (Hs & Hd & Hw & Hl).
    destruct (step_invariant names _ o (conj Hs (conj Hd Hw)))
      as (Hs' & Hd' & Hw').
    repeat split; try assumption.
    rewrite step_loadId, Hl, List.filter_app, length_app.
    cbn [List.filter]. destruct (isLoad o); simpl; lia.
Qed.

End Load.

Lemma load_success_witness :
  exists text o g0 g,
    OnLoad "segment" = OnLoad text /\ sampleParse text = inr o /\
    head (meshes o) = Some g0 /\ normalizeGeometry g0 = (g, Normal) /\
    let m := MkMesh (nextObjectId loaderWithMesh) (Some g) true
                    ["wireframe"] in
    (loadFromFile sampleParse loaderWithMesh (OnLoad "segment")).2
      = Resolved (Some m) /\
    currentMesh (loadFromFile sampleParse loaderWithMesh
                              (OnLoad "segment")).1 = Some m /\
    Forall (within (1 # 2)) (position g).
Proof.
  destruct (load_success sampleParse loaderWithMesh
              (loadFromFile sampleParse loaderWithMesh (OnLoad "segment")).1
              (OnLoad "segment")
              (currentMesh (loadFromFile sampleParse loaderWithMesh
                                         (OnLoad "segment")).1))
    as (text & o & g0 & g & H1 & H2 & H3 & H4 & H5 & H6 & H7 & _).
  - vm_compute. reflexivity.
  - exists text, o, g0, g. cbv zeta.
    repeat split; try assumption.
    rewrite <- H5. vm_compute. reflexivity.
Defined.

End LoaderMore.

(** ** The application *)

Module AppFacts.
Import OBJLoader LoaderFacts.

Lemma flipped_parity (n : nat) : flipped (n mod 2) = (S n mod 2)%nat.
Proof.
  replace (S n) with (1 + n)%nat by lia.
  rewrite Nat.Div0.add_mod.
  pose proof (Nat.mod_upper_bound n 2 ltac:(lia)) as H.
  destruct (n mod 2)%nat as [| [| k]]; [reflexivity | reflexivity | lia].
Qed.

Lemma last_snoc_default {A : Type} (l : list A) (a d : A) :
  List.last (l ++ [a]) d = a.
Proof. apply List.last_last. Qed.

Section Facts.

Variable intersectObject : Mesh -> Vector3 -> Vector3 -> list Q.
Variable sqrt : Q -> Q.
Variable T : Type.
Variable renderPasses :
  nat -> nat -> gmap string UniformValue -> gmap string UniformValue ->
  nat -> T -> T.
Variable parse : string -> JSError + Object3D.

Local Abbreviation App_t := (App.t T).
Local Abbreviation step := (App.step intersectObject sqrt T renderPasses parse).
Local Abbreviation run := (App.run intersectObject sqrt T renderPasses parse).
Local Abbreviation constructor := (App.constructor intersectObject sqrt T).
Local Abbreviation follows := (fieldFollowsMesh intersectObject sqrt).

(** A load either rejects and keeps the current mesh, or resolves with the
    new current mesh. *)
Lemma loadFromFile_settles (st : t) (ev : ReadEvent) :
  (exists e, (loadFromFile parse st ev).2 = Rejected e /\
             currentMesh (loadFromFile parse st ev).1 = currentMesh st) \/
  (exists m, (loadFromFile parse st ev).2 = Resolved (Some m) /\
             currentMesh (loadFromFile parse st ev).1 = Some m).
Proof.
  unfold loadFromFile.
  destruct ev as [text | err];
    [| left; eexists; split; reflexivity].
  destruct (parse text) as [perr | o];
    [left; eexists; split; reflexivity |].
  rewrite processObject_eq.
  destruct (head (meshes o)) as [g0 |];
    [| left; eexists; split; reflexivity].
  destruct (normalizeGeometry g0) as [g [| e]];
    [| left; eexists; split; reflexivity].
  right. unfold setMesh, newMesh, bumpLoadId. simpl.
  destruct (currentMesh st); simpl; eexists; split; reflexivity.
Qed.

Lemma step_follows (app : App_t) (e : App.Event) :
  follows (App.objLoader T app) (App.velocityField T app) ->
  follows (App.objLoader T (step app e)) (App.velocityField T (step app e)).
Proof.
  intros (m & m0 & res0 & method0 & Hc & Hid & Hg & Hf).
  destruct e as [time | x y z rate life speed | res method
                 | ev res method | visible]; cbn [App.step].
  - exists m, m0, res0, method0. repeat split; assumption.
  - exists m, m0, res0, method0. repeat split; assumption.
  - unfold App.updateField, App.regenerateField.
    cbn [App.objLoader App.velocityField]. rewrite Hc.
    exists m, m, res, method. repeat split; try assumption.
  - unfold App.fileChosen.
    destruct (loadFromFile_settles (App.objLoader T app) ev)
      as [(e & He & Hc') | (m' & He & Hc')];
      destruct (loadFromFile parse (App.objLoader T app) ev)
        as [loader settled]; simpl in He, Hc'; subst settled.
    + cbn [App.objLoader App.velocityField].
      exists m, m0, res0, method0.
      repeat split; try assumption. rewrite Hc'. exact Hc.
    + unfold App.regenerateField. cbn [App.objLoader App.velocityField].
      exists m', m', res, method. repeat split; try assumption.
  - unfold App.toggleVisibility, OBJLoaderOps.toggleVisibility.
    cbn [App.objLoader App.velocityField]. rewrite Hc.
    cbn [currentMesh].
    exists (OBJLoaderOps.setVisible visible m), m0, res0, method0.
    repeat split; assumption.
Qed.

Lemma constructor_follows (filled : T) (sphere : BufferGeometry) (res : nat)
      (method : string) (x y z : Q) (rate life speed : JSNumber) :
  let app := constructor filled sphere res method x y z rate life speed in
  follows (App.objLoader T app) (App.velocityField T app).
Proof.
  cbv zeta. unfold App.constructor, App.updateParticles, App.regenerateField.
  cbn [App.objLoader App.velocityField].
  eexists _, _, res, method. repeat split; reflexivity.
Qed.

Lemma run_snoc (app : App_t) (events : list App.Event) (e : App.Event) :
  run app (events ++ [e]) = step (run app events) e.
Proof. unfold App.run. rewrite fold_left_app. reflexivity. Qed.

Lemma run_follows (app : App_t) (events : list App.Event) :
  follows (App.objLoader T app) (App.velocityField T app) ->
  follows (App.objLoader T (run app events))
          (App.velocityField T (run app events)).
Proof.
  intro H. induction events as [| e events IH] using rev_ind; [exact H |].
  rewrite run_snoc. apply step_follows, IH.
Qed.

Lemma follows_texture (loader : t) (vf : VelocityField.t) :
  follows loader vf -> exists tex, VelocityField.texture vf = Some tex.
Proof.
  intros (m & m0 & res & method & _ & _ & _ & ->). eexists. reflexivity.
Qed.

(** The particle system after one event. *)
Lemma step_particleSystem (app : App_t) (e : App.Event) :
  App.particleSystem T (step app e) =
  match e with
  | App.Animate time =>
      ParticleSystem.update T renderPasses (App.velocityField T app)
        (App.particleSystem T app) (time / 1000)
        ((time - App.lastTime T app) / 1000)
  | App.UpdateParticles x y z rate life speed =>
      ParticleSystem.updateParams T (App.particleSystem T app)
        (App.particleParams x y z rate life speed)
  | _ => App.particleSystem T app
  end.
Proof.
  destruct e as [time | x y z rate life speed | res method
                 | ev res method | visible]; try reflexivity.
  cbn [App.step]. unfold App.fileChosen.
  destruct (loadFromFile parse (App.objLoader T app) ev) as [loader [m | e]];
    reflexivity.
Qed.

Lemma step_lastTime (app : App_t) (e : App.Event) :
  App.lastTime T (step app e) =
  match e with
  | App.Animate time => time
  | _ => App.lastTime T app
  end.
Proof.
  destruct e as [time | x y z rate life speed | res method
                 | ev res method | visible]; try reflexivity.
  cbn [App.step]. unfold App.fileChosen.
  destruct (loadFromFile parse (App.objLoader T app) ev) as [loader [m | e]];
    reflexivity.
Qed.

Lemma frameTimes_snoc (events : list App.Event) (e : App.Event) :
  frameTimes (events ++ [e]) =
  frameTimes events ++ match e with
                         | App.Animate time => [time]
                         | _ => []
                         end.
Proof.
  unfold frameTimes. rewrite flat_map_app. simpl. rewrite app_nil_r.
  reflexivity.
Qed.

Lemma sourcePositions_snoc (events : list App.Event) (e : App.Event) :
  sourcePositions (events ++ [e]) =
  sourcePositions events ++ match e with
                              | App.UpdateParticles x y z _ _ _ => [V3 x y z]
                              | _ => []
                              end.
Proof.
  unfold sourcePositions. rewrite flat_map_app. simpl. rewrite app_nil_r.
  reflexivity.
Qed.

(** X22.  The application always has a field for what it shows.  In every
    state reached from the constructor by frames, parameter changes, field
    changes, file loads (resolved or rejected) and visibility toggles, the
    loader has a current mesh and the velocity field is the one generated
    for that object with its present geometry; so the field texture is
    never missing, no frame is skipped, and the index of the render targets
    shown is the parity of the number of frames.  [lastTime] is the time
    stamp of the last frame. *)
Theorem app_invariant (filled : T) (sphere : BufferGeometry) (res : nat)
        (method : string) (x y z : Q) (rate life speed : JSNumber)
        (events : list App.Event) :
  let app := run (constructor filled sphere res method x y z rate life speed)
                 events in
  follows (App.objLoader T app) (App.velocityField T app) /\
  VelocityField.texture (App.velocityField T app) <> None /\
  currentTextureIndex (ParticleSystem.gpuCompute T (App.particleSystem T app))
    = (length (frameTimes events) mod 2)%nat /\
  App.lastTime T app = List.last (frameTimes events) 0.
Proof.
  cbv zeta.
  set (app0 := constructor filled sphere res method x y z rate life speed).
  assert (Hf : forall evs,
             follows (App.objLoader T (run app0 evs))
                     (App.velocityField T (run app0 evs))).
  { intro evs. apply run_follows, constructor_follows. }
  split; [apply Hf |].
  split.
  { destruct (follows_texture _ _ (Hf events)) as [tex ->]. discriminate. }
  induction events as [| e events IH] using rev_ind.
  - unfold app0, App.run, App.constructor, App.updateParticles.
    cbn [fold_left App.particleSystem App.lastTime App.regenerateField].
    rewrite ParticleSystemFacts.updateParams_effect.
    split; reflexivity.
  - destruct IH as [Hi Ht].
    rewrite run_snoc, frameTimes_snoc, step_particleSystem, step_lastTime.
    destruct (follows_texture _ _ (Hf events)) as [tex Htex].
    destruct e as [time | x' y' z' rate' life' speed' | res' method'
                   | ev res' method' | visible];
      rewrite ?app_nil_r; try (split; assumption).
    + rewrite (ParticleSystemMore.update_eq T renderPasses _ tex _ _ _ Htex).
      cbv zeta. cbn [ParticleSystem.gpuCompute currentTextureIndex].
      rewrite Hi, length_app, Nat.add_1_r, flipped_parity.
      split; [reflexivity |]. symmetry. apply last_snoc_default.
    + rewrite ParticleSystemFacts.updateParams_effect.
      cbn [ParticleSystem.gpuCompute]. split; assumption.
Qed.

(** The position uniforms after one event, at a key no frame stores. *)
Lemma step_position_uniform (app : App_t) (e : App.Event) (k : string) :
  k ∉ frameKeys ->
  ParticleSystem.positionUniforms T (App.particleSystem T (step app e)) !! k =
  match e with
  | App.UpdateParticles x y z rate life speed =>
      ParticleSystem.positionUniforms
        T (ParticleSystem.updateParams T (App.particleSystem T app)
             (App.particleParams x y z rate life speed)) !! k
  | _ => ParticleSystem.positionUniforms T (App.particleSystem T app) !! k
  end.
Proof.
  intro Hk. rewrite step_particleSystem.
  destruct e as [time | x y z rate life speed | res method
                 | ev res method | visible]; try reflexivity.
  apply ParticleSystemMore.update_other_position, Hk.
Qed.

(** X23.  What the application can and cannot set.  In every state reached
    from the constructor, the emission shape is 0 and the emission radius
    0.2 as [initGPU] stored them: [updateParticles] never passes them, so
    respawned particles always start at the emitter point.  The emitter
    position is the source position of the latest [updateParticles] call,
    the constructor's included. *)
Theorem app_point_emission (filled : T) (sphere : BufferGeometry) (res : nat)
        (method : string) (x y z : Q) (rate life speed : JSNumber)
        (events : list App.Event) :
  let app := run (constructor filled sphere res method x y z rate life speed)
                 events in
  let pu := ParticleSystem.positionUniforms T (App.particleSystem T app) in
  pu !! "emissionShape" = Some (UNumber (Num 0)) /\
  pu !! "emissionRadius" = Some (UNumber (Num 0.2)) /\
  pu !! "emitterPos"
    = Some (UVector3 (List.last (sourcePositions events) (V3 x y z))).
Proof.
  cbv zeta.
  induction events as [| e events IH] using rev_ind.
  - unfold App.run, App.constructor, App.updateParticles. simpl.
    rewrite ParticleSystemFacts.updateParams_effect.
    cbn [ParticleSystem.positionUniforms App.particleParams
         p_emitterPos p_lifespan p_speedMultiplier p_emissionShape
         p_emissionRadius fmap option_fmap option_map].
    rewrite !lookup_setOpt.
    repeat split;
      repeat match goal with
             | |- context [truthyOnly ?o] => destruct (truthyOnly o)
             end;
      repeat match goal with
             | |- context [decide ?P] =>
                 destruct (decide P); try discriminate
             end;
      try reflexivity; try congruence.
  - destruct IH as (H1 & H2 & H3).
    rewrite run_snoc, sourcePositions_snoc.
    rewrite !step_position_uniform by other_key.
    destruct e as [time | x' y' z' rate' life' speed' | res' method'
                   | ev res' method' | visible];
      rewrite ?app_nil_r; try (repeat split; assumption).
    rewrite ParticleSystemFacts.updateParams_effect.
    cbn [ParticleSystem.positionUniforms App.particleParams
         p_emitterPos p_lifespan p_speedMultiplier p_emissionShape
         p_emissionRadius fmap option_fmap option_map].
    rewrite !lookup_setOpt, last_snoc_default.
    repeat split;
      repeat match goal with
             | |- context [truthyOnly ?o] => destruct (truthyOnly o)
             end;
      repeat match goal with
             | |- context [decide ?P] =>
                 destruct (decide P); try discriminate
             end;
      try reflexivity; try assumption; try congruence.
Qed.

(** X24.  The clock of the simulation.  A frame with time stamp [time]
    (milliseconds) hands both compute passes the time [time / 1000] and, as
    step, the time since the previous frame, or since time 0 for the first
    frame, in seconds; the velocity pass samples the field of the current
    mesh.  Events between two frames do not change the step. *)
Theorem app_frame_clock (filled : T) (sphere : BufferGeometry) (res : nat)
        (method : string) (x y z : Q) (rate life speed : JSNumber)
        (events : list App.Event) (time : Q) :
  let before := run (constructor filled sphere res method x y z rate life
                                 speed) events in
  let app := step before (App.Animate time) in
  let deltaTime := (time - List.last (frameTimes events) 0) / 1000 in
  let pu := ParticleSystem.positionUniforms T (App.particleSystem T app) in
  let vu := ParticleSystem.velocityUniforms T (App.particleSystem T app) in
  pu !! "time" = Some (UNumber (Num (time / 1000))) /\
  pu !! "delta" = Some (UNumber (Num deltaTime)) /\
  vu !! "time" = Some (UNumber (Num (time / 1000))) /\
  vu !! "delta" = Some (UNumber (Num deltaTime)) /\
  (exists tex,
     VelocityField.texture (App.velocityField T app) = Some tex /\
     vu !! "velocityField" = Some (UField tex)) /\
  follows (App.objLoader T app) (App.velocityField T app).
Proof.
  cbv zeta.
  set (app0 := constructor filled sphere res method x y z rate life speed).
  assert (Hf : follows (App.objLoader T (run app0 events))
                       (App.velocityField T (run app0 events))).
  { apply run_follows, constructor_follows. }
  assert (Hl : App.lastTime T (run app0 events)
               = List.last (frameTimes events) 0).
  { clear Hf. induction events as [| e events IH] using rev_ind;
      [reflexivity |].
    rewrite run_snoc, frameTimes_snoc, step_lastTime.
    destruct e; rewrite ?app_nil_r; try exact IH.
    symmetry. apply last_snoc_default. }
  destruct (follows_texture _ _ Hf) as [tex Htex].
  cbn [App.step]. unfold App.animate.
  cbn [App.particleSystem App.velocityField App.objLoader].
  rewrite (ParticleSystemMore.update_eq T renderPasses _ tex _ _ _ Htex).
  cbv zeta. cbn [ParticleSystem.positionUniforms
                 ParticleSystem.velocityUniforms].
  rewrite Hl. unfold frameUniforms, bindDependencies.
  repeat split; try exact Hf;
    try (rewrite !lookup_insert_ne by discriminate;
         rewrite lookup_insert_eq; reflexivity);
    try (rewrite !lookup_insert_ne by discriminate;
         rewrite lookup_insert_ne by discriminate;
         rewrite lookup_insert_eq; reflexivity).
  exists tex. split; [exact Htex |].
  rewrite !lookup_insert_ne by discriminate.
  rewrite lookup_insert_eq. reflexivity.
Qed.

End Facts.

End AppFacts.

(** * The computed values *)

(** ** Rounding to nearest is monotone *)

Lemma pow2_pos (e : Z) : 0 < pow2 e.
Proof. apply Qpower_0_lt. reflexivity. Qed.

Lemma pow2_le (n m : Z) : (n <= m)%Z -> pow2 n <= pow2 m.
Proof. intro H. apply Qpower_le_compat_l; [exact H | discriminate]. Qed.

Lemma pow2_plus (n m : Z) : pow2 (n + m) == pow2 n * pow2 m.
Proof. apply Qpower_plus. discriminate. Qed.

Lemma pow2_inject (n : Z) : (0 <= n)%Z -> pow2 n == inject_Z (2 ^ n).
Proof. intro H. unfold pow2. rewrite Zpower_Qpower by exact H. reflexivity. Qed.

Lemma Qnum_pos (a : Q) : 0 < a -> (0 < Qnum a)%Z.
Proof. unfold Qlt. simpl. lia. Qed.

Lemma Q_as_quotient (a : Q) : a * inject_Z (Z.pos (Qden a)) == inject_Z (Qnum a).
Proof.
  destruct a as [n d]. unfold Qeq, Qmult, inject_Z. simpl. lia.
Qed.

Lemma floorLog2_spec (a : Q) :
  0 < a -> pow2 (floorLog2 a) <= a < pow2 (floorLog2 a + 1).
Proof.
  intro Ha. unfold floorLog2.
  set (n := Qnum a). set (d := Z.pos (Qden a)).
  assert (Hn : (0 < n)%Z) by (apply Qnum_pos, Ha).
  assert (Hd : (0 < d)%Z) by reflexivity.
  destruct (Z.log2_spec n Hn) as [Hn1 Hn2].
  destruct (Z.log2_spec d Hd) as [Hd1 Hd2].
  pose proof (Z.log2_nonneg n) as Ln. pose proof (Z.log2_nonneg d) as Ld.
  set (ln := Z.log2 n) in *. set (ld := Z.log2 d) in *.
  pose proof (Q_as_quotient a) as Hq. fold n d in Hq.
  assert (Hlow : pow2 (ln - ld - 1) < a).
  { assert (E : pow2 ln == pow2 (ln - ld - 1) * pow2 (ld + 1)).
    { rewrite <- pow2_plus. replace (ln - ld - 1 + (ld + 1))%Z with ln by lia.
      reflexivity. }
    assert (H1 : pow2 ln <= inject_Z n).
    { rewrite pow2_inject by lia. rewrite <- Zle_Qle. exact Hn1. }
    assert (H2 : inject_Z d < pow2 (ld + 1)).
    { rewrite pow2_inject by lia. rewrite <- Zlt_Qlt.
      replace (ld + 1)%Z with (Z.succ ld) by lia. exact Hd2. }
    pose proof (pow2_pos (ld + 1)) as P1.
    pose proof (pow2_pos (ln - ld - 1)) as P2.
    assert (H3 : a * inject_Z d < a * pow2 (ld + 1)).
    { apply Qmult_lt_l; assumption. }
    apply (Qmult_lt_r _ _ (pow2 (ld + 1)) P1).
    rewrite <- E. eapply Qle_lt_trans; [exact H1 |].
    rewrite <- Hq. exact H3. }
  assert (Hhigh : a < pow2 (ln - ld + 1)).
  { assert (E : pow2 (ln + 1) == pow2 (ln - ld + 1) * pow2 ld).
    { rewrite <- pow2_plus. replace (ln - ld + 1 + ld)%Z with (ln + 1)%Z by lia.
      reflexivity. }
    assert (H1 : inject_Z n < pow2 (ln + 1)).
    { rewrite pow2_inject by lia. rewrite <- Zlt_Qlt.
      replace (ln + 1)%Z with (Z.succ ln) by lia. exact Hn2. }
    assert (H2 : pow2 ld <= inject_Z d).
    { rewrite pow2_inject by lia. rewrite <- Zle_Qle. exact Hd1. }
    pose proof (pow2_pos ld) as P1.
    assert (H3 : a * pow2 ld <= a * inject_Z d).
    { apply Qmult_le_l; assumption. }
    apply (Qmult_lt_r _ _ (pow2 ld) P1).
    rewrite <- E. eapply Qle_lt_trans; [exact H3 |].
    rewrite Hq. exact H1. }
  destruct (Qle_bool (pow2 (ln - ld)) a) eqn:E.
  - apply Qle_bool_iff in E. split; assumption.
  - assert (E' : a < pow2 (ln - ld)).
    { apply Qnot_le_lt. intro H. apply Qle_bool_iff in H. congruence. }
    split.
    + apply Qlt_le_weak. exact Hlow.
    + replace (ln - ld - 1 + 1)%Z with (ln - ld)%Z by lia. exact E'.
Qed.

Lemma floorLog2_le (a b : Q) :
  0 < a -> a <= b -> (floorLog2 a <= floorLog2 b)%Z.
Proof.
  intros Ha Hab.
  assert (Hb : 0 < b) by (eapply Qlt_le_trans; eassumption).
  destruct (floorLog2_spec a Ha) as [A1 A2].
  destruct (floorLog2_spec b Hb) as [B1 B2].
  destruct (Z.le_gt_cases (floorLog2 a) (floorLog2 b)) as [H | H];
    [exact H |].
  exfalso.
  assert (P : pow2 (floorLog2 b + 1) <= pow2 (floorLog2 a))
    by (apply pow2_le; lia).
  lra.
Qed.

Lemma nearestEven_bounds (s : Q) :
  (Qfloor s <= nearestEven s <= Qfloor s + 1)%Z.
Proof.
  unfold nearestEven.
  destruct (Qcompare (s - inject_Z (Qfloor s)) (1 # 2));
    try destruct (Z.even (Qfloor s)); lia.
Qed.

Lemma nearestEven_le (a b : Q) : a <= b -> (nearestEven a <= nearestEven b)%Z.
Proof.
  intro Hab.
  pose proof (Qfloor_resp_le a b Hab) as Hf.
  pose proof (nearestEven_bounds a) as Ba.
  pose proof (nearestEven_bounds b) as Bb.
  destruct (Z.eq_dec (Qfloor a) (Qfloor b)) as [E | NE]; [| lia].
  unfold nearestEven. rewrite <- E.
  destruct (Qcompare_spec (a - inject_Z (Qfloor a)) (1 # 2)) as [Ha | Ha | Ha];
    destruct (Qcompare_spec (b - inject_Z (Qfloor a)) (1 # 2))
      as [Hb | Hb | Hb];
    try destruct (Z.even (Qfloor a)); try lia; exfalso; lra.
Qed.

Lemma nearestEven_grid (s : Q) (m : Z) : s == inject_Z m -> nearestEven s = m.
Proof.
  intro H. unfold nearestEven.
  assert (F : Qfloor s = m).
  { rewrite (Qfloor_comp _ _ H). apply Qfloor_Z. }
  rewrite F.
  destruct (Qcompare_spec (s - inject_Z m) (1 # 2)) as [E | E | E].
  - exfalso. lra.
  - reflexivity.
  - exfalso. lra.
Qed.

Lemma roundGrid_le (k : Z) (a b : Q) : a <= b -> roundGrid k a <= roundGrid k b.
Proof.
  intro Hab. unfold roundGrid.
  pose proof (pow2_pos k) as P.
  apply Qmult_le_compat_r; [| apply Qlt_le_weak, P].
  rewrite <- Zle_Qle. apply nearestEven_le.
  apply Qmult_le_compat_r; [exact Hab |].
  apply Qlt_le_weak, Qinv_lt_0_compat, P.
Qed.

Lemma roundGrid_grid (k : Z) (a : Q) (m : Z) :
  a == inject_Z m * pow2 k -> roundGrid k a == a.
Proof.
  intro H. unfold roundGrid.
  pose proof (pow2_pos k) as P.
  rewrite (nearestEven_grid (a / pow2 k) m).
  - symmetry. exact H.
  - rewrite H. field. lra.
Qed.

Lemma pow2_on_grid (e k : Z) :
  (k <= e)%Z -> pow2 e == inject_Z (2 ^ (e - k)) * pow2 k.
Proof.
  intro H. rewrite <- pow2_inject by lia. rewrite <- pow2_plus.
  replace (e - k + k)%Z with e by lia. reflexivity.
Qed.

Lemma roundGrid_nonneg (k : Z) (a : Q) : 0 <= a -> 0 <= roundGrid k a.
Proof.
  intro Ha.
  assert (E : roundGrid k 0 == 0).
  { apply (roundGrid_grid k 0 0). ring. }
  rewrite <- E. apply roundGrid_le, Ha.
Qed.

Section Format.

Variable prec emin : Z.
Hypothesis prec_pos : (1 <= prec)%Z.

Lemma roundPositive_le (a b : Q) :
  0 < a -> a <= b -> roundPositive prec emin a <= roundPositive prec emin b.
Proof.
  intros Ha Hab.
  assert (Hb : 0 < b) by (eapply Qlt_le_trans; eassumption).
  pose proof (floorLog2_le a b Ha Hab) as He.
  destruct (floorLog2_spec a Ha) as [A1 A2].
  destruct (floorLog2_spec b Hb) as [B1 B2].
  unfold roundPositive, ulpExponent.
  set (ea := floorLog2 a) in *. set (eb := floorLog2 b) in *.
  set (ka := Z.max (ea - (prec - 1)) emin).
  set (kb := Z.max (eb - (prec - 1)) emin).
  destruct (Z.eq_dec ka kb) as [E | NE].
  - rewrite E. apply roundGrid_le, Hab.
  - assert (Hk : (ka < kb)%Z) by lia.
    assert (Hkb : (kb <= eb)%Z) by lia.
    assert (Hka : (ka <= eb)%Z) by lia.
    assert (Hlt : (ea + 1 <= eb)%Z) by lia.
    assert (G1 : a <= pow2 eb).
    { apply Qlt_le_weak. eapply Qlt_le_trans; [exact A2 |].
      apply pow2_le. exact Hlt. }
    apply Qle_trans with (pow2 eb).
    + rewrite <- (roundGrid_grid ka (pow2 eb) _ (pow2_on_grid eb ka Hka)).
      apply roundGrid_le, G1.
    + rewrite <- (roundGrid_grid kb (pow2 eb) _ (pow2_on_grid eb kb Hkb)).
      apply roundGrid_le, B1.
Qed.

Lemma roundPositive_nonneg (a : Q) : 0 <= a -> 0 <= roundPositive prec emin a.
Proof. apply roundGrid_nonneg. Qed.

Lemma Qnum_sign (q : Q) :
  match Qnum q with
  | Z0 => q == 0
  | Z.pos _ => 0 < q
  | Z.neg _ => q < 0
  end.
Proof.
  destruct q as [[| p | p] d]; unfold Qeq, Qlt; simpl; lia.
Qed.

Lemma roundNearestEven_nondecreasing :
  nondecreasing (roundNearestEven prec emin).
Proof.
  intros a b Hab. unfold roundNearestEven.
  pose proof (Qnum_sign a) as Sa. pose proof (Qnum_sign b) as Sb.
  destruct (Qnum a) as [| pa | pa], (Qnum b) as [| pb | pb];
    rewrite ?Qred_correct; try (exfalso; lra).
  - apply Qle_refl.
  - apply roundPositive_nonneg. lra.
  - apply roundPositive_le; assumption.
  - assert (H : 0 <= roundPositive prec emin (- a))
      by (apply roundPositive_nonneg; lra).
    lra.
  - assert (H : 0 <= roundPositive prec emin (- a))
      by (apply roundPositive_nonneg; lra).
    assert (H' : 0 <= roundPositive prec emin b)
      by (apply roundPositive_nonneg; lra).
    lra.
  - assert (H : roundPositive prec emin (- b) <= roundPositive prec emin (- a))
      by (apply roundPositive_le; lra).
    lra.
Qed.

End Format.

Lemma binary64_nondecreasing : nondecreasing binary64.
Proof. apply roundNearestEven_nondecreasing. lia. Qed.

Lemma binary32_nondecreasing : nondecreasing binary32.
Proof. apply roundNearestEven_nondecreasing. lia. Qed.

(** ** Without rounding

    At the rounding [exact] the computed operations, passes and field are
    the ones of the first part. *)

Lemma rounded_operations_exact :
  (forall a b, Rounded.subVectors exact a b = subVectors a b) /\
  (forall a b, Rounded.addVectors exact a b = addVectors a b) /\
  (forall v s, Rounded.multiplyScalar exact v s = multiplyScalar v s) /\
  (forall v s, Rounded.divideScalar exact v s = divideScalar v s) /\
  (forall a b t, Rounded.mix exact a b t = mix a b t) /\
  (forall p lo hi, Rounded.texCoord exact p lo hi = texCoord p lo hi) /\
  (forall sin co, Rounded.rand exact sin co = rand sin co) /\
  (forall p v d s, Rounded.advance exact p v d s = advance p v d s) /\
  (forall a d, Rounded.advanceAge exact a d = advanceAge a d).
Proof. repeat split. Qed.

Lemma rounded_plane_shaders_exact (sin : Q -> Q)
      (normalize3 : Vector3 -> Vector3) (texture3D : Vector3 -> Vector4)
      (uv : Vector2) (posData velData : Vector4) :
  (forall U, RoundedPlaneShaders.particleComputeShaderPosition
               exact sin U uv posData velData
             = PlaneShaders.particleComputeShaderPosition
                 sin U uv posData velData) /\
  (forall U, RoundedPlaneShaders.particleComputeShaderVelocity
               exact normalize3 texture3D U uv posData velData
             = PlaneShaders.particleComputeShaderVelocity
                 normalize3 texture3D U uv posData velData).
Proof. split; intro U; reflexivity. Qed.

Lemma rounded_shape_shaders_exact (sin cos sqrt : Q -> Q) (pow : Q -> Q -> Q)
      (length3 : Vector3 -> Q)
      (normalize3 : Vector3 -> Vector3) (texture3D : Vector3 -> Vector4)
      (uv : Vector2) (posData velData : Vector4) :
  (forall U, RoundedShapeShaders.particleComputeShaderPosition
               exact sin cos sqrt pow length3 normalize3 U uv posData velData
             = ShapeShaders.particleComputeShaderPosition
                 sin cos sqrt pow length3 normalize3 U uv posData velData) /\
  (forall U, RoundedShapeShaders.particleComputeShaderVelocity
               exact normalize3 texture3D U uv posData velData
             = ShapeShaders.particleComputeShaderVelocity
                 normalize3 texture3D U uv posData velData).
Proof. split; intro U; reflexivity. Qed.

Lemma rounded_gridStep_exact (n : nat) :
  RoundedField.gridStep exact n = VelocityField.gridStep n.
Proof.
  unfold RoundedField.gridStep, VelocityField.gridStep, exact.
  destruct (Nat.eqb_spec n 1) as [-> | Hn]; [reflexivity |].
  destruct (Qeq_bool (inject_Z (Z.of_nat n) - 1) 0) eqn:E; [| reflexivity].
  exfalso. apply Qeq_bool_eq in E. apply Hn.
  assert (H : inject_Z (Z.of_nat n) == inject_Z 1)
    by (rewrite <- (Qplus_0_r (inject_Z 1)); rewrite <- E; ring).
  rewrite inject_Z_injective in H. lia.
Qed.

Lemma rounded_gridPoint_exact (n x y z : nat) :
  RoundedField.gridPoint exact n x y z = VelocityField.gridPoint n x y z.
Proof.
  unfold RoundedField.gridPoint, VelocityField.gridPoint.
  rewrite rounded_gridStep_exact. reflexivity.
Qed.

Lemma rounded_generateData_exact
      (intersectObject : Mesh -> Vector3 -> Vector3 -> list Q)
      (sqrt : Q -> Q) (n : nat) (method : string) (mesh : option Mesh) :
  RoundedField.generateData exact exact intersectObject sqrt n method mesh
  = VelocityField.generateData intersectObject sqrt n method mesh.
Proof.
  unfold RoundedField.generateData, VelocityField.generateData.
  rewrite !triple_loop_cells.
  apply fold_left_pointwise. intros a [[z y] x].
  unfold RoundedField.writeCell, VelocityField.writeCell.
  rewrite rounded_gridPoint_exact. reflexivity.
Qed.

(** ** The initial textures as stored *)

Module FillTexturesFacts.
Import FillTextures TextureFacts.

Section Stores.

Variable fl32 : Q -> Q.

Let stored (t : Vector4) : Vector4 :=
  V4 (fl32 (px t)) (fl32 (py t)) (fl32 (pz t)) (fl32 (pw t)).

Lemma writeTexel_length (j : nat) (t : Vector4) (d : list Q) :
  length (writeTexel fl32 j t d) = length d.
Proof. unfold writeTexel. rewrite !length_insert. reflexivity. Qed.

Lemma writeTexel_same (j : nat) (t : Vector4) (d : list Q) :
  (4 * j + 3 < length d)%nat ->
  storedCell (writeTexel fl32 j t d) j = Some (stored t).
Proof.
  intro H. unfold storedCell, writeTexel.
  replace (4 * j)%nat with (j * 4 + 0)%nat by lia.
  replace (j * 4 + 0 + 1)%nat with (j * 4 + 1)%nat by lia.
  replace (j * 4 + 0 + 2)%nat with (j * 4 + 2)%nat by lia.
  replace (j * 4 + 0 + 3)%nat with (j * 4 + 3)%nat by lia.
  rewrite (list_lookup_insert_ne _ (j * 4 + 3) (j * 4 + 0)) by lia.
  rewrite (list_lookup_insert_ne _ (j * 4 + 2) (j * 4 + 0)) by lia.
  rewrite (list_lookup_insert_ne _ (j * 4 + 1) (j * 4 + 0)) by lia.
  rewrite list_lookup_insert_eq by lia.
  rewrite (list_lookup_insert_ne _ (j * 4 + 3) (j * 4 + 1)) by lia.
  rewrite (list_lookup_insert_ne _ (j * 4 + 2) (j * 4 + 1)) by lia.
  rewrite list_lookup_insert_eq by (rewrite !length_insert; lia).
  rewrite (list_lookup_insert_ne _ (j * 4 + 3) (j * 4 + 2)) by lia.
  rewrite list_lookup_insert_eq by (rewrite !length_insert; lia).
  rewrite list_lookup_insert_eq by (rewrite !length_insert; lia).
  reflexivity.
Qed.

Lemma writeTexel_other (i j : nat) (t : Vector4) (d : list Q) :
  i <> j -> storedCell (writeTexel fl32 j t d) i = storedCell d i.
Proof.
  intro H. unfold storedCell, writeTexel.
  rewrite !list_lookup_insert_ne by lia. reflexivity.
Qed.

(** A loop that writes texel [j] in iteration [j] leaves the rounded [f j]
    in texel [j]. *)
Lemma texel_loop (f : nat -> Vector4) (n : nat) (d0 : list Q) :
  (4 * n <= length d0)%nat ->
  length (for_upto n (fun j d => writeTexel fl32 j (f j) d) d0) = length d0 /\
  forall j, (j < n)%nat ->
    storedCell (for_upto n (fun j d => writeTexel fl32 j (f j) d) d0) j
    = Some (stored (f j)).
Proof.
  induction n as [| n IH]; intro Hlen.
  - split; [reflexivity | intros j Hj; lia].
  - destruct IH as [IHlen IHcell]; [lia |].
    rewrite for_upto_S. split.
    + rewrite writeTexel_length. exact IHlen.
    + intros j Hj. destruct (Nat.eq_dec j n) as [-> | Hne].
      * apply writeTexel_same. rewrite IHlen. lia.
      * rewrite writeTexel_other by exact Hne. apply IHcell. lia.
Qed.

End Stores.

Lemma exactOn_In (f : Q -> Q) (l : list Q) (q : Q) :
  exactOn f l -> In q l -> f q == q.
Proof.
  intros H Hin. unfold exactOn in H. rewrite Forall_forall in H.
  apply H. apply list_elem_of_In. exact Hin.
Qed.

(** A monotone rounding that is exact on both bounds keeps a value between
    them. *)
Lemma rounded_range (f : Q -> Q) (lo x hi : Q) :
  nondecreasing f -> f lo == lo -> f hi == hi ->
  lo <= x <= hi -> lo <= f x <= hi.
Proof.
  intros Hf Hlo Hhi [H1 H2]. split.
  - rewrite <- Hlo. apply Hf, H1.
  - apply Qle_trans with (f hi); [apply Hf, H2 |].
    rewrite Hhi. apply Qle_refl.
Qed.


Ltac exact_on :=
  unfold exactOn; repeat constructor; vm_compute; reflexivity.


(** X17.  The initial textures of the plane-emitter variant, as stored.
    Every particle of a [WIDTH] x [WIDTH] texture starts on the emitter
    patch: at the emitter's x as stored, with y between the values computed
    for the lower and the upper edge of the patch, z likewise, an age
    between 0 and 50, both bounds included, and the velocity (1, 0, 0). *)
Theorem initial_textures_plane (random : nat -> Q) (fl64 fl32 : Q -> Q)
        (WIDTH texels j : nat) (X Y Z w h : Q) :
  (forall n, 0 <= random n < 1) ->
  nondecreasing fl64 -> nondecreasing fl32 ->
  exactOn fl64 [0; 1; 50] -> exactOn fl32 [0; 50] ->
  fl32 0 = 0 -> fl32 1 = 1 ->
  (0 < WIDTH)%nat -> (texels <= WIDTH * WIDTH)%nat ->
  0 <= w -> 0 <= h -> (j < texels)%nat ->
  let edge (c : Q) (half size : Q) :=
    fl32 (fl64 (c + fl64 (fl64 half * size))) in
  (exists p, storedCell
               (fillPositionPlane random fl64 fl32 WIDTH X Y Z w h texels) j
             = Some p /\
             px p = fl32 X /\
             edge Y (- (1 # 2)) h <= py p <= edge Y (1 # 2) h /\
             edge Z (- (1 # 2)) w <= pz p <= edge Z (1 # 2) w /\
             0 <= pw p <= 50) /\
  storedCell (fillVelocityPlane fl32 texels) j = Some (V4 1 0 0 0).
Proof.
  intros Hr H64 H32 E64 E32 Hz Ho HW Ht Hw Hh Hj edge.
  unfold fillPositionPlane, fillVelocityPlane.
  pose proof (Float32Array_length (texels * 4)) as HL.
  assert (A0 : fl64 0 == 0) by (apply (exactOn_In _ _ _ E64); simpl; tauto).
  assert (A1 : fl64 1 == 1) by (apply (exactOn_In _ _ _ E64); simpl; tauto).
  assert (A5 : fl64 50 == 50)
    by (apply (exactOn_In _ _ _ E64); simpl; tauto).
  assert (B0 : fl32 0 == 0) by (apply (exactOn_In _ _ _ E32); simpl; tauto).
  assert (B5 : fl32 50 == 50)
    by (apply (exactOn_In _ _ _ E32); simpl; tauto).
  assert (Hedge : forall c t size, 0 <= t < 1 -> 0 <= size ->
            edge c (- (1 # 2)) size
            <= fl32 (fl64 (c + fl64 (fl64 (fl64 t - 0.5) * size)))
            <= edge c (1 # 2) size).
  { intros c t size Ht' Hs. unfold edge.
    pose proof (rounded_range fl64 0 t 1 H64 A0 A1 ltac:(lra)) as [S1 S2].
    assert (S3 : fl64 (- (1 # 2)) <= fl64 (fl64 t - 0.5) <= fl64 (1 # 2))
      by (split; apply H64; lra).
    destruct S3 as [S3 S4].
    split; apply H32, H64;
      (apply Qplus_le_r; apply H64; nra). }
  split.
  - eexists. split.
    + apply (proj2 (texel_loop fl32 _ texels (Float32Array (texels * 4))
                               ltac:(rewrite HL; lia)) j Hj).
    + cbn [px py pz pw].
      assert (Hu := fraction_unit (j mod WIDTH) WIDTH
                      ltac:(apply Nat.mod_upper_bound; lia)).
      assert (Hv := fraction_unit (j / WIDTH) WIDTH
                      ltac:(apply Nat.Div0.div_lt_upper_bound; lia)).
      split; [reflexivity |].
      split; [apply Hedge; assumption |].
      split; [apply Hedge; assumption |].
      pose proof (Hr j) as Hrj.
      pose proof (rounded_range fl64 0 (random j * 50) 50 H64 A0 A5
                                ltac:(lra)) as S1.
      exact (rounded_range fl32 0 _ 50 H32 B0 B5 S1).
  - rewrite (proj2 (texel_loop fl32 (fun _ => V4 1 0 0 0) texels
                               (Float32Array (texels * 4))
                               ltac:(rewrite HL; lia)) j Hj).
    cbn [px py pz pw]. rewrite Hz, Ho. reflexivity.
Qed.

(** The plane-emitter textures of a 2 x 2 system with the emitter of the
    constructor; with a [Math.random] that returns 1 - 2^-30 the stored age
    is 50. *)
Lemma initial_textures_plane_witness :
  (exists p, storedCell
               (fillPositionPlane nearOne binary64 binary32 2
                                  (-2) 0 0 1.5 1.5 4) 3
             = Some p /\
             px p = binary32 (-2) /\
             binary32 (binary64 (0 + binary64 (binary64 (- (1 # 2)) * 1.5)))
               <= py p
               <= binary32 (binary64 (0 + binary64 (binary64 (1 # 2) * 1.5)))
             /\
             binary32 (binary64 (0 + binary64 (binary64 (- (1 # 2)) * 1.5)))
               <= pz p
               <= binary32 (binary64 (0 + binary64 (binary64 (1 # 2) * 1.5)))
             /\
             0 <= pw p <= 50) /\
  storedCell (fillVelocityPlane binary32 4) 3 = Some (V4 1 0 0 0) /\
  binary32 (binary64 (nearOne 3 * 50)) = 50.
Proof.
  destruct (initial_textures_plane nearOne binary64 binary32 2 4 3
                                   (-2) 0 0 1.5 1.5) as (A & B).
  - intro n. unfold nearOne. split; [vm_compute; discriminate |].
    vm_compute. reflexivity.
  - exact binary64_nondecreasing.
  - exact binary32_nondecreasing.
  - exact_on.
  - exact_on.
  - reflexivity.
  - vm_compute. reflexivity.
  - lia.
  - simpl. lia.
  - discriminate.
  - discriminate.
  - lia.
  - split; [exact A |]. split; [exact B |]. vm_compute. reflexivity.
Defined.

End FillTexturesFacts.

(** ** VelocityField.generate as computed *)

Module RoundedFieldFacts.
Import RoundedField.

Section Facts.

Variable fl64 : Q -> Q.
Variable fl32 : Q -> Q.
Variable intersectObject : Mesh -> Vector3 -> Vector3 -> list Q.
Variable sqrt : Q -> Q.

(** Zero is stored as zero. *)
Hypothesis fl32_zero : fl32 0 = 0.

Let idx (n : nat) (c : nat * nat * nat) : nat :=
  let '(z, y, x) := c in VelocityField.cellIndex n x y z.

Let stored (v : Vector3) : Vector3 :=
  V3 (fl32 (vx v)) (fl32 (vy v)) (fl32 (vz v)).

Let val (n : nat) (method : string) (mesh : option Mesh)
    (c : nat * nat * nat) : Vector3 :=
  let '(z, y, x) := c in
  stored (cellVelocity fl64 intersectObject sqrt method mesh
                       (gridPoint fl64 n x y z)).

Lemma rounded_generateData_fold (n : nat) (method : string)
      (mesh : option Mesh) :
  generateData fl64 fl32 intersectObject sqrt n method mesh
  = fold_left (fun acc c => write4 (idx n c) (val n method mesh c) acc)
              (cells n) (Float32Array (n * n * n * 4)).
Proof.
  unfold generateData. rewrite triple_loop_cells.
  apply fold_left_pointwise. intros a [[z y] x].
  unfold writeCell, write4, val, idx, stored. cbn [vx vy vz].
  rewrite fl32_zero. reflexivity.
Qed.

(** The cell written for grid cell (x, y, z). *)
Lemma rounded_generateData_cell (n : nat) (method : string)
      (mesh : option Mesh) (x y z : nat) :
  (x < n)%nat -> (y < n)%nat -> (z < n)%nat ->
  storedCell (generateData fl64 fl32 intersectObject sqrt n method mesh)
             (VelocityField.cellIndex n x y z)
  = Some (vec4 (stored (cellVelocity fl64 intersectObject sqrt method mesh
                                     (gridPoint fl64 n x y z))) 0).
Proof.
  intros Hx Hy Hz.
  pose proof (VelocityFieldFacts.cellIndex_bound n x y z Hx Hy Hz) as Hb.
  assert (L : forall k, (k < 4)%nat ->
            generateData fl64 fl32 intersectObject sqrt n method mesh
              !! (VelocityField.cellIndex n x y z * 4 + k)%nat
            = Some (component k (val n method mesh (z, y, x)))).
  { intros k Hk. rewrite rounded_generateData_fold.
    apply (fold_writes_written _ (idx n) (val n method mesh)
                               (cells n) _ (z, y, x) k).
    - unfold idx. rewrite cells_indices. apply NoDup_seq.
    - apply cell_in_cells; assumption.
    - unfold Float32Array. rewrite length_replicate. unfold idx. lia.
    - exact Hk. }
  unfold storedCell.
  pose proof (L 0%nat ltac:(lia)) as H0. pose proof (L 1%nat ltac:(lia)) as H1.
  pose proof (L 2%nat ltac:(lia)) as H2. pose proof (L 3%nat ltac:(lia)) as H3.
  replace (VelocityField.cellIndex n x y z * 4 + 0)%nat
    with (4 * VelocityField.cellIndex n x y z)%nat in H0 by lia.
  replace (VelocityField.cellIndex n x y z * 4 + 1)%nat
    with (4 * VelocityField.cellIndex n x y z + 1)%nat in H1 by lia.
  replace (VelocityField.cellIndex n x y z * 4 + 2)%nat
    with (4 * VelocityField.cellIndex n x y z + 2)%nat in H2 by lia.
  replace (VelocityField.cellIndex n x y z * 4 + 3)%nat
    with (4 * VelocityField.cellIndex n x y z + 3)%nat in H3 by lia.
  rewrite H0, H1, H2, H3. reflexivity.
Qed.

(** C3.  With method 'radial', as the program computes it.  Take the grid
    point the loop computes for a cell and its computed distance from the
    origin, [Math.sqrt(x * x + y * y + z * z)] in doubles.  If the distance
    is greater than the double 0.1 and the point is not classified inside
    the mesh, the cell holds the position times the reciprocal of that
    distance, every component rounded to a double and stored in single
    precision.  If the distance is at most the double 0.1 the cell holds
    (0, 0, 0, 0) and nothing is normalised. *)
Theorem radial_flow (mesh : option Mesh) (n x y z : nat) (p : Vector3) :
  0 <= fl64 (1 # 10) ->
  (x < n)%nat -> (y < n)%nat -> (z < n)%nat ->
  gridPoint fl64 n x y z = Some p ->
  let d := generateData fl64 fl32 intersectObject sqrt n "radial" mesh in
  let dist := vlength fl64 sqrt p in
  (fl64 (1 # 10) < dist ->
   VelocityField.cellInside intersectObject mesh (Some p) = false ->
   let inv := fl64 (1 / dist) in
   storedCell d (z * n * n + y * n + x)
   = Some (V4 (fl32 (fl64 (vx p * inv))) (fl32 (fl64 (vy p * inv)))
              (fl32 (fl64 (vz p * inv))) 0)) /\
  (dist <= fl64 (1 # 10) ->
   storedCell d (z * n * n + y * n + x) = Some (V4 0 0 0 0) /\
   flowVelocity fl64 sqrt "radial" (Some p) = vzero).
Proof.
  intros Htenth Hx Hy Hz Hp d dist.
  pose proof (rounded_generateData_cell n "radial" mesh x y z Hx Hy Hz) as Hc.
  fold d in Hc. unfold VelocityField.cellIndex in Hc. rewrite Hp in Hc.
  unfold cellVelocity, flowVelocity in Hc. cbn [String.eqb Ascii.eqb Bool.eqb]
    in Hc.
  fold dist in Hc.
  split.
  - intros Hd Hin inv. rewrite Hc, Hin.
    assert (G : Qgtb dist (fl64 (1 # 10)) = true) by (apply Qgtb_gt, Hd).
    rewrite G. unfold normalize. fold dist.
    assert (Z0 : Qeq_bool dist 0 = false).
    { destruct (Qeq_bool dist 0) eqn:E; [| reflexivity].
      apply Qeq_bool_eq in E. exfalso. lra. }
    rewrite Z0. reflexivity.
  - intro Hd.
    assert (G : Qgtb dist (fl64 (1 # 10)) = false).
    { destruct (Qgtb dist (fl64 (1 # 10))) eqn:E; [| reflexivity].
      apply Qgtb_gt in E. exfalso. lra. }
    split.
    + rewrite Hc, G.
      destruct (VelocityField.cellInside intersectObject mesh (Some p));
        unfold stored, vec4, vzero; cbn [vx vy vz];
        rewrite fl32_zero; reflexivity.
    + unfold flowVelocity. cbn [String.eqb Ascii.eqb Bool.eqb].
      fold dist. rewrite G. reflexivity.
Qed.

End Facts.

(** At resolution 21 the loop computes 0.10000000000000009 for the
    coordinate whose exact value is one tenth, so the cell (11, 10, 10) is
    farther than 0.1 from the origin and holds (1, 0, 0). *)
Lemma radial_flow_witness :
  exists p,
    gridPoint binary64 21 11 10 10 = Some p /\
    vx p = 225179981368525 # 2251799813685248 /\
    storedCell (generateData binary64 binary32 noHit sqrt64 21 "radial" None)
               (10 * 21 * 21 + 10 * 21 + 11)
    = Some (V4 1 0 0 0).
Proof.
  exists (V3 (225179981368525 # 2251799813685248) 0 0).
  assert (Hp : gridPoint binary64 21 11 10 10
               = Some (V3 (225179981368525 # 2251799813685248) 0 0))
    by (vm_compute; reflexivity).
  split; [exact Hp |]. split; [reflexivity |].
  destruct (radial_flow binary64 binary32 noHit sqrt64 eq_refl None
                        21 11 10 10 _ ltac:(vm_compute; discriminate)
                        ltac:(lia) ltac:(lia) ltac:(lia) Hp) as [A _].
  rewrite A.
  - vm_compute. reflexivity.
  - vm_compute. reflexivity.
  - reflexivity.
Defined.

End RoundedFieldFacts.

(** ** The compute passes as computed *)

Module RoundedShaderFacts.
Import ShaderFacts.

Section Ranges.

Variable fl : Q -> Q.
Hypothesis fl_le : nondecreasing fl.
Hypothesis fl_zero : fl 0 == 0.
Hypothesis fl_one : fl 1 == 1.

Lemma fl_between (a x b : Q) : a <= x <= b -> fl a <= fl x <= fl b.
Proof. intros [H1 H2]. split; apply fl_le; assumption. Qed.

Lemma fl_nonneg (x : Q) : 0 <= x -> 0 <= fl x.
Proof. intro H. rewrite <- fl_zero. apply fl_le, H. Qed.

Lemma fl_nonpos (x : Q) : x <= 0 -> fl x <= 0.
Proof. intro H. rewrite <- fl_zero. apply fl_le, H. Qed.

Lemma rounded_rand_range (sin : Q -> Q) (co : Vector2) :
  0 <= Rounded.rand fl sin co <= 1.
Proof.
  unfold Rounded.rand, Rounded.fract.
  set (x := fl (sin _ * _)).
  pose proof (fract_range x) as [H1 H2]. unfold fract in H1, H2.
  split.
  - apply fl_nonneg. exact H1.
  - apply Qle_trans with (fl 1); [apply fl_le; lra |].
    rewrite fl_one. apply Qle_refl.
Qed.

(** A rounded product of a number in [0, 1] with a rounded non-negative
    constant, added to [a] and rounded. *)
Lemma jitter_range (a r c : Q) :
  0 <= r <= 1 -> 0 <= c ->
  fl a <= fl (a + fl (r * fl c)) <= fl (a + fl (fl c)).
Proof.
  intros [Hr0 Hr1] Hc.
  pose proof (fl_nonneg c Hc) as Hfc.
  assert (H : 0 <= fl (r * fl c) <= fl (fl c)).
  { split.
    - apply fl_nonneg. nra.
    - apply fl_le. nra. }
  apply fl_between. lra.
Qed.

Lemma scaled_between (a lo hi c : Q) :
  lo <= a <= hi -> 0 <= c -> fl (lo * c) <= fl (a * c) <= fl (hi * c).
Proof. intros [H1 H2] Hc. apply fl_between. split; nra. Qed.

(** A rounded product of a factor in [-1, 1] with a radius in [0, R]. *)
Lemma radius_between (r d R : Q) :
  0 <= r <= R -> -1 <= d <= 1 -> fl (- R) <= fl (d * r) <= fl R.
Proof. intros [H1 H2] [H3 H4]. apply fl_between. split; nra. Qed.

Lemma radius_between_r (r d R : Q) :
  0 <= r <= R -> -1 <= d <= 1 -> fl (- R) <= fl (r * d) <= fl R.
Proof. intros [H1 H2] [H3 H4]. apply fl_between. split; nra. Qed.

Lemma radius_rounded (s R : Q) :
  0 <= s <= 1 -> 0 <= R -> 0 <= fl (s * R) <= fl R.
Proof.
  intros [H1 H2] HR. split.
  - apply fl_nonneg. nra.
  - apply fl_le. nra.
Qed.

End Ranges.

(** C2.  The position pass as the GPU computes it, every operation rounded.
    The texel of a particle is advanced by [vel * delta * speedMultiplier]
    and its age by [delta * 60].  If the advanced age has reached the
    particle's randomised maximum age, or the advanced position lies
    outside the closed box [boundsMin .. boundsMax], the output is the spawn
    point with age exactly 0; otherwise it is the advanced position with the
    advanced age.  For a rounding that is monotone and exact on 0 and 1, the
    spawn point of the plane emitter lies on the emitter's YZ patch, within
    the rounded 0.05 along X and the rounded 0.01 along Y and Z; that of
    the shape emitter is the emitter position plus an offset, which for
    shape 0 lies between the rounded -0.005 and 0.005 on every axis and for
    the other shapes within the rounded emission radius (given built-ins
    with the ranges of the real functions). *)
Theorem position_pass (fl sin cos sqrt : Q -> Q) (pow : Q -> Q -> Q)
        (length3 : Vector3 -> Q) (normalize3 : Vector3 -> Vector3)
        (uv : Vector2) (posData velData : Vector4) :
  (forall U : PlaneShaders.PositionUniforms,
     let delta := PlaneShaders.delta U in
     let speed := PlaneShaders.speedMultiplier U in
     let pos' :=
       V3 (fl (px posData + fl (fl (px velData * delta) * speed)))
          (fl (py posData + fl (fl (py velData * delta) * speed)))
          (fl (pz posData + fl (fl (pz velData * delta) * speed))) in
     let age' := fl (pw posData + fl (delta * 60)) in
     let limit :=
       fl (PlaneShaders.maxAge U
           * fl (fl 0.9 + fl (fl 0.1 * Rounded.rand fl sin uv))) in
     let e := PlaneShaders.emitterPos U in
     let sp := RoundedPlaneShaders.spawnPoint fl sin U uv in
     let out := RoundedPlaneShaders.particleComputeShaderPosition
                  fl sin U uv posData velData in
     (limit <= age' \/
      ~ inBox (PlaneShaders.boundsMin U) (PlaneShaders.boundsMax U) pos' ->
      out = V4 (vx sp) (vy sp) (vz sp) 0) /\
     (~ (limit <= age' \/
         ~ inBox (PlaneShaders.boundsMin U) (PlaneShaders.boundsMax U) pos') ->
      out = V4 (vx pos') (vy pos') (vz pos') age') /\
     (nondecreasing fl -> exactOn fl [0; 1] ->
      let y := fl (vy e + fl (fl (uy uv - 0.5)
                              * PlaneShaders.emitterHeight U)) in
      let z := fl (vz e + fl (fl (ux uv - 0.5)
                              * PlaneShaders.emitterWidth U)) in
      fl (vx e) <= vx sp <= fl (vx e + fl (fl 0.05)) /\
      fl y <= vy sp <= fl (y + fl (fl 0.01)) /\
      fl z <= vz sp <= fl (z + fl (fl 0.01)))) /\
  (forall U : ShapeShaders.PositionUniforms,
     let delta := ShapeShaders.delta U in
     let speed := ShapeShaders.speedMultiplier U in
     let pos' :=
       V3 (fl (px posData + fl (fl (px velData * delta) * speed)))
          (fl (py posData + fl (fl (py velData * delta) * speed)))
          (fl (pz posData + fl (fl (pz velData * delta) * speed))) in
     let age' := fl (pw posData + fl (delta * 60)) in
     let limit :=
       fl (ShapeShaders.maxAge U
           * fl (fl 0.8 + fl (fl 0.4 * Rounded.rand fl sin uv))) in
     let e := ShapeShaders.emitterPos U in
     let R := ShapeShaders.emissionRadius U in
     let off := RoundedShapeShaders.spawnOffset
                  fl sin cos sqrt pow length3 normalize3 U uv in
     let out := RoundedShapeShaders.particleComputeShaderPosition
                  fl sin cos sqrt pow length3 normalize3 U uv
                  posData velData in
     (limit <= age' \/
      ~ inBox (ShapeShaders.boundsMin U) (ShapeShaders.boundsMax U) pos' ->
      out = V4 (fl (vx e + vx off)) (fl (vy e + vy off))
               (fl (vz e + vz off)) 0) /\
     (~ (limit <= age' \/
         ~ inBox (ShapeShaders.boundsMin U) (ShapeShaders.boundsMax U) pos') ->
      out = V4 (vx pos') (vy pos') (vz pos') age') /\
     (nondecreasing fl -> exactOn fl [0; 1] ->
      ShapeShaders.emissionShape U = 0%Z ->
      between (fl (fl (- 0.5) * fl 0.01)) (fl (fl 0.5 * fl 0.01)) off) /\
     (nondecreasing fl -> exactOn fl [0; 1; -1] ->
      (forall a, -1 <= cos a <= 1) ->
      (forall a, -1 <= sin a <= 1) ->
      (forall x, 0 <= x <= 1 -> 0 <= sqrt x <= 1) ->
      (forall x y, 0 <= x <= 1 -> 0 <= pow x y <= 1) ->
      (forall v, within 1 (normalize3 v)) ->
      0 <= R ->
      ShapeShaders.emissionShape U <> 0%Z ->
      between (fl (- fl R)) (fl (fl R)) off)).
Proof.
  split; intro U; cbv zeta.
  - unfold RoundedPlaneShaders.particleComputeShaderPosition,
      RoundedPlaneShaders.respawns, RoundedPlaneShaders.myMaxAge,
      Rounded.advance, Rounded.advanceAge, xyz.
    cbn [vx vy vz].
    match goal with
    | |- context [if ?b then _ else _] => destruct b eqn:E
    end.
    + split; [| split].
      * intros _. reflexivity.
      * intro H. exfalso. apply H. apply respawn_test. exact E.
      * intros Hle Hex.
        apply Forall_cons in Hex as [H0 Hex].
        apply Forall_cons in Hex as [H1 _].
        unfold RoundedPlaneShaders.spawnPoint. cbn [vx vy vz].
        split; [| split];
          (apply (jitter_range fl Hle H0);
           [apply (rounded_rand_range fl Hle H0 H1) | discriminate]).
    + split; [| split].
      * intro H. apply respawn_test in H. congruence.
      * intros _. reflexivity.
      * intros Hle Hex.
        apply Forall_cons in Hex as [H0 Hex].
        apply Forall_cons in Hex as [H1 _].
        unfold RoundedPlaneShaders.spawnPoint. cbn [vx vy vz].
        split; [| split];
          (apply (jitter_range fl Hle H0);
           [apply (rounded_rand_range fl Hle H0 H1) | discriminate]).
  - assert (Hzero : nondecreasing fl -> exactOn fl [0; 1] ->
              ShapeShaders.emissionShape U = 0%Z ->
              between (fl (fl (- 0.5) * fl 0.01)) (fl (fl 0.5 * fl 0.01))
                (RoundedShapeShaders.spawnOffset
                   fl sin cos sqrt pow length3 normalize3 U uv)).
    { intros Hle Hex Hs.
      apply Forall_cons in Hex as [H0 Hex].
      apply Forall_cons in Hex as [H1 _].
      unfold RoundedShapeShaders.spawnOffset. rewrite Hs.
      cbn [Z.eqb]. unfold between, Rounded.multiplyScalar. cbn [vx vy vz].
      assert (Hc : 0 <= fl 0.01) by (apply (fl_nonneg fl Hle H0); discriminate).
      split; [| split];
        (apply (scaled_between fl Hle); [| exact Hc]);
        apply (fl_between fl Hle);
        match goal with
        | |- _ <= Rounded.rand fl sin ?co - _ <= _ =>
            pose proof (rounded_rand_range fl Hle H0 H1 sin co); lra
        end. }
    assert (Hother : nondecreasing fl -> exactOn fl [0; 1; -1] ->
              (forall a, -1 <= cos a <= 1) ->
              (forall a, -1 <= sin a <= 1) ->
              (forall x, 0 <= x <= 1 -> 0 <= sqrt x <= 1) ->
              (forall x y, 0 <= x <= 1 -> 0 <= pow x y <= 1) ->
              (forall v, within 1 (normalize3 v)) ->
              0 <= ShapeShaders.emissionRadius U ->
              ShapeShaders.emissionShape U <> 0%Z ->
              between (fl (- fl (ShapeShaders.emissionRadius U)))
                      (fl (fl (ShapeShaders.emissionRadius U)))
                (RoundedShapeShaders.spawnOffset
                   fl sin cos sqrt pow length3 normalize3 U uv)).
    { intros Hle Hex Hcos Hsin Hsqrt Hpow Hnorm HR Hs.
      apply Forall_cons in Hex as [H0 Hex].
      apply Forall_cons in Hex as [H1 Hex].
      apply Forall_cons in Hex as [Hm1 _].
      unfold RoundedShapeShaders.spawnOffset.
      destruct (Z.eqb_spec (ShapeShaders.emissionShape U) 0) as [E | _];
        [contradiction |].
      set (t := ShapeShaders.time U).
      pose proof (rounded_rand_range fl Hle H0 H1 sin
                    (Rounded.addScalar2 fl uv t)) as R1.
      pose proof (rounded_rand_range fl Hle H0 H1 sin
                    (Rounded.addScalar2 fl uv (fl (t * fl 1.1)))) as R2.
      pose proof (rounded_rand_range fl Hle H0 H1 sin
                    (Rounded.addScalar2 fl uv (fl (t * fl 1.2)))) as R3.
      set (r1 := Rounded.rand fl sin (Rounded.addScalar2 fl uv t)) in *.
      set (r2 := Rounded.rand fl sin
                   (Rounded.addScalar2 fl uv (fl (t * fl 1.1)))) in *.
      set (r3 := Rounded.rand fl sin
                   (Rounded.addScalar2 fl uv (fl (t * fl 1.2)))) in *.
      set (R := ShapeShaders.emissionRadius U) in *.
      pose proof (fl_nonneg fl Hle H0 R HR) as HfR.
      destruct (ShapeShaders.emissionShape U =? 1)%Z.
      - pose proof (radius_rounded fl Hle H0 (sqrt r2) R (Hsqrt r2 R2) HR)
          as Hr.
        unfold between. cbn [vx vy vz]. split; [| split].
        + split.
          * apply (fl_nonpos fl Hle H0). lra.
          * apply (fl_nonneg fl Hle H0). exact HfR.
        + apply (radius_between_r fl Hle _ _ _ Hr (Hcos _)).
        + apply (radius_between_r fl Hle _ _ _ Hr (Hsin _)).
      - pose proof (radius_rounded fl Hle H0 (pow r1 (fl 0.333333)) R
                      (Hpow r1 _ R1) HR) as Hr.
        set (raw := V3 (fl (r1 - 0.5)) (fl (r2 - 0.5)) (fl (r3 - 0.5))).
        set (dir := if Qgtb (length3 raw) (fl 0.001) then normalize3 raw
                    else raw).
        assert (Hdir : within 1 dir).
        { unfold dir. destruct (Qgtb _ _); [apply Hnorm |].
          unfold within, raw. cbn [vx vy vz].
          assert (B : forall r, 0 <= r <= 1 -> - (1) <= fl (r - 0.5) <= 1).
          { intros r Hr'.
            pose proof (fl_between fl Hle (-1) (r - 0.5) 1 ltac:(lra))
              as [B1 B2].
            rewrite Hm1 in B1. rewrite H1 in B2. split; assumption. }
          split; [| split]; apply B; assumption. }
        destruct Hdir as (Hx & Hy & Hz).
        unfold between, Rounded.multiplyScalar. cbn [vx vy vz].
        split; [| split].
        + apply (radius_between fl Hle _ _ _ Hr Hx).
        + apply (radius_between fl Hle _ _ _ Hr Hy).
        + apply (radius_between fl Hle _ _ _ Hr Hz). }
    unfold RoundedShapeShaders.particleComputeShaderPosition,
      RoundedShapeShaders.respawns, RoundedShapeShaders.myMaxAge,
      RoundedShapeShaders.spawnPoint, Rounded.addVectors,
      Rounded.advance, Rounded.advanceAge, xyz.
    cbn [vx vy vz].
    match goal with
    | |- context [if ?b then _ else _] => destruct b eqn:E
    end.
    + split; [| split; [| split]].
      * intros _. reflexivity.
      * intro H. exfalso. apply H. apply respawn_test. exact E.
      * exact Hzero.
      * exact Hother.
    + split; [| split; [| split]].
      * intro H. apply respawn_test in H. congruence.
      * intros _. reflexivity.
      * exact Hzero.
      * exact Hother.
Qed.

(** A particle on the upper face of the bounds box whose step outwards is
    lost in the rounding of the sum is kept, not respawned. *)
Lemma position_pass_witness :
  RoundedShapeShaders.particleComputeShaderPosition
    binary32 constZero constZero constZero constZero2 zeroLength
    keepDirection edgePositionUniforms (V2 0 0) edgeParticle slowVelocity
  = V4 2 0 0 (15 # 16).
Proof.
  rewrite (proj1 (proj2 (proj2 (position_pass
             binary32 constZero constZero constZero constZero2 zeroLength
             keepDirection (V2 0 0) edgeParticle slowVelocity)
             edgePositionUniforms))).
  - vm_compute. reflexivity.
  - rewrite <- respawn_test. vm_compute. discriminate.
Defined.

Lemma rounded_texCoord_some (fl : Q -> Q) (pos gmin gmax c : Vector3) :
  Rounded.texCoord fl pos gmin gmax = Some c ->
  c = V3 (fl (fl (vx pos - vx gmin) / fl (vx gmax - vx gmin)))
         (fl (fl (vy pos - vy gmin) / fl (vy gmax - vy gmin)))
         (fl (fl (vz pos - vz gmin) / fl (vz gmax - vz gmin))).
Proof.
  unfold Rounded.texCoord, Rounded.subVectors. cbn [vx vy vz].
  destruct (_ || _ || _); [discriminate |].
  intro H. injection H as <-. reflexivity.
Qed.

Lemma rounded_blend_step (fl : Q -> Q) (texture3D : Vector3 -> Vector4)
      (start : Vector3) (tc : option Vector3) (b : Q) :
  let stepped :=
    match tc with
    | Some c => if insideGrid tc
                then Rounded.mix fl start (xyz (texture3D c)) b
                else start
    | None => start
    end in
  (forall c, tc = Some c -> inUnitCube c ->
             stepped = Rounded.mix fl start (xyz (texture3D c)) b) /\
  (~ (exists c, tc = Some c /\ inUnitCube c) -> stepped = start).
Proof.
  cbv zeta. split.
  - intros c -> Hc.
    assert (H : insideGrid (Some c) = true)
      by (apply insideGrid_spec; exists c; split; [reflexivity | exact Hc]).
    rewrite H. reflexivity.
  - intro Hout. destruct tc as [c |]; [| reflexivity].
    destruct (insideGrid (Some c)) eqn:E; [| reflexivity].
    exfalso. apply Hout. apply insideGrid_spec. exact E.
Qed.

(** C5.  The velocity pass as the GPU computes it, every operation rounded.
    The velocity first becomes [normalize(initialDirection) * initialSpeed]
    when the particle is newly spawned (age at most the computed
    [delta * 60 * 2] in the plane variant; age at most 0 or below the
    computed [delta * 60 * 1.5] in the shape variant) and stays as read
    otherwise.  It is then blended with the sampled field,
    [mix(vel, fieldVel, c)] with c the single-precision 0.3 resp. 0.2,
    exactly when the computed (pos - gridMin) / (gridMax - gridMin) lies in
    the unit cube; outside the grid it is not blended, so the velocity of a
    particle that is outside and not newly spawned is unchanged.  The
    fourth output component is 0. *)
Theorem velocity_pass (fl : Q -> Q) (normalize3 : Vector3 -> Vector3)
        (texture3D : Vector3 -> Vector4)
        (uv : Vector2) (posData velData : Vector4) :
  let pos := V3 (px posData) (py posData) (pz posData) in
  let age := pw posData in
  let vel := V3 (px velData) (py velData) (pz velData) in
  (forall U : PlaneShaders.VelocityUniforms,
     let gmin := PlaneShaders.gridMin U in
     let gmax := PlaneShaders.gridMax U in
     let newly := age <= fl (fl (PlaneShaders.vdelta U * 60) * 2) in
     let n := normalize3 (PlaneShaders.initialDirection U) in
     let speed := PlaneShaders.initialSpeed U in
     let v0 := V3 (fl (vx n * speed)) (fl (vy n * speed))
                  (fl (vz n * speed)) in
     let tc := Rounded.texCoord fl pos gmin gmax in
     let out := RoundedPlaneShaders.particleComputeShaderVelocity
                  fl normalize3 texture3D U uv posData velData in
     exists start,
       (newly -> start = v0) /\ (~ newly -> start = vel) /\
       (forall c, tc = Some c -> inUnitCube c ->
          out = vec4 (Rounded.mix fl start (xyz (texture3D c)) (fl 0.3)) 0) /\
       (~ (exists c, tc = Some c /\ inUnitCube c) -> out = vec4 start 0) /\
       (~ (exists c, tc = Some c /\ inUnitCube c) -> ~ newly ->
          out = vec4 vel 0) /\
       (forall c, tc = Some c ->
          c = V3 (fl (fl (vx pos - vx gmin) / fl (vx gmax - vx gmin)))
                 (fl (fl (vy pos - vy gmin) / fl (vy gmax - vy gmin)))
                 (fl (fl (vz pos - vz gmin) / fl (vz gmax - vz gmin))))) /\
  (forall U : ShapeShaders.VelocityUniforms,
     let gmin := ShapeShaders.gridMin U in
     let gmax := ShapeShaders.gridMax U in
     let newly := age <= 0
                  \/ age < fl (fl (ShapeShaders.vdelta U * 60) * 1.5) in
     let n := normalize3 (ShapeShaders.initialDirection U) in
     let speed := ShapeShaders.initialSpeed U in
     let v0 := V3 (fl (vx n * speed)) (fl (vy n * speed))
                  (fl (vz n * speed)) in
     let tc := Rounded.texCoord fl pos gmin gmax in
     let out := RoundedShapeShaders.particleComputeShaderVelocity
                  fl normalize3 texture3D U uv posData velData in
     exists start,
       (newly -> start = v0) /\ (~ newly -> start = vel) /\
       (forall c, tc = Some c -> inUnitCube c ->
          out = vec4 (Rounded.mix fl start (xyz (texture3D c)) (fl 0.2)) 0) /\
       (~ (exists c, tc = Some c /\ inUnitCube c) -> out = vec4 start 0) /\
       (~ (exists c, tc = Some c /\ inUnitCube c) -> ~ newly ->
          out = vec4 vel 0) /\
       (forall c, tc = Some c ->
          c = V3 (fl (fl (vx pos - vx gmin) / fl (vx gmax - vx gmin)))
                 (fl (fl (vy pos - vy gmin) / fl (vy gmax - vy gmin)))
                 (fl (fl (vz pos - vz gmin) / fl (vz gmax - vz gmin))))).
Proof.
  cbv zeta. split; intro U.
  - set (start := if Qle_bool (pw posData)
                       (fl (fl (PlaneShaders.vdelta U * 60) * 2))
                  then Rounded.multiplyScalar fl
                         (normalize3 (PlaneShaders.initialDirection U))
                         (PlaneShaders.initialSpeed U)
                  else V3 (px velData) (py velData) (pz velData)).
    set (tc := Rounded.texCoord fl
                 (V3 (px posData) (py posData) (pz posData))
                 (PlaneShaders.gridMin U) (PlaneShaders.gridMax U)).
    destruct (rounded_blend_step fl texture3D start tc (fl 0.3))
      as [Hin Hout].
    assert (E : RoundedPlaneShaders.particleComputeShaderVelocity
                  fl normalize3 texture3D U uv posData velData
                = vec4 (match tc with
                        | Some c =>
                            if insideGrid tc
                            then Rounded.mix fl start (xyz (texture3D c))
                                             (fl 0.3)
                            else start
                        | None => start
                        end) 0) by reflexivity.
    rewrite E. exists start.
    split; [| split; [| split; [| split; [| split]]]];
      [| | | | | apply rounded_texCoord_some].
    + intro Hn. apply Qle_bool_iff in Hn. unfold start. rewrite Hn.
      reflexivity.
    + intro Hn. apply Qle_bool_false in Hn. unfold start. rewrite Hn.
      reflexivity.
    + intros c Hc Hu. rewrite (Hin c Hc Hu). reflexivity.
    + intro Ho. rewrite (Hout Ho). reflexivity.
    + intros Ho Hn. rewrite (Hout Ho).
      apply Qle_bool_false in Hn. unfold start. rewrite Hn. reflexivity.
  - set (start := if Qle_bool (pw posData) 0
                     || Qltb (pw posData)
                             (fl (fl (ShapeShaders.vdelta U * 60) * 1.5))
                  then Rounded.multiplyScalar fl
                         (normalize3 (ShapeShaders.initialDirection U))
                         (ShapeShaders.initialSpeed U)
                  else V3 (px velData) (py velData) (pz velData)).
    set (tc := Rounded.texCoord fl
                 (V3 (px posData) (py posData) (pz posData))
                 (ShapeShaders.gridMin U) (ShapeShaders.gridMax U)).
    destruct (rounded_blend_step fl texture3D start tc (fl 0.2))
      as [Hin Hout].
    assert (E : RoundedShapeShaders.particleComputeShaderVelocity
                  fl normalize3 texture3D U uv posData velData
                = vec4 (match tc with
                        | Some c =>
                            if insideGrid tc
                            then Rounded.mix fl start (xyz (texture3D c))
                                             (fl 0.2)
                            else start
                        | None => start
                        end) 0) by reflexivity.
    rewrite E.
    assert (Hnew : Qle_bool (pw posData) 0
                   || Qltb (pw posData)
                           (fl (fl (ShapeShaders.vdelta U * 60) * 1.5))
                   = true
                   <-> (pw posData <= 0
                        \/ pw posData
                           < fl (fl (ShapeShaders.vdelta U * 60) * 1.5))).
    { rewrite orb_true_iff, Qle_bool_iff, Qltb_lt. reflexivity. }
    exists start.
    split; [| split; [| split; [| split; [| split]]]];
      [| | | | | apply rounded_texCoord_some].
    + intro Hn. apply Hnew in Hn. unfold start. rewrite Hn. reflexivity.
    + intro Hn. rewrite <- Hnew in Hn. apply not_true_is_false in Hn.
      unfold start. rewrite Hn. reflexivity.
    + intros c Hc Hu. rewrite (Hin c Hc Hu). reflexivity.
    + intro Ho. rewrite (Hout Ho). reflexivity.
    + intros Ho Hn. rewrite (Hout Ho).
      rewrite <- Hnew in Hn. apply not_true_is_false in Hn.
      unfold start. rewrite Hn. reflexivity.
Qed.

(** A particle at x = 1 + 2^-23 with the grid box from -1 to 1: the
    subtraction of [gridMin] rounds to 2, the grid coordinate is 1, and the
    velocity (0, 5, 0) is blended with the field (5, 0, 0) into
    (1, 4, 0). *)
Lemma velocity_pass_witness :
  Rounded.texCoord binary32 (xyz outsideParticle)
                   (V3 (-1) (-1) (-1)) (V3 1 1 1)
  = Some (V3 1 (1 # 2) (1 # 2)) /\
  RoundedShapeShaders.particleComputeShaderVelocity
    binary32 keepDirection fieldOfFive gridVelocityUniforms (V2 0 0)
    outsideParticle (V4 0 5 0 0)
  = V4 1 4 0 0.
Proof.
  assert (Htc : Rounded.texCoord binary32 (xyz outsideParticle)
                  (V3 (-1) (-1) (-1)) (V3 1 1 1)
                = Some (V3 1 (1 # 2) (1 # 2))) by (vm_compute; reflexivity).
  split; [exact Htc |].
  destruct (proj2 (velocity_pass binary32 keepDirection fieldOfFive (V2 0 0)
                                 outsideParticle (V4 0 5 0 0))
                  gridVelocityUniforms)
    as (start & _ & Hold & Hin & _).
  rewrite (Hin _ Htc).
  - rewrite Hold.
    + vm_compute. reflexivity.
    + intros [Hn | Hn]; vm_compute in Hn; [apply Hn; reflexivity |].
      discriminate Hn.
  - unfold inUnitCube. cbn [vx vy vz]. repeat split; discriminate.
Defined.

End RoundedShaderFacts.

(** ** OBJLoader.normalizeGeometry as computed *)

Module RoundedLoaderFacts.
Import OBJLoader.





End RoundedLoaderFacts.
